(** * The smoldot client bridge ([wasm-node/javascript/src/internals/client.ts])

    A shallow embedding of the state object created by [start], of the event
    callback it hands to the instance, and of the public functions it returns
    ([addChain], [terminate], and the per-chain [sendJsonRpc],
    [nextJsonRpcResponse] and [remove]).

    The program is asynchronous.  Every synchronous block of the source (the
    body of a function up to its next [await], or the part that follows an
    [await]) is a function on an explicit [World]; a block that is suspended at
    an [await] is stored as a continuation next to the promise it waits for,
    and resolving the promise moves the continuation to the microtask queue. *)

From Stdlib Require Import ZArith QArith Qround String.
From stdpp Require Import base option list gmap strings pretty.
Local Close Scope Q_scope.


(** ** Values of the host language *)

(** An ECMAScript number: a finite value (every double is a rational), one of
    the two infinities, or NaN. *)
Inductive JsNumber :=
| JsNaN
| JsPosInf
| JsNegInf
| JsFinite (q : Q).

Definition Math_floor (n : JsNumber) : JsNumber :=
  match n with
  | JsFinite q => JsFinite (inject_Z (Qfloor q))
  | _ => n
  end.

Definition isNaN (n : JsNumber) : bool :=
  match n with JsNaN => true | _ => false end.

(** [a <= b] *)
Definition js_le (a b : JsNumber) : bool :=
  match a, b with
  | JsNaN, _ | _, JsNaN => false
  | JsNegInf, _ | _, JsPosInf => true
  | JsPosInf, _ | _, JsNegInf => false
  | JsFinite x, JsFinite y => Qle_bool x y
  end.

(** [a < b] *)
Definition js_lt (a b : JsNumber) : bool :=
  match a, b with
  | JsNaN, _ | _, JsNaN => false
  | JsPosInf, _ | _, JsNegInf => false
  | JsNegInf, _ | _, JsPosInf => true
  | JsFinite x, JsFinite y => negb (Qle_bool y x)
  end.

(** [a > b] *)
Definition js_gt (a b : JsNumber) : bool := js_lt b a.

Definition js_int (z : Z) : JsNumber := JsFinite (inject_Z z).

(** [0xffffffff] *)
Definition u32_max : Z := 4294967295.

(** A value whose type the source inspects with [typeof]. *)
Inductive JsValue :=
| JsUndefined
| JsNull
| JsBoolean (b : bool)
| JsNum (n : JsNumber)
| JsString (s : string)
| JsObject.

(** [typeof v === 'string'] *)
Definition typeof_string (v : JsValue) : bool :=
  match v with JsString _ => true | _ => false end.

Definition truthy (v : JsValue) : bool :=
  match v with
  | JsUndefined | JsNull => false
  | JsBoolean b => b
  | JsNum JsNaN => false
  | JsNum (JsFinite q) => negb (Qeq_bool q 0)
  | JsNum _ => true
  | JsString s => negb (bool_decide (s = ""))
  | JsObject => true
  end.

(** [a || b] *)
Definition js_or (a b : JsValue) : JsValue := if truthy a then a else b.

(** ** Errors, outcomes and results *)

Inductive Error :=
| GenericError (message : string)   (* [new Error(message)], [new Error()] with [""] *)
| TypeError                         (* raised by the runtime on [undefined] *)
| QueueFullError
| AlreadyDestroyedError
| JsonRpcDisabledError
| AddChainError (message : string)
| CrashError (message : string).

(** What a synchronous block does: it completes normally or throws. *)
Inductive Completion (A : Type) :=
| Normal (a : A)
| Throw (e : Error).
Arguments Normal {A} a.
Arguments Throw {A} e.

(** The payload of an [add-chain-result] event. *)
Inductive AddChainOutcome :=
| Success (chainId : nat)
| Failure (error : string).

(** The [Chain] objects returned by [addChain], the promises and the
    platform's connection objects are known by their identity. *)
Abbreviation Handle := nat (only parsing).
Abbreviation PromiseId := nat (only parsing).
Abbreviation Connection := nat (only parsing).

(** An address as produced by the instance; the bridge only passes it on. *)
Abbreviation ParsedMultiaddr := string (only parsing).

Record AddChainOptions := mkOptions {
  chainSpec : JsValue;
  databaseContent : JsValue;
  potentialRelayChains : option (list Handle);
  disableJsonRpc : bool;
  jsonRpcMaxPendingRequests : option JsNumber;
  jsonRpcMaxSubscriptions : option JsNumber;
}.

(** ** Insertion-ordered maps with number keys (the ECMAScript [Map]) *)

Module JsMap.
Section Ops.
Context {V : Type}.

Fixpoint get (k : nat) (m : list (nat * V)) : option V :=
  match m with
  | [] => None
  | (k', v) :: m' => if decide (k = k') then Some v else get k m'
  end.

Definition has (k : nat) (m : list (nat * V)) : bool :=
  match get k m with Some _ => true | None => false end.

(** An existing key keeps its position, a new key goes last. *)
Fixpoint set (k : nat) (v : V) (m : list (nat * V)) : list (nat * V) :=
  match m with
  | [] => [(k, v)]
  | (k', v') :: m' =>
      if decide (k = k') then (k, v) :: m' else (k', v') :: set k v m'
  end.

Fixpoint delete (k : nat) (m : list (nat * V)) : list (nat * V) :=
  match m with
  | [] => []
  | (k', v') :: m' =>
      if decide (k = k') then delete k m' else (k', v') :: delete k m'
  end.

Definition values (m : list (nat * V)) : list V := m.*2.
End Ops.
End JsMap.

(** ** The instance, its commands and its events *)

Inductive Direction := Inbound | Outbound.

Inductive OpenInfo :=
| SingleStream (initialWritableBytes : nat)
| MultiStream (localTlsCertificateSha256 remoteTlsCertificateSha256 : list Byte.byte).

(** The calls made on [state.instance.instance]. *)
Inductive Command :=
| CmdAddChain (chainSpec databaseContent : JsValue)
    (potentialRelayChains : list nat) (disableJsonRpc : bool)
    (jsonRpcMaxPendingRequests jsonRpcMaxSubscriptions : JsNumber)
| CmdRequest (request : string) (chainId : nat)
| CmdRemoveChain (chainId : nat)
| CmdShutdownExecutor
| CmdConnectionReset (connectionId : nat) (message : string)
| CmdStreamMessage (connectionId : nat) (message : list Byte.byte) (streamId : option nat)
| CmdStreamOpened (connectionId streamId : nat) (direction : Direction)
    (initialWritableBytes : nat)
| CmdConnectionOpened (connectionId : nat) (info : OpenInfo)
| CmdStreamWritableBytes (connectionId numExtra : nat) (streamId : option nat)
| CmdStreamReset (connectionId streamId : nat).

(** [instance.Event] *)
Inductive Event :=
| WasmPanic (message : string) (currentTask : option string)
| ExecutorShutdown
| Log (level : Z) (target message : string)
| AddChainResult (outcome : AddChainOutcome)
| JsonRpcResponsesNonEmpty (chainId : nat)
| NewConnection (connectionId : nat) (address : ParsedMultiaddr)
| ConnectionReset (connectionId : nat)
| ConnectionStreamOpen (connectionId : nat)
| ConnectionStreamReset (connectionId streamId : nat)
| StreamSend (connectionId : nat) (data : list Byte.byte) (streamId : option nat)
| StreamSendClose (connectionId : nat) (streamId : option nat).

(** The calls made on the platform: [connect], the methods of the connection
    objects it returned, and the log callback. *)
Inductive PlatformCall :=
| PlatConnect (connectionId : nat) (address : ParsedMultiaddr) (connec : Connection)
| PlatReset (connec : Connection) (streamId : option nat)
| PlatSend (connec : Connection) (data : list Byte.byte) (streamId : option nat)
| PlatCloseSend (connec : Connection) (streamId : option nat)
| PlatOpenOutSubstream (connec : Connection)
| PlatLog (level : Z) (target message : string).

(** ** The state object *)

Inductive InstanceStatus :=
| NotCreated
| NotReady
| Ready
| Destroyed (error : Error).

(** The object [state] of [start].  A resolver stored in it is the identity of
    the promise it resolves; the callback [() => {}] is [None]. *)
Record State := mkState {
  instance : InstanceStatus;
  chainIds : gmap Handle nat;
  connections : list (nat * Connection);
  addChainResults : list PromiseId;
  onExecutorShutdownOrWasmPanic : option PromiseId;
  chains : list (nat * list PromiseId);
}.

(** ** Suspended calls *)

(** A call of one of the three asynchronous functions, as its caller knows
    it: a label chosen by the caller and, for [nextJsonRpcResponse], the chain
    id the [Chain] object was created for. *)
Inductive Call :=
| CallAddChain (id : nat)
| CallNextJsonRpcResponse (id : nat) (chainId : nat)
| CallTerminate (id : nat).

Inductive Value :=
| VVoid
| VChain (newChain : Handle)
| VString (message : string).

Inductive Result :=
| Resolved (v : Value)
| Rejected (e : Error).

(** What the runtime runs as a microtask: the rest of an asynchronous function
    after one of its [await]s, or one of the two jobs by which the promise of a
    call adopts the promise that the function returned. *)
Inductive Cont :=
| KAddChainReady (id : nat) (options : AddChainOptions)
| KAddChainOutcome (id : nat) (options : AddChainOptions)
| KNextJsonRpcResponse (id : nat) (chainId : nat) (disableJsonRpc : bool)
| KTerminateReady (id : nat)
| KTerminateShutdown (id : nat)
| KAdoptRejection (call : Call) (error : Error)
| KRejectCall (call : Call) (error : Error).

(** What an awaited promise delivers. *)
Inductive Payload :=
| PVoid
| POutcome (outcome : AddChainOutcome)
| PRejection (e : Error).

(** The promise [whenReady]. *)
Inductive WhenReady :=
| WhenReadyPending (reactions : list Cont)
| WhenReadyFulfilled
| WhenReadyRejected (e : Error).

(** The part of the host runtime the program relies on. *)
Record Runtime := mkRuntime {
  promises : gmap PromiseId Cont;       (* pending promises and who awaits them *)
  nextPromise : PromiseId;
  whenReady : WhenReady;
  microtasks : list (Cont * Payload);   (* oldest first *)
  chainObjects : gmap Handle (nat * bool);  (* [chainId] and [options.disableJsonRpc]
                                               captured by each [Chain] object *)
  nextChainObject : Handle;
  settled : list (Call * Result);       (* oldest first *)
}.

(** The instance and the platform, seen from the bridge. *)
Record Env := mkEnv {
  engineLog : list Command;             (* oldest first *)
  responses : gmap nat (list string);   (* the instance's queue of JSON-RPC responses *)
  platformLog : list PlatformCall;      (* oldest first *)
  nextConnection : Connection;
}.

Record World := mkWorld {
  state : State;
  runtime : Runtime;
  env : Env;
}.

(** ** Field updates *)

Definition upd_state (f : State → State) (w : World) : World :=
  {| state := f (state w); runtime := runtime w; env := env w |}.
Definition upd_runtime (f : Runtime → Runtime) (w : World) : World :=
  {| state := state w; runtime := f (runtime w); env := env w |}.
Definition upd_env (f : Env → Env) (w : World) : World :=
  {| state := state w; runtime := runtime w; env := f (env w) |}.

Definition set_instance (i : InstanceStatus) (w : World) : World :=
  upd_state (λ s, {| instance := i; chainIds := chainIds s; connections := connections s;
                     addChainResults := addChainResults s;
                     onExecutorShutdownOrWasmPanic := onExecutorShutdownOrWasmPanic s;
                     chains := chains s |}) w.
Definition set_chainIds (m : gmap Handle nat) (w : World) : World :=
  upd_state (λ s, {| instance := instance s; chainIds := m; connections := connections s;
                     addChainResults := addChainResults s;
                     onExecutorShutdownOrWasmPanic := onExecutorShutdownOrWasmPanic s;
                     chains := chains s |}) w.
Definition set_connections (m : list (nat * Connection)) (w : World) : World :=
  upd_state (λ s, {| instance := instance s; chainIds := chainIds s; connections := m;
                     addChainResults := addChainResults s;
                     onExecutorShutdownOrWasmPanic := onExecutorShutdownOrWasmPanic s;
                     chains := chains s |}) w.
Definition set_addChainResults (l : list PromiseId) (w : World) : World :=
  upd_state (λ s, {| instance := instance s; chainIds := chainIds s;
                     connections := connections s; addChainResults := l;
                     onExecutorShutdownOrWasmPanic := onExecutorShutdownOrWasmPanic s;
                     chains := chains s |}) w.
Definition set_onExecutorShutdownOrWasmPanic (cb : option PromiseId) (w : World) : World :=
  upd_state (λ s, {| instance := instance s; chainIds := chainIds s;
                     connections := connections s; addChainResults := addChainResults s;
                     onExecutorShutdownOrWasmPanic := cb; chains := chains s |}) w.
Definition set_chains (m : list (nat * list PromiseId)) (w : World) : World :=
  upd_state (λ s, {| instance := instance s; chainIds := chainIds s;
                     connections := connections s; addChainResults := addChainResults s;
                     onExecutorShutdownOrWasmPanic := onExecutorShutdownOrWasmPanic s;
                     chains := m |}) w.

Definition set_promises (m : gmap PromiseId Cont) (w : World) : World :=
  upd_runtime (λ r, {| promises := m; nextPromise := nextPromise r; whenReady := whenReady r;
                       microtasks := microtasks r; chainObjects := chainObjects r;
                       nextChainObject := nextChainObject r; settled := settled r |}) w.
Definition set_nextPromise (p : PromiseId) (w : World) : World :=
  upd_runtime (λ r, {| promises := promises r; nextPromise := p; whenReady := whenReady r;
                       microtasks := microtasks r; chainObjects := chainObjects r;
                       nextChainObject := nextChainObject r; settled := settled r |}) w.
Definition set_whenReady (p : WhenReady) (w : World) : World :=
  upd_runtime (λ r, {| promises := promises r; nextPromise := nextPromise r; whenReady := p;
                       microtasks := microtasks r; chainObjects := chainObjects r;
                       nextChainObject := nextChainObject r; settled := settled r |}) w.
Definition set_microtasks (q : list (Cont * Payload)) (w : World) : World :=
  upd_runtime (λ r, {| promises := promises r; nextPromise := nextPromise r;
                       whenReady := whenReady r; microtasks := q;
                       chainObjects := chainObjects r;
                       nextChainObject := nextChainObject r; settled := settled r |}) w.
Definition set_chainObjects (m : gmap Handle (nat * bool)) (w : World) : World :=
  upd_runtime (λ r, {| promises := promises r; nextPromise := nextPromise r;
                       whenReady := whenReady r; microtasks := microtasks r;
                       chainObjects := m;
                       nextChainObject := nextChainObject r; settled := settled r |}) w.
Definition set_nextChainObject (h : Handle) (w : World) : World :=
  upd_runtime (λ r, {| promises := promises r; nextPromise := nextPromise r;
                       whenReady := whenReady r; microtasks := microtasks r;
                       chainObjects := chainObjects r;
                       nextChainObject := h; settled := settled r |}) w.
Definition set_settled (l : list (Call * Result)) (w : World) : World :=
  upd_runtime (λ r, {| promises := promises r; nextPromise := nextPromise r;
                       whenReady := whenReady r; microtasks := microtasks r;
                       chainObjects := chainObjects r;
                       nextChainObject := nextChainObject r; settled := l |}) w.

Definition set_engineLog (l : list Command) (w : World) : World :=
  upd_env (λ e, {| engineLog := l; responses := responses e;
                   platformLog := platformLog e; nextConnection := nextConnection e |}) w.
Definition set_responses (m : gmap nat (list string)) (w : World) : World :=
  upd_env (λ e, {| engineLog := engineLog e; responses := m;
                   platformLog := platformLog e; nextConnection := nextConnection e |}) w.
Definition set_platformLog (l : list PlatformCall) (w : World) : World :=
  upd_env (λ e, {| engineLog := engineLog e; responses := responses e;
                   platformLog := l; nextConnection := nextConnection e |}) w.
Definition set_nextConnection (c : Connection) (w : World) : World :=
  upd_env (λ e, {| engineLog := engineLog e; responses := responses e;
                   platformLog := platformLog e; nextConnection := c |}) w.

(** ** The host runtime: promises and microtasks *)

(** The caller's promise settles. *)
Definition settle (c : Call) (r : Result) (w : World) : World :=
  set_settled (settled (runtime w) ++ [(c, r)]) w.

(** [new Promise((resolve) => ...)] awaited by the continuation [k]: the
    resolver handed to the executor is the new promise's identity. *)
Definition newPromise (k : Cont) (w : World) : PromiseId * World :=
  let p := nextPromise (runtime w) in
  (p, set_nextPromise (S p) (set_promises (<[p := k]> (promises (runtime w))) w)).

(** Calling a resolver.  The first call queues the awaiting continuation as a
    microtask; later calls do nothing. *)
Definition resolvePromise (p : PromiseId) (v : Payload) (w : World) : World :=
  match promises (runtime w) !! p with
  | Some k =>
      set_microtasks (microtasks (runtime w) ++ [(k, v)])
        (set_promises (delete p (promises (runtime w))) w)
  | None => w
  end.

(** [return Promise.reject(error)] in an asynchronous function.  The promise
    of the call is resolved with a promise that is already rejected: it stays
    pending, and the runtime queues the job [KAdoptRejection] that calls [then]
    on the returned promise.  That job queues the reaction [KRejectCall],
    which rejects the promise of the call. *)
Definition returnRejected (call : Call) (error : Error) (w : World) : World :=
  set_microtasks (microtasks (runtime w) ++ [(KAdoptRejection call error, PVoid)]) w.

(** [await state.instance.whenReady] *)
Definition awaitWhenReady (k : Cont) (w : World) : World :=
  match whenReady (runtime w) with
  | WhenReadyPending l => set_whenReady (WhenReadyPending (l ++ [k])) w
  | WhenReadyFulfilled => set_microtasks (microtasks (runtime w) ++ [(k, PVoid)]) w
  | WhenReadyRejected e => set_microtasks (microtasks (runtime w) ++ [(k, PRejection e)]) w
  end.

(** ** The instance and the platform *)

Definition issue (c : Command) (w : World) : World :=
  set_engineLog (engineLog (env w) ++ [c]) w.

Definition platform (c : PlatformCall) (w : World) : World :=
  set_platformLog (platformLog (env w) ++ [c]) w.

(** Modelled from the spec: the instance's [peekJsonRpcResponse], whose code is
    not part of this file.  It is the non-blocking pop of the response queue of
    the chain: the oldest queued response is removed and returned, and nothing
    is returned when the queue is empty. *)
Definition peekJsonRpcResponse (chainId : nat) (w : World) : option string * World :=
  match responses (env w) !! chainId with
  | Some (m :: q) => (Some m, set_responses (<[chainId := q]> (responses (env w))) w)
  | _ => (None, w)
  end.

(** Modelled from the spec: the instance queues a response for a chain. *)
Definition queueJsonRpcResponse (chainId : nat) (m : string) (w : World) : World :=
  set_responses
    (<[chainId := default [] (responses (env w) !! chainId) ++ [m]]> (responses (env w))) w.

(** Modelled from the spec: [platformBindings.connect] returns a connection
    object that no earlier call returned. *)
Definition connect (connectionId : nat) (address : ParsedMultiaddr) (w : World)
  : Connection * World :=
  let c := nextConnection (env w) in
  (c, set_nextConnection (S c) (platform (PlatConnect connectionId address c) w)).

(** ** The event callback *)

(** [state.connections.forEach((connec) => connec.reset());
     state.connections.clear()] *)
Definition resetConnections (w : World) : World :=
  set_connections []
    (foldl (λ w connec, platform (PlatReset connec None) w) w
       (JsMap.values (connections (state w)))).

(** [for (const addChainResult of state.addChainResults)
       addChainResult({ success: false, error });
     state.addChainResults = []] *)
Definition failAddChainResults (error : string) (w : World) : World :=
  set_addChainResults []
    (foldl (λ w addChainResult, resolvePromise addChainResult (POutcome (Failure error)) w) w
       (addChainResults (state w))).

(** [for (const callback of callbacks) callback()] *)
Definition wakeAll (callbacks : list PromiseId) (w : World) : World :=
  foldl (λ w callback, resolvePromise callback PVoid w) w callbacks.

(** [for (const chain of Array.from(state.chains.values())) { ... }
     state.chains.clear()] *)
Definition wakeChains (w : World) : World :=
  set_chains []
    (foldl (λ w callbacks, wakeAll callbacks w) w (JsMap.values (chains (state w)))).

(** [const cb = state.onExecutorShutdownOrWasmPanic;
     state.onExecutorShutdownOrWasmPanic = () => {};
     cb()] *)
Definition callShutdownOrPanic (w : World) : World :=
  let cb := onExecutorShutdownOrWasmPanic (state w) in
  let w := set_onExecutorShutdownOrWasmPanic None w in
  match cb with
  | Some resolve => resolvePromise resolve PVoid w
  | None => w
  end.

(** A method call on [state.connections.get(connectionId)!]. *)
Definition withConnection (connectionId : nat) (f : Connection → World → World) (w : World)
  : World * Completion unit :=
  match JsMap.get connectionId (connections (state w)) with
  | Some connection => (f connection w, Normal ())
  | None => (w, Throw TypeError)
  end.

(** [eventCallback].  The text printed on the console by the [wasm-panic]
    case is left out. *)
Definition eventCallback (event : Event) (w : World) : World * Completion unit :=
  match event with
  | WasmPanic message currentTask =>
      let w := set_instance (Destroyed (CrashError message)) w in
      let w := resetConnections w in
      let w := failAddChainResults "Smoldot has crashed" w in
      let w := wakeChains w in
      (callShutdownOrPanic w, Normal ())
  | ExecutorShutdown => (callShutdownOrPanic w, Normal ())
  | Log level target message => (platform (PlatLog level target message) w, Normal ())
  | AddChainResult outcome =>
      match addChainResults (state w) with
      | resolve :: rest =>
          (resolvePromise resolve (POutcome outcome) (set_addChainResults rest w), Normal ())
      | [] => (w, Throw TypeError)
      end
  | JsonRpcResponsesNonEmpty chainId =>
      match JsMap.get chainId (chains (state w)) with
      | Some callbacks =>
          (set_chains (JsMap.set chainId [] (chains (state w))) (wakeAll callbacks w),
           Normal ())
      | None => (w, Throw TypeError)
      end
  | NewConnection connectionId address =>
      let (connec, w) := connect connectionId address w in
      (set_connections (JsMap.set connectionId connec (connections (state w))) w, Normal ())
  | ConnectionReset connectionId =>
      withConnection connectionId
        (λ connection w,
           set_connections (JsMap.delete connectionId (connections (state w)))
             (platform (PlatReset connection None) w)) w
  | ConnectionStreamOpen connectionId =>
      withConnection connectionId
        (λ connection w, platform (PlatOpenOutSubstream connection) w) w
  | ConnectionStreamReset connectionId streamId =>
      withConnection connectionId
        (λ connection w, platform (PlatReset connection (Some streamId)) w) w
  | StreamSend connectionId data streamId =>
      withConnection connectionId
        (λ connection w, platform (PlatSend connection data streamId) w) w
  | StreamSendClose connectionId streamId =>
      withConnection connectionId
        (λ connection w, platform (PlatCloseSend connection streamId) w) w
  end.

(** The callbacks given to [platformBindings.connect] for [connectionId]. *)
Inductive ConnectionCallback :=
| OnConnectionReset (message : string)
| OnMessage (message : list Byte.byte) (streamId : option nat)
| OnStreamOpened (streamId : nat) (direction : Direction) (initialWritableBytes : nat)
| OnOpen (info : OpenInfo)
| OnWritableBytes (numExtra : nat) (streamId : option nat)
| OnStreamReset (streamId : nat).

Definition connectionCallback (connectionId : nat) (cb : ConnectionCallback) (w : World)
  : World * Completion unit :=
  match instance (state w) with
  | Ready =>
      match cb with
      | OnConnectionReset message =>
          (issue (CmdConnectionReset connectionId message)
             (set_connections (JsMap.delete connectionId (connections (state w))) w),
           Normal ())
      | OnMessage message streamId =>
          (issue (CmdStreamMessage connectionId message streamId) w, Normal ())
      | OnStreamOpened streamId direction initialWritableBytes =>
          (issue (CmdStreamOpened connectionId streamId direction initialWritableBytes) w,
           Normal ())
      | OnOpen info => (issue (CmdConnectionOpened connectionId info) w, Normal ())
      | OnWritableBytes numExtra streamId =>
          (issue (CmdStreamWritableBytes connectionId numExtra streamId) w, Normal ())
      | OnStreamReset streamId => (issue (CmdStreamReset connectionId streamId) w, Normal ())
      end
  | _ => (w, Throw (GenericError ""))
  end.

(** ** Starting the client *)

(** The world when [start] returns: the instance is being created. *)
Definition start : World :=
  {| state := {| instance := NotReady; chainIds := ∅; connections := [];
                 addChainResults := []; onExecutorShutdownOrWasmPanic := None;
                 chains := [] |};
     runtime := {| promises := ∅; nextPromise := 0; whenReady := WhenReadyPending [];
                   microtasks := []; chainObjects := ∅; nextChainObject := 0;
                   settled := [] |};
     env := {| engineLog := []; responses := ∅; platformLog := []; nextConnection := 0 |} |}.

(** The [.then((instance) => ...)] callback behind [whenReady], followed by
    the fulfilment of [whenReady]. *)
Definition instanceStarted (w : World) : World :=
  match whenReady (runtime w) with
  | WhenReadyPending reactions =>
      let w := match instance (state w) with
               | Destroyed _ => w
               | _ => set_instance Ready w
               end in
      set_whenReady WhenReadyFulfilled
        (set_microtasks (microtasks (runtime w) ++ ((λ k, (k, PVoid)) <$> reactions)) w)
  | _ => w
  end.

(** The instance could not be created: [whenReady] is rejected. *)
Definition instanceStartFailed (e : Error) (w : World) : World :=
  match whenReady (runtime w) with
  | WhenReadyPending reactions =>
      set_whenReady (WhenReadyRejected e)
        (set_microtasks (microtasks (runtime w) ++ ((λ k, (k, PRejection e)) <$> reactions)) w)
  | _ => w
  end.

(** ** [addChain] *)

(** The loop over [options.potentialRelayChains]. *)
Definition potentialRelayChainsIds (options : AddChainOptions) (w : World) : list nat :=
  match potentialRelayChains options with
  | Some l =>
      foldl (λ ids chain,
               match chainIds (state w) !! chain with
               | None => ids
               | Some id => ids ++ [id]
               end) [] l
  | None => []
  end.

Definition sanitize_jsonRpcMaxPendingRequests (o : option JsNumber) : Completion JsNumber :=
  let n := match o with None => JsPosInf | Some n => n end in
  let n := Math_floor n in
  if js_le n (js_int 0) || isNaN n
  then Throw (AddChainError "Invalid value for `jsonRpcMaxPendingRequests`")
  else Normal (if js_gt n (js_int u32_max) then js_int u32_max else n).

Definition sanitize_jsonRpcMaxSubscriptions (o : option JsNumber) : Completion JsNumber :=
  let n := match o with None => JsPosInf | Some n => n end in
  let n := Math_floor n in
  if js_lt n (js_int 0) || isNaN n
  then Throw (AddChainError "Invalid value for `jsonRpcMaxSubscriptions`")
  else Normal (if js_gt n (js_int u32_max) then js_int u32_max else n).

(** [options.databaseContent !== undefined
     && typeof options.databaseContent !== 'string'] *)
Definition databaseContent_invalid (v : JsValue) : bool :=
  match v with
  | JsUndefined => false
  | _ => negb (typeof_string v)
  end.

(** [addChain] from the test [state.instance.status === "destroyed"] to
    [await promise]. *)
Definition addChainAfterReady (id : nat) (options : AddChainOptions) (w : World) : World :=
  let call := CallAddChain id in
  match instance (state w) with
  | Destroyed error => settle call (Rejected error) w
  | NotCreated | NotReady => settle call (Rejected (GenericError "")) w
  | Ready =>
      if negb (typeof_string (chainSpec options))
      then settle call (Rejected (GenericError "Chain specification must be a string")) w
      else
        let ids := potentialRelayChainsIds options w in
        match sanitize_jsonRpcMaxPendingRequests (jsonRpcMaxPendingRequests options) with
        | Throw e => settle call (Rejected e) w
        | Normal maxPendingRequests =>
            match sanitize_jsonRpcMaxSubscriptions (jsonRpcMaxSubscriptions options) with
            | Throw e => settle call (Rejected e) w
            | Normal maxSubscriptions =>
                if databaseContent_invalid (databaseContent options)
                then settle call (Rejected (AddChainError "`databaseContent` is not a string")) w
                else
                  let (resolve, w) := newPromise (KAddChainOutcome id options) w in
                  let w := set_addChainResults (addChainResults (state w) ++ [resolve]) w in
                  issue (CmdAddChain (chainSpec options)
                           (js_or (databaseContent options) (JsString ""))
                           ids (disableJsonRpc options)
                           maxPendingRequests maxSubscriptions) w
            end
        end
  end.

(** [addChain] after [await promise]. *)
Definition addChainAfterOutcome (id : nat) (options : AddChainOptions) (outcome : Payload)
    (w : World) : World :=
  let call := CallAddChain id in
  match outcome with
  | POutcome (Failure error) => settle call (Rejected (AddChainError error)) w
  | POutcome (Success chainId) =>
      let w := set_chains (JsMap.set chainId [] (chains (state w))) w in
      let newChain := nextChainObject (runtime w) in
      let w := set_nextChainObject (S newChain)
                 (set_chainObjects
                    (<[newChain := (chainId, disableJsonRpc options)]> (chainObjects (runtime w)))
                    w) in
      let w := set_chainIds (<[newChain := chainId]> (chainIds (state w))) w in
      settle call (Resolved (VChain newChain)) w
  | PVoid => settle call (Rejected TypeError) w
  | PRejection e => settle call (Rejected e) w
  end.

Definition addChain (id : nat) (options : AddChainOptions) (w : World) : World :=
  match instance (state w) with
  | NotReady => awaitWhenReady (KAddChainReady id options) w
  | _ => addChainAfterReady id options w
  end.

(** ** The methods of a [Chain] object

    [chainId] and [disableJsonRpc] are the variables [chainId] and
    [options.disableJsonRpc] the object's methods close over, [newChain] is
    the object itself. *)

(** [retVal] is what [state.instance.instance.request] returns when called. *)
Definition sendJsonRpc (chainId : nat) (disableJsonRpc : bool) (request : string)
    (retVal : Z) (w : World) : World * Completion unit :=
  match instance (state w) with
  | Destroyed error => (w, Throw error)
  | NotCreated | NotReady => (w, Throw (GenericError ""))
  | Ready =>
      if negb (JsMap.has chainId (chains (state w))) then (w, Throw AlreadyDestroyedError)
      else if disableJsonRpc then (w, Throw JsonRpcDisabledError)
      else
        let w := issue (CmdRequest request chainId) w in
        match retVal with
        | 0%Z => (w, Normal ())
        | 1%Z => (w, Throw QueueFullError)
        | _ => (w, Throw (GenericError
                            ("Internal error: unknown json_rpc_send error code: "
                             +:+ pretty retVal)))
        end
  end.

(** [await new Promise<void>((resolve) => {
       state.chains.get(chainId)!.jsonRpcResponsesPromises.push(resolve) })] *)
Definition waitForResponse (id chainId : nat) (disableJsonRpc : bool) (w : World) : World :=
  match JsMap.get chainId (chains (state w)) with
  | Some callbacks =>
      let (resolve, w) := newPromise (KNextJsonRpcResponse id chainId disableJsonRpc) w in
      set_chains (JsMap.set chainId (callbacks ++ [resolve]) (chains (state w))) w
  | None => settle (CallNextJsonRpcResponse id chainId) (Rejected TypeError) w
  end.

(** One turn of the loop of [nextJsonRpcResponse]: it ends the call or leaves
    it suspended at the [await]. *)
Definition nextJsonRpcResponse (id chainId : nat) (disableJsonRpc : bool) (w : World)
  : World :=
  let call := CallNextJsonRpcResponse id chainId in
  if negb (JsMap.has chainId (chains (state w)))
  then settle call (Rejected AlreadyDestroyedError) w
  else if disableJsonRpc then returnRejected call JsonRpcDisabledError w
  else
    match instance (state w) with
    | Destroyed error => settle call (Rejected error) w
    | NotCreated | NotReady => settle call (Rejected (GenericError "")) w
    | Ready =>
        let (message, w) := peekJsonRpcResponse chainId w in
        match message with
        | Some m =>
            if truthy (JsString m) then settle call (Resolved (VString m)) w
            else waitForResponse id chainId disableJsonRpc w
        | None => waitForResponse id chainId disableJsonRpc w
        end
    end.

(** [console.assert(state.chainIds.has(newChain))] prints when its condition
    is false and does nothing else; like the other texts printed on the
    console it is left out. *)
Definition remove (newChain : Handle) (chainId : nat) (w : World)
  : World * Completion unit :=
  match instance (state w) with
  | Destroyed error => (w, Throw error)
  | NotCreated | NotReady => (w, Throw (GenericError ""))
  | Ready =>
      if negb (JsMap.has chainId (chains (state w))) then (w, Throw AlreadyDestroyedError)
      else
        let w := set_chainIds (delete newChain (chainIds (state w))) w in
        match JsMap.get chainId (chains (state w)) with
        | Some callbacks =>
            let w := wakeAll callbacks w in
            let w := set_chains (JsMap.delete chainId (chains (state w))) w in
            (issue (CmdRemoveChain chainId) w, Normal ())
        | None => (w, Throw TypeError)
        end
  end.

(** ** [terminate] *)

(** From the test [state.instance.status === "destroyed"] to the [await]. *)
Definition terminateAfterReady (id : nat) (w : World) : World :=
  let call := CallTerminate id in
  match instance (state w) with
  | Destroyed error => settle call (Rejected error) w
  | NotCreated | NotReady => settle call (Rejected (GenericError "")) w
  | Ready =>
      let w := issue CmdShutdownExecutor w in
      let (resolve, w) := newPromise (KTerminateShutdown id) w in
      set_onExecutorShutdownOrWasmPanic (Some resolve) w
  end.

(** After the [await]. *)
Definition terminateAfterShutdown (id : nat) (w : World) : World :=
  let w := match instance (state w) with
           | Ready => set_instance (Destroyed AlreadyDestroyedError) w
           | _ => w
           end in
  let w := resetConnections w in
  let w := failAddChainResults "Client.terminate() has been called" w in
  let w := wakeChains w in
  settle (CallTerminate id) (Resolved VVoid) w.

Definition terminate (id : nat) (w : World) : World :=
  match instance (state w) with
  | NotReady => awaitWhenReady (KTerminateReady id) w
  | _ => terminateAfterReady id w
  end.

(** ** Running the program *)

(** A suspended block resumes with what its promise delivered. *)
Definition runCont (k : Cont) (v : Payload) (w : World) : World :=
  match k, v with
  | KAddChainReady id _, PRejection e => settle (CallAddChain id) (Rejected e) w
  | KAddChainReady id options, _ => addChainAfterReady id options w
  | KAddChainOutcome id options, _ => addChainAfterOutcome id options v w
  | KNextJsonRpcResponse id chainId _, PRejection e =>
      settle (CallNextJsonRpcResponse id chainId) (Rejected e) w
  | KNextJsonRpcResponse id chainId disableJsonRpc, _ =>
      nextJsonRpcResponse id chainId disableJsonRpc w
  | KTerminateReady id, PRejection e => settle (CallTerminate id) (Rejected e) w
  | KTerminateReady id, _ => terminateAfterReady id w
  | KTerminateShutdown id, PRejection e => settle (CallTerminate id) (Rejected e) w
  | KTerminateShutdown id, _ => terminateAfterShutdown id w
  | KAdoptRejection call e, _ =>
      set_microtasks (microtasks (runtime w) ++ [(KRejectCall call e, PRejection e)]) w
  | KRejectCall call e, _ => settle call (Rejected e) w
  end.

(** The oldest microtask runs. *)
Definition runMicrotask (w : World) : World :=
  match microtasks (runtime w) with
  | (k, v) :: q => runCont k v (set_microtasks q w)
  | [] => w
  end.

(** What can happen to the client: the instance starts or fails to start, the
    instance emits an event, the platform calls back, the instance queues a
    JSON-RPC response, the user calls one of the public functions, or the
    runtime runs a microtask. *)
Inductive Action :=
| ActInstanceStarted
| ActInstanceStartFailed (e : Error)
| ActEvent (event : Event)
| ActConnectionCallback (connectionId : nat) (cb : ConnectionCallback)
| ActQueueResponse (chainId : nat) (message : string)
| ActAddChain (id : nat) (options : AddChainOptions)
| ActTerminate (id : nat)
| ActSendJsonRpc (newChain : Handle) (request : string) (retVal : Z)
| ActNextJsonRpcResponse (id : nat) (newChain : Handle)
| ActRemove (newChain : Handle)
| ActMicrotask.

(** A method of a [Chain] object can only be called on an object that
    [addChain] returned. *)
Definition step (a : Action) (w : World) : World :=
  match a with
  | ActInstanceStarted => instanceStarted w
  | ActInstanceStartFailed e => instanceStartFailed e w
  | ActEvent event => (eventCallback event w).1
  | ActConnectionCallback connectionId cb => (connectionCallback connectionId cb w).1
  | ActQueueResponse chainId m => queueJsonRpcResponse chainId m w
  | ActAddChain id options => addChain id options w
  | ActTerminate id => terminate id w
  | ActSendJsonRpc newChain request retVal =>
      match chainObjects (runtime w) !! newChain with
      | Some (chainId, disableJsonRpc) => (sendJsonRpc chainId disableJsonRpc request retVal w).1
      | None => w
      end
  | ActNextJsonRpcResponse id newChain =>
      match chainObjects (runtime w) !! newChain with
      | Some (chainId, disableJsonRpc) => nextJsonRpcResponse id chainId disableJsonRpc w
      | None => w
      end
  | ActRemove newChain =>
      match chainObjects (runtime w) !! newChain with
      | Some (chainId, _) => (remove newChain chainId w).1
      | None => w
      end
  | ActMicrotask => runMicrotask w
  end.

Definition run (l : list Action) (w : World) : World := foldl (λ w a, step a w) w l.

(** The worlds the client can be in. *)
Definition reachable (w : World) : Prop := ∃ l, w = run l start.

(** ** Notions used to state the properties *)

(** The two errors of the numeric options. *)
Definition invalid_jsonRpcMaxPendingRequests : Error :=
  AddChainError "Invalid value for `jsonRpcMaxPendingRequests`".
Definition invalid_jsonRpcMaxSubscriptions : Error :=
  AddChainError "Invalid value for `jsonRpcMaxSubscriptions`".

(** What calling the resolvers [l], in this order and with the payload [v],
    appends to the microtask queue when the pending promises are [m]. *)
Fixpoint woken (v : Payload) (m : gmap PromiseId Cont) (l : list PromiseId)
  : list (Cont * Payload) :=
  match l with
  | [] => []
  | p :: l' => option_list ((λ k, (k, v)) <$> m !! p) ++ woken v (delete p m) l'
  end.

Definition deleteAll (l : list PromiseId) (m : gmap PromiseId Cont) : gmap PromiseId Cont :=
  foldl (λ m p, delete p m) m l.

(** The kinds of suspended blocks. *)
Definition kind_ready (k : Cont) : Prop :=
  match k with KAddChainReady _ _ | KTerminateReady _ => True | _ => False end.
Definition kind_outcome (k : Cont) : Prop :=
  match k with KAddChainOutcome _ _ => True | _ => False end.
Definition kind_waiter (chainId : nat) (k : Cont) : Prop :=
  match k with KNextJsonRpcResponse _ c _ => c = chainId | _ => False end.
Definition kind_shutdown (k : Cont) : Prop :=
  match k with KTerminateShutdown _ => True | _ => False end.

(** The promise [p] is pending and a block of kind [P] awaits it. *)
Definition pend (m : gmap PromiseId Cont) (P : Cont → Prop) (p : PromiseId) : Prop :=
  ∃ k, m !! p = Some k ∧ P k.

(** The waiters of every chain are distinct pending promises. *)
Definition chains_ok (m : gmap PromiseId Cont) (chs : list (nat * list PromiseId)) : Prop :=
  Forall (λ e, NoDup e.2 ∧ Forall (pend m (kind_waiter e.1)) e.2) chs.

(** What holds of the state object whatever happened to the client. *)
Record Inv (w : World) : Prop := mkInv {
  inv_created : instance (state w) ≠ NotCreated;
  inv_not_ready :
    instance (state w) = NotReady →
    promises (runtime w) = ∅ ∧ chainObjects (runtime w) = ∅ ∧
    Forall (λ t, kind_ready t.1) (microtasks (runtime w));
  inv_reactions :
    ∀ l, whenReady (runtime w) = WhenReadyPending l → Forall kind_ready l;
  inv_ledger_nodup : NoDup (addChainResults (state w));
  inv_ledger :
    Forall (pend (promises (runtime w)) kind_outcome) (addChainResults (state w));
  inv_chains_keys : NoDup (chains (state w)).*1;
  inv_chains : chains_ok (promises (runtime w)) (chains (state w));
  inv_cb :
    ∀ p, onExecutorShutdownOrWasmPanic (state w) = Some p →
         pend (promises (runtime w)) kind_shutdown p;
  inv_fresh : ∀ p, is_Some (promises (runtime w) !! p) → p < nextPromise (runtime w);
}.

(** The world [w'] differs from [w] by no command sent to the instance and by
    no entry of the queue [addChainResults]. *)
Definition unissued (w w' : World) : Prop :=
  engineLog (env w') = engineLog (env w) ∧
  addChainResults (state w') = addChainResults (state w).

(** On a ready instance the call [addChain(options)] labelled [id] ends in the
    block it starts in (or resumes in, when it had to wait for the instance),
    rejected with [e], and changes nothing else. *)
Definition rejects_with (id : nat) (options : AddChainOptions) (e : Error) : Prop :=
  ∀ w, instance (state w) = Ready →
       addChain id options w = settle (CallAddChain id) (Rejected e) w ∧
       runCont (KAddChainReady id options) PVoid w = settle (CallAddChain id) (Rejected e) w.

(** Whatever the world, neither block of the call sends a command or touches
    the queue. *)
Definition never_issues (id : nat) (options : AddChainOptions) : Prop :=
  ∀ w, unissued w (addChain id options w) ∧
       ∀ v, unissued w (runCont (KAddChainReady id options) v w).

(** The options with another list of relay chains. *)
Definition with_potentialRelayChains (l : option (list Handle)) (o : AddChainOptions)
  : AddChainOptions :=
  {| chainSpec := chainSpec o; databaseContent := databaseContent o;
     potentialRelayChains := l; disableJsonRpc := disableJsonRpc o;
     jsonRpcMaxPendingRequests := jsonRpcMaxPendingRequests o;
     jsonRpcMaxSubscriptions := jsonRpcMaxSubscriptions o |}.

(** A client whose instance is ready and that did nothing else yet. *)
Definition ready_client : World := run [ActInstanceStarted] start.

(** No crash is reported during [l]. *)
Definition crash_free (l : list Action) : Prop :=
  ∀ message currentTask, ActEvent (WasmPanic message currentTask) ∉ l.

(** The call a suspended block belongs to. *)
Definition call_of (k : Cont) : Call :=
  match k with
  | KAddChainReady id _ | KAddChainOutcome id _ => CallAddChain id
  | KNextJsonRpcResponse id chainId _ => CallNextJsonRpcResponse id chainId
  | KTerminateReady id | KTerminateShutdown id => CallTerminate id
  | KAdoptRejection call _ | KRejectCall call _ => call
  end.

(** The two errors a destroyed instance can carry. *)
Definition terminal_error (e : Error) : Prop :=
  e = AlreadyDestroyedError ∨ ∃ message, e = CrashError message.

(** A client with one chain, of id 7, whose handle is the object 0. *)
Definition one_chain_client : World :=
  run [ActInstanceStarted;
       ActAddChain 0 (mkOptions (JsString "{}") JsUndefined None false None None);
       ActEvent (AddChainResult (Success 7));
       ActMicrotask] start.

(** The same client with a call of [nextJsonRpcResponse] waiting on the chain. *)
Definition waiting_client : World := run [ActNextJsonRpcResponse 1 0] one_chain_client.

(** The responses the instance holds for a chain, oldest first. *)
Definition queue (chainId : nat) (w : World) : list string :=
  default [] (responses (env w) !! chainId).

(** The responses the calls of [nextJsonRpcResponse] on a chain returned so
    far, oldest first. *)
Definition delivered (chainId : nat) (w : World) : list string :=
  omap (λ cr : Call * Result,
          match cr with
          | (CallNextJsonRpcResponse _ c, Resolved (VString m)) =>
              if decide (c = chainId) then Some m else None
          | _ => None
          end) (settled (runtime w)).

(** The responses the instance queued for a chain during [l], oldest first. *)
Definition queued (chainId : nat) (l : list Action) : list string :=
  omap (λ a, match a with
             | ActQueueResponse c m => if decide (c = chainId) then Some m else None
             | _ => None
             end) l.

(** Every response queued during [l] is a non-empty text. *)
Definition nonempty_responses (l : list Action) : Prop :=
  Forall (λ a, match a with ActQueueResponse _ m => m ≠ "" | _ => True end) l.

(** Nothing is returned to a caller of [nextJsonRpcResponse] and the queues of
    the instance are left alone. *)
Definition quiet (w w' : World) : Prop :=
  responses (env w') = responses (env w) ∧ ∀ c, delivered c w' = delivered c w.

(** No queue of the instance holds an empty text. *)
Definition clean (w : World) : Prop := ∀ c, "" ∉ queue c w.

(** A chain is added and a call of [nextJsonRpcResponse] waits on it; the
    instance queues two responses before it announces them; the woken call
    and a second call each take one, and a third call waits. *)
Definition two_responses : list Action :=
  [ActInstanceStarted;
   ActAddChain 0 (mkOptions (JsString "{}") JsUndefined None false None None);
   ActEvent (AddChainResult (Success 7));
   ActMicrotask;
   ActNextJsonRpcResponse 1 0;
   ActQueueResponse 7 "a";
   ActQueueResponse 7 "b";
   ActEvent (JsonRpcResponsesNonEmpty 7);
   ActMicrotask;
   ActNextJsonRpcResponse 2 0;
   ActNextJsonRpcResponse 3 0].

(** The exchange between [addChain] and the instance: a call that passes its
    tests sends its command, or the instance reports an outcome. *)
Inductive LedgerStep :=
| Issue (id : nat) (options : AddChainOptions)
| Outcome (outcome : AddChainOutcome).

Definition ledger_action (s : LedgerStep) : Action :=
  match s with
  | Issue id options => ActAddChain id options
  | Outcome outcome => ActEvent (AddChainResult outcome)
  end.

(** The options pass every test of [addChain]. *)
Definition accepted (o : AddChainOptions) : Prop :=
  typeof_string (chainSpec o) = true ∧
  (∃ mp, sanitize_jsonRpcMaxPendingRequests (jsonRpcMaxPendingRequests o) = Normal mp) ∧
  (∃ ms, sanitize_jsonRpcMaxSubscriptions (jsonRpcMaxSubscriptions o) = Normal ms) ∧
  databaseContent_invalid (databaseContent o) = false.

Definition accepted_step (s : LedgerStep) : Prop :=
  match s with
  | Issue _ options => accepted options
  | Outcome _ => True
  end.

(** Strict first-in first-out matching, in the words of the specification:
    each outcome goes to the oldest call that has no outcome yet ([pending]
    lists the calls without outcome, oldest first); an outcome that finds no
    such call goes to nobody. *)
Fixpoint fifo (pending : list (nat * AddChainOptions)) (l : list LedgerStep)
  : list (nat * AddChainOptions * AddChainOutcome) :=
  match l with
  | [] => []
  | Issue id options :: l' => fifo (pending ++ [(id, options)]) l'
  | Outcome outcome :: l' =>
      match pending with
      | call :: pending' => (call, outcome) :: fifo pending' l'
      | [] => fifo [] l'
      end
  end.

(** The call resumes with the outcome. *)
Definition delivery (x : nat * AddChainOptions * AddChainOutcome) : Cont * Payload :=
  (KAddChainOutcome x.1.1 x.1.2, POutcome x.2).

(** The create-chain command of a call, in a client whose handles are those
    of [w]. *)
Definition createChain (o : AddChainOptions) (w : World) : option Command :=
  match sanitize_jsonRpcMaxPendingRequests (jsonRpcMaxPendingRequests o),
        sanitize_jsonRpcMaxSubscriptions (jsonRpcMaxSubscriptions o) with
  | Normal mp, Normal ms =>
      Some (CmdAddChain (chainSpec o) (js_or (databaseContent o) (JsString ""))
              (potentialRelayChainsIds o w) (disableJsonRpc o) mp ms)
  | _, _ => None
  end.

Definition createChains (l : list LedgerStep) (w : World) : list Command :=
  omap (λ s, match s with
             | Issue _ options => createChain options w
             | Outcome _ => None
             end) l.

(** Two calls send their commands before the instance answers; the first
    answer carries the chain id 9, the second is a failure. *)
Definition two_calls : list LedgerStep :=
  [Issue 0 (mkOptions (JsString "a") JsUndefined None false None None);
   Issue 1 (mkOptions (JsString "b") JsUndefined None true None None);
   Outcome (Success 9);
   Outcome (Failure "bad")].

(** The client with a waiting call of [nextJsonRpcResponse], a pending call of
    [addChain] and an open connection. *)
Definition busy_client : World :=
  run [ActAddChain 2 (mkOptions (JsString "{}") JsUndefined None false None None);
       ActEvent (NewConnection 5 "/ip4/127.0.0.1/tcp/30333/ws")] waiting_client.

(** The instance crashes and the runtime runs the microtasks the crash
    queued. *)
Definition crashed_client : World :=
  run [ActEvent (WasmPanic "boom" None); ActMicrotask; ActMicrotask] busy_client.

(** ** The options of [start] *)

(** [n || d] for an optional number [n]: a missing value, zero and NaN are
    falsy. *)
Definition number_or (o : option JsNumber) (d : JsNumber) : JsNumber :=
  match o with
  | Some n => if truthy (JsNum n) then n else d
  | None => d
  end.

(** The sanitization of [options.cpuRateLimit] in [start]. *)
Definition sanitize_cpuRateLimit (o : option JsNumber) : JsNumber :=
  let cpuRateLimit := number_or o (js_int 1) in
  let cpuRateLimit := if isNaN cpuRateLimit then js_int 1 else cpuRateLimit in
  let cpuRateLimit := if js_gt cpuRateLimit (js_int 1) then js_int 1 else cpuRateLimit in
  if js_lt cpuRateLimit (js_int 0) then js_int 0 else cpuRateLimit.

(** The event names something the state does not hold: an outcome when no
    request is pending, a chain that is not registered, a connection that is
    not in the table. *)
Definition dangling (event : Event) (w : World) : Prop :=
  match event with
  | AddChainResult _ => addChainResults (state w) = []
  | JsonRpcResponsesNonEmpty chainId => JsMap.get chainId (chains (state w)) = None
  | ConnectionReset connectionId
  | ConnectionStreamOpen connectionId
  | ConnectionStreamReset connectionId _
  | StreamSend connectionId _ _
  | StreamSendClose connectionId _ => JsMap.get connectionId (connections (state w)) = None
  | _ => False
  end.

(** ** Before the instance is ready *)

(** The client did nothing with the instance yet: no block is suspended on a
    promise or waits in the microtask queue, no chain has a handle, no
    command was sent and no [Chain] object exists. *)
Definition starting (w : World) : Prop :=
  instance (state w) ≠ Ready ∧ microtasks (runtime w) = [] ∧ promises (runtime w) = ∅ ∧
  chainIds (state w) = ∅ ∧ engineLog (env w) = [] ∧ chainObjects (runtime w) = ∅.


(** The command a block that waited for the instance sends when it resumes on
    a ready instance, if it sends one. *)
Definition reactionCommand (k : Cont) (w : World) : option Command :=
  match k with
  | KAddChainReady _ o =>
      if negb (typeof_string (chainSpec o)) || databaseContent_invalid (databaseContent o)
      then None
      else createChain o w
  | KTerminateReady _ => Some CmdShutdownExecutor
  | _ => None
  end.


(** The block [k] is suspended on the promise [p] and the state object keeps
    no resolver of [p]. *)
Definition stranded (p : PromiseId) (k : Cont) (w : World) : Prop :=
  promises (runtime w) !! p = Some k ∧ p < nextPromise (runtime w) ∧
  (p ∉ addChainResults (state w)) ∧ Forall (λ e, p ∉ e.2) (chains (state w)) ∧
  onExecutorShutdownOrWasmPanic (state w) ≠ Some p.


(** Every [Chain] object was handed out before the next one, and the objects
    that [state.chainIds] maps are [Chain] objects with the chain id their
    methods close over. *)
Definition handles_ok (w : World) : Prop :=
  (∀ h x, chainObjects (runtime w) !! h = Some x → h < nextChainObject (runtime w)) ∧
  (∀ h c, chainIds (state w) !! h = Some c →
          ∃ d, chainObjects (runtime w) !! h = Some (c, d)).

(** The object [h] was handed out and [state.chainIds] does not map it. *)
Definition unmapped (h : Handle) (w : World) : Prop :=
  chainIds (state w) !! h = None ∧ h < nextChainObject (runtime w).


(** ** The connection objects *)

(** The connection object a call on the platform returns or is made on. *)
Definition connection_of (call : PlatformCall) : option Connection :=
  match call with
  | PlatConnect _ _ connec | PlatReset connec _ | PlatSend connec _ _
  | PlatCloseSend connec _ | PlatOpenOutSubstream connec => Some connec
  | PlatLog _ _ _ => None
  end.

(** Once a connection object was reset as a whole, no call returns it or is
    made on it. *)
Definition no_use_after_reset (log : list PlatformCall) : Prop :=
  ∀ l1 l2 connec, log = l1 ++ PlatReset connec None :: l2 →
                  ∀ call, call ∈ l2 → connection_of call ≠ Some connec.

(** The connection objects kept in [state.connections] are distinct, were
    returned by the platform and were not reset as a whole. *)
Definition connections_ok (conns : list (nat * Connection)) (log : list PlatformCall)
    (next : Connection) : Prop :=
  NoDup (JsMap.values conns) ∧
  (∀ connec, connec ∈ JsMap.values conns →
             connec < next ∧ PlatReset connec None ∉ log) ∧
  (∀ call connec, call ∈ log → connection_of call = Some connec → connec < next) ∧
  no_use_after_reset log.

Definition conns_ok (w : World) : Prop :=
  connections_ok (connections (state w)) (platformLog (env w)) (nextConnection (env w)).

(** ** What the instance is sent *)

(** The create-chain command is made of what the instance expects: two
    strings and two 32-bit unsigned integers, the first of them positive. *)
Definition command_ok (c : Command) : Prop :=
  match c with
  | CmdAddChain chainSpec databaseContent _ _ maxPendingRequests maxSubscriptions =>
      typeof_string chainSpec = true ∧ typeof_string databaseContent = true ∧
      (∃ z, maxPendingRequests = js_int z ∧ (1 ≤ z ≤ u32_max)%Z) ∧
      (∃ z, maxSubscriptions = js_int z ∧ (0 ≤ z ≤ u32_max)%Z)
  | _ => True
  end.


(** ** Worlds used as counterexamples *)

(** [terminate] ran to its end on a fresh ready client: the call is resolved
    and nothing is left to run. *)
Definition terminated_client : World :=
  run [ActTerminate 0; ActEvent ExecutorShutdown; ActMicrotask] ready_client.

(** The chain of [one_chain_client] is removed through its [Chain] object, the
    object 0; another chain is added, and the instance gives it the id 7 that
    the removed chain had.  The object 1 is the [Chain] object of the new
    chain. *)
Definition recycled_client : World :=
  run [ActRemove 0;
       ActAddChain 1 (mkOptions (JsString "{}") JsUndefined None false None None);
       ActEvent (AddChainResult (Success 7));
       ActMicrotask] one_chain_client.

(** The state object holds no connection, no resolver of a pending [addChain],
    no chain and no resolver of [terminate]. *)
Definition idle (w : World) : Prop :=
  connections (state w) = [] ∧ addChainResults (state w) = [] ∧ chains (state w) = [] ∧
  onExecutorShutdownOrWasmPanic (state w) = None.


(** * Properties *)

(** ** Numbers *)

Lemma Qle_bool_inject_Z (a b : Z) : Qle_bool (inject_Z a) (inject_Z b) = (a <=? b)%Z.
Proof. unfold Qle_bool. simpl. by rewrite !Z.mul_1_r. Qed.

Lemma js_le_int (a b : Z) : js_le (js_int a) (js_int b) = (a <=? b)%Z.
Proof. apply Qle_bool_inject_Z. Qed.

Lemma js_lt_int (a b : Z) : js_lt (js_int a) (js_int b) = (a <? b)%Z.
Proof.
  unfold js_lt, js_int. rewrite Qle_bool_inject_Z.
  destruct (Z.leb_spec b a), (Z.ltb_spec a b); simpl; lia || done.
Qed.

Lemma Math_floor_finite (q : Q) : Math_floor (JsFinite q) = js_int (Qfloor q).
Proof. done. Qed.

(** The clamp applied to both options once they passed their test. *)
Lemma clamp_int (z : Z) :
  (if js_gt (js_int z) (js_int u32_max) then js_int u32_max else js_int z)
  = js_int (Z.min z u32_max).
Proof.
  unfold js_gt. rewrite js_lt_int.
  destruct (Z.ltb_spec u32_max z); f_equal; lia.
Qed.

Lemma sanitize_jsonRpcMaxPendingRequests_finite (q : Q) :
  sanitize_jsonRpcMaxPendingRequests (Some (JsFinite q))
  = if (Qfloor q <=? 0)%Z then Throw invalid_jsonRpcMaxPendingRequests
    else Normal (js_int (Z.min (Qfloor q) u32_max)).
Proof.
  unfold sanitize_jsonRpcMaxPendingRequests. rewrite Math_floor_finite, js_le_int.
  destruct (Qfloor q <=? 0)%Z; [done|].
  change (false || isNaN (js_int (Qfloor q))) with false. cbv iota.
  by rewrite clamp_int.
Qed.

Lemma sanitize_jsonRpcMaxSubscriptions_finite (q : Q) :
  sanitize_jsonRpcMaxSubscriptions (Some (JsFinite q))
  = if (Qfloor q <? 0)%Z then Throw invalid_jsonRpcMaxSubscriptions
    else Normal (js_int (Z.min (Qfloor q) u32_max)).
Proof.
  unfold sanitize_jsonRpcMaxSubscriptions. rewrite Math_floor_finite, js_lt_int.
  destruct (Qfloor q <? 0)%Z; [done|].
  change (false || isNaN (js_int (Qfloor q))) with false. cbv iota.
  by rewrite clamp_int.
Qed.

Lemma sanitize_jsonRpcMaxPendingRequests_range (o : option JsNumber) (v : JsNumber) :
  sanitize_jsonRpcMaxPendingRequests o = Normal v →
  ∃ z, v = js_int z ∧ (1 ≤ z ≤ u32_max)%Z.
Proof.
  destruct o as [[| | |q]|]; try done.
  - intros [= <-]. exists u32_max. split; [done | unfold u32_max; lia].
  - rewrite sanitize_jsonRpcMaxPendingRequests_finite.
    destruct (Z.leb_spec (Qfloor q) 0); [done|]. intros [= <-].
    exists (Z.min (Qfloor q) u32_max). split; [done | unfold u32_max; lia].
  - intros [= <-]. exists u32_max. split; [done | unfold u32_max; lia].
Qed.

Lemma sanitize_jsonRpcMaxSubscriptions_range (o : option JsNumber) (v : JsNumber) :
  sanitize_jsonRpcMaxSubscriptions o = Normal v →
  ∃ z, v = js_int z ∧ (0 ≤ z ≤ u32_max)%Z.
Proof.
  destruct o as [[| | |q]|]; try done.
  - intros [= <-]. exists u32_max. split; [done | unfold u32_max; lia].
  - rewrite sanitize_jsonRpcMaxSubscriptions_finite.
    destruct (Z.ltb_spec (Qfloor q) 0); [done|]. intros [= <-].
    exists (Z.min (Qfloor q) u32_max). split; [done | unfold u32_max; lia].
  - intros [= <-]. exists u32_max. split; [done | unfold u32_max; lia].
Qed.

(** ** Insertion-ordered maps *)

Section JsMapFacts.
Context {V : Type}.
Implicit Types (m : list (nat * V)) (k : nat) (v : V).

Lemma JsMap_has_get k m : JsMap.has k m = bool_decide (is_Some (JsMap.get k m)).
Proof.
  unfold JsMap.has. destruct (JsMap.get k m); symmetry.
  - apply bool_decide_eq_true. eauto.
  - apply bool_decide_eq_false. by intros [? ?].
Qed.

Lemma JsMap_get_set_eq k v m : JsMap.get k (JsMap.set k v m) = Some v.
Proof.
  induction m as [|[k' v'] m IH]; simpl.
  - by rewrite decide_True.
  - destruct (decide (k = k')); simpl.
    + by rewrite decide_True.
    + by rewrite decide_False.
Qed.

Lemma JsMap_get_set_ne k k' v m :
  k ≠ k' → JsMap.get k' (JsMap.set k v m) = JsMap.get k' m.
Proof.
  intros Hne. induction m as [|[k0 v0] m IH]; simpl.
  - by rewrite decide_False.
  - destruct (decide (k = k0)) as [->|]; simpl.
    + by rewrite !decide_False.
    + by rewrite IH.
Qed.

Lemma JsMap_get_delete_eq k m : JsMap.get k (JsMap.delete k m) = None.
Proof.
  induction m as [|[k' v'] m IH]; simpl; [done|].
  destruct (decide (k = k')); simpl; [done|]. by rewrite decide_False.
Qed.

Lemma JsMap_get_delete_ne k k' m :
  k ≠ k' → JsMap.get k' (JsMap.delete k m) = JsMap.get k' m.
Proof.
  intros Hne. induction m as [|[k0 v0] m IH]; simpl; [done|].
  destruct (decide (k = k0)) as [->|]; simpl.
  - by rewrite decide_False.
  - by rewrite IH.
Qed.

Lemma JsMap_get_elem_of k v m : JsMap.get k m = Some v → (k, v) ∈ m.
Proof.
  induction m as [|[k' v'] m IH]; simpl; [done|].
  destruct (decide (k = k')) as [->|].
  - intros [= ->]. left.
  - intros. right. auto.
Qed.

Lemma JsMap_get_None k m : JsMap.get k m = None ↔ k ∉ m.*1.
Proof.
  induction m as [|[k' v'] m IH]; simpl.
  - split; [intros _; apply not_elem_of_nil | done].
  - rewrite not_elem_of_cons. destruct (decide (k = k')); [|tauto].
    split; [done | tauto].
Qed.

Lemma JsMap_set_keys k v m :
  (JsMap.set k v m).*1 = if JsMap.has k m then m.*1 else m.*1 ++ [k].
Proof.
  unfold JsMap.has. induction m as [|[k' v'] m IH]; csimpl; [done|].
  destruct (decide (k = k')) as [->|]; csimpl; [done|].
  rewrite IH. by destruct (JsMap.get k m).
Qed.

Lemma JsMap_set_keys_NoDup k v m : NoDup m.*1 → NoDup (JsMap.set k v m).*1.
Proof.
  intros Hm. rewrite JsMap_set_keys. unfold JsMap.has.
  destruct (JsMap.get k m) eqn:E; [done|].
  apply NoDup_app. split_and!; [done| |apply NoDup_singleton].
  intros x Hx ->%list_elem_of_singleton. by apply JsMap_get_None in E.
Qed.

Lemma JsMap_delete_sublist k m : JsMap.delete k m `sublist_of` m.
Proof.
  induction m as [|[k' v'] m IH]; simpl; [done|].
  destruct (decide (k = k')); by constructor.
Qed.

Lemma JsMap_delete_keys_NoDup k m : NoDup m.*1 → NoDup (JsMap.delete k m).*1.
Proof.
  intros Hm. eapply sublist_NoDup; [done|]. apply fmap_sublist, JsMap_delete_sublist.
Qed.

Lemma JsMap_set_Forall (P : nat * V → Prop) k v m :
  P (k, v) → Forall P m → Forall P (JsMap.set k v m).
Proof.
  intros Hk. induction 1 as [|[k' v'] m ? ? IH]; simpl.
  - by constructor.
  - destruct (decide (k = k')); by constructor.
Qed.

Lemma JsMap_delete_Forall (P : nat * V → Prop) k m :
  Forall P m → Forall P (JsMap.delete k m).
Proof.
  induction 1 as [|[k' v'] m ? ? IH]; simpl; [done|].
  destruct (decide (k = k')); [done | by constructor].
Qed.

Lemma JsMap_get_Forall (P : nat * V → Prop) k v m :
  Forall P m → JsMap.get k m = Some v → P (k, v).
Proof.
  intros Hm Hg. eapply Forall_forall in Hm; [done|]. by apply JsMap_get_elem_of.
Qed.
End JsMapFacts.

(** ** Promises and microtasks *)

(** Reading a field of an updated world. *)
Ltac proj :=
  cbn [state runtime env
       instance chainIds connections addChainResults onExecutorShutdownOrWasmPanic chains
       promises nextPromise whenReady microtasks chainObjects nextChainObject settled
       engineLog responses platformLog nextConnection
       upd_state upd_runtime upd_env
       set_instance set_chainIds set_connections set_addChainResults
       set_onExecutorShutdownOrWasmPanic set_chains
       set_promises set_nextPromise set_whenReady set_microtasks set_chainObjects
       set_nextChainObject set_settled
       set_engineLog set_responses set_platformLog set_nextConnection
       settle issue platform newPromise connect returnRejected fst snd] in *.

Lemma set_promises_microtasks_id (w : World) :
  set_microtasks (microtasks (runtime w)) (set_promises (promises (runtime w)) w) = w.
Proof. by destruct w as [? [] ?]. Qed.

Lemma resolvePromise_eq (p : PromiseId) (v : Payload) (w : World) :
  resolvePromise p v w
  = set_microtasks (microtasks (runtime w) ++ woken v (promises (runtime w)) [p])
      (set_promises (delete p (promises (runtime w))) w).
Proof.
  unfold resolvePromise. simpl. destruct (promises (runtime w) !! p) eqn:E; simpl.
  - done.
  - rewrite ?app_nil_r, delete_id by done. by rewrite set_promises_microtasks_id.
Qed.

Lemma resolveAll_eq (v : Payload) (l : list PromiseId) (w : World) :
  foldl (λ w p, resolvePromise p v w) w l
  = set_microtasks (microtasks (runtime w) ++ woken v (promises (runtime w)) l)
      (set_promises (deleteAll l (promises (runtime w))) w).
Proof.
  revert w. induction l as [|p l IH]; intros w; simpl.
  - by rewrite app_nil_r, set_promises_microtasks_id.
  - rewrite IH, resolvePromise_eq. simpl. by rewrite app_nil_r, <- app_assoc.
Qed.

Lemma wakeAll_eq (l : list PromiseId) (w : World) :
  wakeAll l w
  = set_microtasks (microtasks (runtime w) ++ woken PVoid (promises (runtime w)) l)
      (set_promises (deleteAll l (promises (runtime w))) w).
Proof. apply resolveAll_eq. Qed.

Lemma deleteAll_app (l1 l2 : list PromiseId) (m : gmap PromiseId Cont) :
  deleteAll (l1 ++ l2) m = deleteAll l2 (deleteAll l1 m).
Proof. apply foldl_app. Qed.

Lemma lookup_deleteAll (l : list PromiseId) (m : gmap PromiseId Cont) (q : PromiseId) :
  deleteAll l m !! q = if decide (q ∈ l) then None else m !! q.
Proof.
  revert m. induction l as [|p l IH]; intros m.
  - by destruct (decide (q ∈ [])) as [H%elem_of_nil|].
  - change (deleteAll (p :: l) m) with (deleteAll l (delete p m)). rewrite IH.
    destruct (decide (q ∈ l)), (decide (q ∈ p :: l)) as [H|H]; try done.
    + exfalso. apply H. by right.
    + apply elem_of_cons in H as [->|?]; [apply lookup_delete_eq | done].
    + apply lookup_delete_ne. intros ->. apply H. left.
Qed.

Lemma lookup_deleteAll_notin (l : list PromiseId) (m : gmap PromiseId Cont) (q : PromiseId) :
  q ∉ l → deleteAll l m !! q = m !! q.
Proof. intros. by rewrite lookup_deleteAll, decide_False. Qed.

Lemma lookup_deleteAll_Some (l : list PromiseId) (m : gmap PromiseId Cont) q k :
  deleteAll l m !! q = Some k → m !! q = Some k.
Proof. rewrite lookup_deleteAll. by destruct (decide (q ∈ l)). Qed.

Lemma woken_app (v : Payload) (m : gmap PromiseId Cont) (l1 l2 : list PromiseId) :
  woken v m (l1 ++ l2) = woken v m l1 ++ woken v (deleteAll l1 m) l2.
Proof.
  revert m. induction l1 as [|p l1 IH]; intros m; simpl; [done|].
  by rewrite IH, app_assoc.
Qed.

(** Distinct pending promises are all woken, in the order of the list. *)
Lemma woken_pending (v : Payload) (m : gmap PromiseId Cont) (l : list PromiseId)
    (ks : list Cont) :
  NoDup l → Forall2 (λ p k, m !! p = Some k) l ks →
  woken v m l = (λ k, (k, v)) <$> ks.
Proof.
  intros Hnd Hl. revert m Hl. revert ks.
  induction Hnd as [|p l Hp Hnd IH]; intros ks m Hl.
  - by inversion Hl.
  - inversion Hl as [|? k ? ks' Hk Hl']; subst. simpl. rewrite Hk. simpl. f_equal.
    apply IH.
    clear -Hl' Hp. induction Hl' as [|q k' l ks' Hq Hl' IH']; constructor.
    + rewrite lookup_delete_ne; [done|]. intros ->. apply Hp. left.
    + apply IH'. intros Hin. apply Hp. by right.
Qed.

Lemma wakeAll_concat (ls : list (list PromiseId)) (w : World) :
  foldl (λ w callbacks, wakeAll callbacks w) w ls = wakeAll (concat ls) w.
Proof.
  revert w. induction ls as [|l ls IH]; intros w; simpl; [done|].
  rewrite IH. unfold wakeAll. by rewrite foldl_app.
Qed.

Lemma resetConnections_eq (w : World) :
  resetConnections w
  = set_connections []
      (set_platformLog
         (platformLog (env w)
          ++ ((λ connec, PlatReset connec None) <$> JsMap.values (connections (state w)))) w).
Proof.
  unfold resetConnections. f_equal. generalize (JsMap.values (connections (state w))).
  intros l. revert w. induction l as [|c l IH]; intros w; simpl.
  - rewrite app_nil_r. by destruct w as [? ? []].
  - rewrite IH. proj. by rewrite <- app_assoc.
Qed.

Lemma failAddChainResults_eq (error : string) (w : World) :
  failAddChainResults error w
  = set_addChainResults []
      (set_microtasks
         (microtasks (runtime w)
          ++ woken (POutcome (Failure error)) (promises (runtime w)) (addChainResults (state w)))
         (set_promises (deleteAll (addChainResults (state w)) (promises (runtime w))) w)).
Proof. unfold failAddChainResults. by rewrite resolveAll_eq. Qed.

Lemma wakeChains_eq (w : World) :
  wakeChains w
  = set_chains []
      (set_microtasks
         (microtasks (runtime w)
          ++ woken PVoid (promises (runtime w)) (concat (JsMap.values (chains (state w)))))
         (set_promises
            (deleteAll (concat (JsMap.values (chains (state w)))) (promises (runtime w))) w)).
Proof. unfold wakeChains. by rewrite wakeAll_concat, wakeAll_eq. Qed.

Lemma callShutdownOrPanic_eq (w : World) :
  callShutdownOrPanic w
  = set_onExecutorShutdownOrWasmPanic None
      (set_microtasks
         (microtasks (runtime w)
          ++ woken PVoid (promises (runtime w))
               (option_list (onExecutorShutdownOrWasmPanic (state w))))
         (set_promises
            (deleteAll (option_list (onExecutorShutdownOrWasmPanic (state w)))
               (promises (runtime w))) w)).
Proof.
  unfold callShutdownOrPanic.
  destruct (onExecutorShutdownOrWasmPanic (state w)) as [p|]; simpl.
  - by rewrite resolvePromise_eq.
  - rewrite app_nil_r. by destruct w as [? [] ?].
Qed.
(** ** The invariant *)

Lemma deleteAll_empty (l : list PromiseId) : deleteAll l ∅ = ∅.
Proof. apply map_eq. intros q. rewrite lookup_deleteAll. by destruct (decide (q ∈ l)). Qed.

Lemma woken_empty (v : Payload) (l : list PromiseId) : woken v ∅ l = [].
Proof.
  induction l as [|p l IH]; simpl; [done|].
  by rewrite lookup_empty, delete_empty, IH.
Qed.

Lemma pend_empty (P : Cont → Prop) (q : PromiseId) : ¬ pend ∅ P q.
Proof. by intros (k & Hk & _). Qed.

Lemma pend_deleteAll (m : gmap PromiseId Cont) (P : Cont → Prop) l q :
  q ∉ l → pend m P q → pend (deleteAll l m) P q.
Proof. intros Hq (k & Hk & HP). exists k. by rewrite lookup_deleteAll_notin. Qed.

Lemma pend_insert (m : gmap PromiseId Cont) (P : Cont → Prop) p k q :
  m !! p = None → pend m P q → pend (<[p := k]> m) P q.
Proof.
  intros Hp (k' & Hk & HP). exists k'. split; [|done].
  rewrite lookup_insert_ne; [done|]. intros ->. congruence.
Qed.

(** Promises awaited by blocks of different kinds are different promises. *)
Lemma pend_disjoint (m : gmap PromiseId Cont) (P P' : Cont → Prop) q l :
  (∀ k, P k → P' k → False) → pend m P q → Forall (pend m P') l → q ∉ l.
Proof.
  intros Hd (k & Hk & HP) Hl Hin.
  eapply Forall_forall in Hl as (k' & Hk' & HP'); [|done].
  rewrite Hk in Hk'. injection Hk' as <-. eauto.
Qed.

Lemma kind_outcome_waiter c k : kind_outcome k → kind_waiter c k → False.
Proof. by destruct k. Qed.
Lemma kind_outcome_shutdown k : kind_outcome k → kind_shutdown k → False.
Proof. by destruct k. Qed.
Lemma kind_waiter_shutdown c k : kind_waiter c k → kind_shutdown k → False.
Proof. by destruct k. Qed.
Lemma kind_waiter_waiter c c' k : c ≠ c' → kind_waiter c k → kind_waiter c' k → False.
Proof. destruct k; simpl; congruence. Qed.

Lemma chains_ok_mono (m m' : gmap PromiseId Cont) chs :
  (∀ c q, pend m (kind_waiter c) q → pend m' (kind_waiter c) q) →
  chains_ok m chs → chains_ok m' chs.
Proof.
  intros Hm Hc. unfold chains_ok. eapply Forall_impl; [exact Hc|].
  intros e [? He]. split; [done|].
  eapply Forall_impl; [exact He|]. intros q. apply Hm.
Qed.

Lemma chains_ok_all (m : gmap PromiseId Cont) chs :
  chains_ok m chs →
  Forall (λ q, ∃ c, pend m (kind_waiter c) q) (concat (JsMap.values chs)).
Proof.
  induction 1 as [|[c l] chs [_ Hl] _ IH]; csimpl; [constructor|].
  apply Forall_app. split; [|done].
  eapply Forall_impl; [exact Hl|]. intros q Hq. by exists c.
Qed.

Lemma Inv_fresh_None (w : World) :
  Inv w → promises (runtime w) !! nextPromise (runtime w) = None.
Proof.
  intros HI. destruct (promises (runtime w) !! nextPromise (runtime w)) eqn:E; [|done].
  assert (nextPromise (runtime w) < nextPromise (runtime w)); [|lia].
  apply (inv_fresh w HI). eauto.
Qed.

Lemma Inv_pend_lt (w : World) (P : Cont → Prop) q :
  Inv w → pend (promises (runtime w)) P q → q < nextPromise (runtime w).
Proof. intros HI (k & Hk & _). apply (inv_fresh w HI). eauto. Qed.

(** Worlds that agree on what the invariant reads. *)
Lemma Inv_ext (w w' : World) :
  state w' = state w →
  promises (runtime w') = promises (runtime w) →
  nextPromise (runtime w') = nextPromise (runtime w) →
  whenReady (runtime w') = whenReady (runtime w) →
  microtasks (runtime w') = microtasks (runtime w) →
  chainObjects (runtime w') = chainObjects (runtime w) →
  Inv w → Inv w'.
Proof.
  intros Hs Hp Hn Hw Hm Hc [? ? ? ? ? ? ? ? ?].
  constructor; rewrite ?Hs, ?Hp, ?Hn, ?Hw, ?Hm, ?Hc; done.
Qed.

Lemma Inv_settle (c : Call) (r : Result) (w : World) : Inv w → Inv (settle c r w).
Proof. by apply Inv_ext. Qed.

Lemma Inv_issue (c : Command) (w : World) : Inv w → Inv (issue c w).
Proof. by apply Inv_ext. Qed.

Lemma Inv_platform (c : PlatformCall) (w : World) : Inv w → Inv (platform c w).
Proof. by apply Inv_ext. Qed.

Lemma Inv_start : Inv start.
Proof.
  constructor; simpl; try done; try by constructor.
  - intros l [= <-]. constructor.
  - intros p [k Hk]. by rewrite lookup_empty in Hk.
Qed.

(** Resolving the promises [rs] and forgetting their resolvers. *)
Lemma Inv_resolved (rs : list PromiseId) (w w' : World) :
  Inv w →
  promises (runtime w') = deleteAll rs (promises (runtime w)) →
  nextPromise (runtime w') = nextPromise (runtime w) →
  whenReady (runtime w') = whenReady (runtime w) →
  chainObjects (runtime w') = chainObjects (runtime w) →
  instance (state w') ≠ NotCreated →
  (instance (state w') = NotReady →
   instance (state w) = NotReady ∧
   (promises (runtime w) = ∅ → microtasks (runtime w') = microtasks (runtime w))) →
  NoDup (addChainResults (state w')) →
  Forall (λ q, (q ∉ rs) ∧ pend (promises (runtime w)) kind_outcome q)
    (addChainResults (state w')) →
  NoDup (chains (state w')).*1 →
  Forall (λ e, NoDup e.2 ∧
               Forall (λ q, (q ∉ rs) ∧ pend (promises (runtime w)) (kind_waiter e.1) q) e.2)
    (chains (state w')) →
  (∀ p, onExecutorShutdownOrWasmPanic (state w') = Some p →
        (p ∉ rs) ∧ pend (promises (runtime w)) kind_shutdown p) →
  Inv w'.
Proof.
  intros HI Hp Hn Hw Hc Hcr Hnr Hl1 Hl2 Hk1 Hk2 Hcb.
  constructor; rewrite ?Hp, ?Hn, ?Hw, ?Hc; try done.
  - intros Hst. destruct (Hnr Hst) as [Hst' Hmt].
    destruct (inv_not_ready w HI Hst') as (Hpe & Hoe & Hm).
    rewrite Hpe, deleteAll_empty, Hmt by done. done.
  - apply (inv_reactions w HI).
  - eapply Forall_impl; [exact Hl2|]. intros q [? ?]. by apply pend_deleteAll.
  - unfold chains_ok. eapply Forall_impl; [exact Hk2|]. intros e [? He]. split; [done|].
    eapply Forall_impl; [exact He|]. intros q [? ?]. by apply pend_deleteAll.
  - intros p Hp'. destruct (Hcb p Hp'). by apply pend_deleteAll.
  - intros p [k Hk]. apply (inv_fresh w HI). exists k. by eapply lookup_deleteAll_Some.
Qed.

Lemma Inv_next_notin (w : World) (P : Cont → Prop) (l : list PromiseId) :
  Inv w → Forall (pend (promises (runtime w)) P) l → nextPromise (runtime w) ∉ l.
Proof.
  intros HI Hl Hin. eapply Forall_forall in Hl; [|done].
  apply (Inv_pend_lt w P _ HI) in Hl. lia.
Qed.

(** Creating a promise awaited by [K] and storing its resolver. *)
Lemma Inv_newPromise (K : Cont) (w w' : World) :
  Inv w →
  instance (state w') = Ready →
  promises (runtime w') = <[nextPromise (runtime w) := K]> (promises (runtime w)) →
  nextPromise (runtime w') = S (nextPromise (runtime w)) →
  whenReady (runtime w') = whenReady (runtime w) →
  NoDup (addChainResults (state w')) →
  Forall (λ q, (q = nextPromise (runtime w) ∧ kind_outcome K)
               ∨ pend (promises (runtime w)) kind_outcome q)
    (addChainResults (state w')) →
  NoDup (chains (state w')).*1 →
  Forall (λ e, NoDup e.2 ∧
               Forall (λ q, (q = nextPromise (runtime w) ∧ kind_waiter e.1 K)
                            ∨ pend (promises (runtime w)) (kind_waiter e.1) q) e.2)
    (chains (state w')) →
  (∀ q, onExecutorShutdownOrWasmPanic (state w') = Some q →
        (q = nextPromise (runtime w) ∧ kind_shutdown K)
        ∨ pend (promises (runtime w)) kind_shutdown q) →
  Inv w'.
Proof.
  intros HI Hst Hp Hn Hw Hl1 Hl2 Hk1 Hk2 Hcb.
  pose proof (Inv_fresh_None w HI) as Hfresh.
  assert (∀ P q, (q = nextPromise (runtime w) ∧ P K) ∨ pend (promises (runtime w)) P q →
                 pend (<[nextPromise (runtime w) := K]> (promises (runtime w))) P q) as Hpend.
  { intros P q [[-> HK]|Hq]; [|by apply pend_insert].
    exists K. by rewrite lookup_insert_eq. }
  constructor; rewrite ?Hst, ?Hp, ?Hn, ?Hw; try done.
  - apply (inv_reactions w HI).
  - eapply Forall_impl; [exact Hl2|]. intros q. apply Hpend.
  - unfold chains_ok. eapply Forall_impl; [exact Hk2|]. intros e [? He]. split; [done|].
    eapply Forall_impl; [exact He|]. intros q. apply Hpend.
  - intros q Hq. apply Hpend. by apply Hcb.
  - intros p [k Hk]. destruct (decide (p = nextPromise (runtime w))) as [->|Hne]; [lia|].
    rewrite lookup_insert_ne in Hk by done.
    assert (p < nextPromise (runtime w)); [|lia]. apply (inv_fresh w HI). eauto.
Qed.

Lemma Inv_awaitWhenReady (k : Cont) (w : World) :
  kind_ready k → Inv w → Inv (awaitWhenReady k w).
Proof.
  intros Hk HI. unfold awaitWhenReady.
  destruct (whenReady (runtime w)) as [l| |e] eqn:E.
  - destruct HI as [? ? Hr ? ? ? ? ? ?]. constructor; proj; try done.
    intros l' [= <-]. apply Forall_app. split; [by apply Hr | by repeat constructor].
  - destruct HI as [? Hnr Hr ? ? ? ? ? ?]. constructor; proj; try done.
    intros Hst. destruct (Hnr Hst) as (? & ? & ?). split_and!; try done.
    apply Forall_app. split; [done | by repeat constructor].
  - destruct HI as [? Hnr Hr ? ? ? ? ? ?]. constructor; proj; try done.
    intros Hst. destruct (Hnr Hst) as (? & ? & ?). split_and!; try done.
    apply Forall_app. split; [done | by repeat constructor].
Qed.

Lemma Inv_addChainAfterReady (id : nat) (o : AddChainOptions) (w : World) :
  Inv w → Inv (addChainAfterReady id o w).
Proof.
  intros HI. unfold addChainAfterReady.
  destruct (instance (state w)) eqn:Hst; try by apply Inv_settle.
  destruct (negb _); [by apply Inv_settle|].
  destruct (sanitize_jsonRpcMaxPendingRequests _); [|by apply Inv_settle].
  destruct (sanitize_jsonRpcMaxSubscriptions _); [|by apply Inv_settle].
  destruct (databaseContent_invalid _); [by apply Inv_settle|].
  eapply (Inv_newPromise (KAddChainOutcome id o) w); proj; try done.
  - apply NoDup_app. split_and!; [apply (inv_ledger_nodup w HI) | | apply NoDup_singleton].
    intros q Hq ->%list_elem_of_singleton. revert Hq.
    apply (Inv_next_notin w kind_outcome); [done | apply (inv_ledger w HI)].
  - apply Forall_app. split.
    + eapply Forall_impl; [apply (inv_ledger w HI)|]. auto.
    + repeat constructor.
  - apply (inv_chains_keys w HI).
  - eapply Forall_impl; [apply (inv_chains w HI)|]. intros e [? He]. split; [done|].
    eapply Forall_impl; [exact He|]. auto.
  - intros q Hq. right. by apply (inv_cb w HI).
Qed.

Lemma Inv_terminateAfterReady (id : nat) (w : World) :
  Inv w → Inv (terminateAfterReady id w).
Proof.
  intros HI. unfold terminateAfterReady.
  destruct (instance (state w)) eqn:Hst; try by apply Inv_settle.
  eapply (Inv_newPromise (KTerminateShutdown id) w); proj; try done.
  - apply (inv_ledger_nodup w HI).
  - eapply Forall_impl; [apply (inv_ledger w HI)|]. auto.
  - apply (inv_chains_keys w HI).
  - eapply Forall_impl; [apply (inv_chains w HI)|]. intros e [? He]. split; [done|].
    eapply Forall_impl; [exact He|]. auto.
  - intros q [= <-]. by left.
Qed.

Lemma JsMap_set_Forall_ne {V : Type} (P : nat * V → Prop) (k : nat) (v : V)
    (m : list (nat * V)) :
  NoDup m.*1 → P (k, v) → Forall (λ e, e.1 ≠ k → P e) m → Forall P (JsMap.set k v m).
Proof.
  intros Hnd Hk Hm. induction Hm as [|[k' v'] m He Hm IH]; simpl.
  - by constructor.
  - csimpl in Hnd. apply NoDup_cons in Hnd as [Hk' Hnd].
    destruct (decide (k = k')) as [->|Hne]; constructor; try done.
    + apply Forall_forall. intros e Hin. eapply Forall_forall in Hm; [|done].
      apply Hm. intros Heq. apply Hk'. rewrite <- Heq. by apply list_elem_of_fmap_2.
    + apply He. simpl. congruence.
    + by apply IH.
Qed.

Lemma JsMap_delete_Forall_ne {V : Type} (P : nat * V → Prop) (k : nat)
    (m : list (nat * V)) :
  Forall (λ e, e.1 ≠ k → P e) m → Forall P (JsMap.delete k m).
Proof.
  induction 1 as [|[k' v'] m He Hm IH]; simpl; [done|].
  destruct (decide (k = k')) as [->|Hne]; [done|].
  constructor; [|done]. apply He. simpl. congruence.
Qed.

(** With distinct keys, the entry found by [get] is the only one of its key. *)
Lemma JsMap_elem_of_get {V : Type} (k : nat) (v : V) (m : list (nat * V)) :
  NoDup m.*1 → (k, v) ∈ m → JsMap.get k m = Some v.
Proof.
  induction m as [|[k' v'] m IH]; csimpl; [by intros _ ?%elem_of_nil|].
  intros [Hk' Hnd]%NoDup_cons [[= -> ->]|Hin]%elem_of_cons.
  - by rewrite decide_True.
  - rewrite decide_False; [by apply IH|].
    intros ->. apply Hk'. by apply (list_elem_of_fmap_2 fst _ (k', v)).
Qed.

(** The waiters of a chain are not waiters of another chain. *)
Lemma waiters_disjoint (m : gmap PromiseId Cont) (c c' : nat) (l : list PromiseId) q :
  c' ≠ c → Forall (pend m (kind_waiter c)) l → pend m (kind_waiter c') q → q ∉ l.
Proof.
  intros Hne Hl Hq. eapply pend_disjoint; [|exact Hq|exact Hl].
  intros k. by apply kind_waiter_waiter.
Qed.

Lemma Inv_waitForResponse (id chainId : nat) (d : bool) (w : World) :
  instance (state w) = Ready → Inv w → Inv (waitForResponse id chainId d w).
Proof.
  intros Hst HI. unfold waitForResponse.
  destruct (JsMap.get chainId (chains (state w))) as [callbacks|] eqn:Hg;
    [|by apply Inv_settle].
  pose proof (JsMap_get_Forall _ _ _ _ (inv_chains w HI) Hg) as [Hnd Hcb]. simpl in *.
  eapply (Inv_newPromise (KNextJsonRpcResponse id chainId d) w); proj; try done.
  - apply (inv_ledger_nodup w HI).
  - eapply Forall_impl; [apply (inv_ledger w HI)|]. auto.
  - apply JsMap_set_keys_NoDup, (inv_chains_keys w HI).
  - apply JsMap_set_Forall.
    + simpl. split.
      * apply NoDup_app. split_and!; [done| |apply NoDup_singleton].
        intros q Hq ->%list_elem_of_singleton. revert Hq.
        by apply (Inv_next_notin w (kind_waiter chainId)).
      * apply Forall_app. split; [|by repeat constructor].
        eapply Forall_impl; [exact Hcb|]. auto.
    + eapply Forall_impl; [apply (inv_chains w HI)|]. intros e [? He]. split; [done|].
      eapply Forall_impl; [exact He|]. auto.
  - intros q Hq. right. by apply (inv_cb w HI).
Qed.

Lemma Inv_queueJsonRpcResponse (chainId : nat) (m : string) (w : World) :
  Inv w → Inv (queueJsonRpcResponse chainId m w).
Proof. by apply Inv_ext. Qed.

Lemma peekJsonRpcResponse_frame (chainId : nat) (w : World) :
  state (peekJsonRpcResponse chainId w).2 = state w ∧
  runtime (peekJsonRpcResponse chainId w).2 = runtime w.
Proof.
  unfold peekJsonRpcResponse. by destruct (responses (env w) !! chainId) as [[|? ?]|].
Qed.

Lemma Inv_peekJsonRpcResponse (chainId : nat) (w : World) :
  Inv w → Inv (peekJsonRpcResponse chainId w).2.
Proof.
  destruct (peekJsonRpcResponse_frame chainId w) as [Hs Hr].
  apply Inv_ext; by rewrite ?Hs, ?Hr.
Qed.

(** A job is queued while the instance is not starting. *)
Lemma Inv_queue_job (t : Cont * Payload) (w : World) :
  instance (state w) ≠ NotReady → Inv w →
  Inv (set_microtasks (microtasks (runtime w) ++ [t]) w).
Proof. intros Hst [? ? ? ? ? ? ? ? ?]. by constructor. Qed.

Lemma Inv_nextJsonRpcResponse (id chainId : nat) (d : bool) (w : World) :
  instance (state w) ≠ NotReady → Inv w → Inv (nextJsonRpcResponse id chainId d w).
Proof.
  intros Hnr HI. unfold nextJsonRpcResponse.
  destruct (negb _); [by apply Inv_settle|].
  destruct d; [by apply Inv_queue_job|].
  destruct (instance (state w)) eqn:Hst; try by apply Inv_settle.
  pose proof (Inv_peekJsonRpcResponse chainId w HI) as HI'.
  destruct (peekJsonRpcResponse_frame chainId w) as [Hs Hr].
  destruct (peekJsonRpcResponse chainId w) as [[m|] w']; simpl in *.
  - destruct (negb _); [by apply Inv_settle|].
    apply Inv_waitForResponse; [by rewrite Hs | done].
  - apply Inv_waitForResponse; [by rewrite Hs | done].
Qed.

Lemma Inv_addChainAfterOutcome (id : nat) (o : AddChainOptions) (v : Payload) (w : World) :
  instance (state w) ≠ NotReady → Inv w → Inv (addChainAfterOutcome id o v w).
Proof.
  intros Hst HI. unfold addChainAfterOutcome.
  destruct v as [|[chainId|error]|e]; try by apply Inv_settle.
  apply Inv_settle. destruct HI as [? ? ? ? ? Hk Hc ? ?]. constructor; proj; try done.
  - by apply JsMap_set_keys_NoDup.
  - apply JsMap_set_Forall; [|done]. simpl. split; constructor.
Qed.

(** The events *)

Lemma eventCallback_WasmPanic (message : string) (currentTask : option string) (w : World) :
  (eventCallback (WasmPanic message currentTask) w).1
  = callShutdownOrPanic
      (wakeChains
         (failAddChainResults "Smoldot has crashed"
            (resetConnections (set_instance (Destroyed (CrashError message)) w)))).
Proof. done. Qed.

(** The promises resolved by a crash or by the end of [terminate]. *)
Lemma deleteAll_nested (l1 l2 l3 : list PromiseId) (m : gmap PromiseId Cont) :
  deleteAll l3 (deleteAll l2 (deleteAll l1 m)) = deleteAll (l1 ++ l2 ++ l3) m.
Proof. by rewrite !deleteAll_app. Qed.

Lemma Inv_WasmPanic (message : string) (currentTask : option string) (w : World) :
  Inv w → Inv (eventCallback (WasmPanic message currentTask) w).1.
Proof.
  intros HI. rewrite eventCallback_WasmPanic.
  rewrite callShutdownOrPanic_eq, wakeChains_eq, failAddChainResults_eq, resetConnections_eq.
  proj.
  eapply (Inv_resolved
            (addChainResults (state w) ++ concat (JsMap.values (chains (state w)))
             ++ option_list (onExecutorShutdownOrWasmPanic (state w))) w);
    proj; try done; try by constructor.
  apply deleteAll_nested.
Qed.

Lemma Inv_terminateAfterShutdown (id : nat) (w : World) :
  instance (state w) ≠ NotReady → Inv w → Inv (terminateAfterShutdown id w).
Proof.
  intros Hst HI. unfold terminateAfterShutdown. apply Inv_settle.
  rewrite wakeChains_eq, failAddChainResults_eq, resetConnections_eq.
  pose proof (chains_ok_all _ _ (inv_chains w HI)) as Hw.
  assert (∀ p, onExecutorShutdownOrWasmPanic (state w) = Some p →
            (p ∉ addChainResults (state w) ++ concat (JsMap.values (chains (state w))))
            ∧ pend (promises (runtime w)) kind_shutdown p) as Hcb.
  { intros p Hp. pose proof (inv_cb w HI p Hp) as Hpe. split; [|done].
    rewrite not_elem_of_app. split.
    - eapply pend_disjoint; [|exact Hpe|apply (inv_ledger w HI)].
      intros k ? ?. by eapply kind_outcome_shutdown.
    - intros Hin. eapply Forall_forall in Hw as (c & k & Hk & Hkw); [|done].
      destruct Hpe as (k' & Hk' & Hks). rewrite Hk in Hk'. injection Hk' as <-.
      by eapply kind_waiter_shutdown. }
  destruct (instance (state w)) eqn:E; proj;
    (eapply (Inv_resolved
               (addChainResults (state w) ++ concat (JsMap.values (chains (state w)))) w);
     proj; rewrite ?E; try done; try (by constructor); try (by rewrite deleteAll_app)).
  all: by (intros ?; exfalso; apply (inv_created w HI)).
Qed.

(** In a world whose instance is still being created nothing is pending. *)
Lemma Inv_not_ready_pend (w : World) (P : Cont → Prop) (l : list PromiseId) :
  Inv w → instance (state w) = NotReady → Forall (pend (promises (runtime w)) P) l → l = [].
Proof.
  intros HI Hst Hl. destruct (inv_not_ready w HI Hst) as (Hp & _).
  destruct Hl as [|q l Hq _]; [done|]. rewrite Hp in Hq. by apply pend_empty in Hq.
Qed.

Lemma Inv_AddChainResult (outcome : AddChainOutcome) (w : World) :
  Inv w → Inv (eventCallback (AddChainResult outcome) w).1.
Proof.
  intros HI. simpl.
  destruct (addChainResults (state w)) as [|r rest] eqn:Hl; [done|]. simpl.
  rewrite resolvePromise_eq. proj.
  pose proof (inv_ledger_nodup w HI) as Hnd. pose proof (inv_ledger w HI) as Hpe.
  rewrite Hl in Hnd, Hpe. apply NoDup_cons in Hnd as [Hr Hnd].
  apply Forall_cons in Hpe as [Hpr Hpe].
  eapply (Inv_resolved [r] w); proj; try done.
  - apply (inv_created w HI).
  - intros Hst. exfalso.
    by pose proof (Inv_not_ready_pend w kind_outcome _ HI Hst (inv_ledger w HI)) as Hn;
      rewrite Hl in Hn.
  - apply Forall_forall. intros q Hq. split.
    + intros ->%list_elem_of_singleton. done.
    + eapply Forall_forall in Hpe; done.
  - apply (inv_chains_keys w HI).
  - eapply Forall_impl; [apply (inv_chains w HI)|]. intros e [? He]. split; [done|].
    apply Forall_forall. intros q Hq. eapply Forall_forall in He; [|done]. split; [|done].
    eapply pend_disjoint; [|exact He|by constructor].
    intros k ? ?. by eapply kind_outcome_waiter.
  - intros p Hp. pose proof (inv_cb w HI p Hp) as Hpp. split; [|done].
    eapply pend_disjoint; [|exact Hpp|by constructor].
    intros k ? ?. by eapply kind_outcome_shutdown.
Qed.

Lemma Inv_ExecutorShutdown (w : World) : Inv w → Inv (eventCallback ExecutorShutdown w).1.
Proof.
  intros HI. simpl. rewrite callShutdownOrPanic_eq.
  assert (Forall (pend (promises (runtime w)) kind_shutdown)
            (option_list (onExecutorShutdownOrWasmPanic (state w)))) as Hcb.
  { destruct (onExecutorShutdownOrWasmPanic (state w)) as [p|] eqn:E; [|constructor].
    repeat constructor. by apply (inv_cb w HI). }
  eapply (Inv_resolved (option_list (onExecutorShutdownOrWasmPanic (state w))) w);
    proj; try done.
  - apply (inv_created w HI).
  - intros Hst. split; [done|]. intros Hp. rewrite Hp, woken_empty. apply app_nil_r.
  - apply (inv_ledger_nodup w HI).
  - apply Forall_forall. intros q Hq.
    pose proof (inv_ledger w HI) as Hl. eapply Forall_forall in Hl; [|done]. split; [|done].
    eapply pend_disjoint; [|exact Hl|exact Hcb]. apply kind_outcome_shutdown.
  - apply (inv_chains_keys w HI).
  - eapply Forall_impl; [apply (inv_chains w HI)|]. intros e [? He]. split; [done|].
    apply Forall_forall. intros q Hq. eapply Forall_forall in He; [|done]. split; [|done].
    eapply pend_disjoint; [|exact He|exact Hcb]. apply kind_waiter_shutdown.
Qed.

(** Waking the waiters [callbacks] of [chainId] and replacing or deleting its
    entry. *)
Lemma Inv_woken_chain (chainId : nat) (callbacks : list PromiseId) (w w' : World) :
  Inv w →
  JsMap.get chainId (chains (state w)) = Some callbacks →
  instance (state w') = instance (state w) →
  addChainResults (state w') = addChainResults (state w) →
  onExecutorShutdownOrWasmPanic (state w') = onExecutorShutdownOrWasmPanic (state w) →
  chains (state w') = JsMap.set chainId [] (chains (state w))
  ∨ chains (state w') = JsMap.delete chainId (chains (state w)) →
  runtime w' = runtime (wakeAll callbacks w) →
  Inv w'.
Proof.
  intros HI Hg Hi Hl Hcb Hch Hr.
  pose proof (JsMap_get_Forall _ _ _ _ (inv_chains w HI) Hg) as [Hnd Hpe]. simpl in *.
  rewrite wakeAll_eq in Hr. proj.
  set (P := λ e : nat * list PromiseId,
         NoDup e.2 ∧
         Forall (λ q, (q ∉ callbacks) ∧ pend (promises (runtime w)) (kind_waiter e.1) q) e.2).
  assert (Forall (λ e, e.1 ≠ chainId → P e) (chains (state w))) as Hothers.
  { eapply Forall_impl; [apply (inv_chains w HI)|]. intros e [? He] Hne. split; [done|].
    apply Forall_forall. intros q Hq. eapply Forall_forall in He; [|done]. split; [|done].
    by eapply waiters_disjoint. }
  eapply (Inv_resolved callbacks w); rewrite ?Hr, ?Hi, ?Hl, ?Hcb; proj; try done.
  - apply (inv_created w HI).
  - intros Hst. split; [done|]. intros Hp. rewrite Hp, woken_empty. apply app_nil_r.
  - apply (inv_ledger_nodup w HI).
  - apply Forall_forall. intros q Hq.
    pose proof (inv_ledger w HI) as Hl'. eapply Forall_forall in Hl'; [|done]. split; [|done].
    eapply pend_disjoint; [|exact Hl'|exact Hpe]. apply kind_outcome_waiter.
  - destruct Hch as [-> | ->].
    + apply JsMap_set_keys_NoDup, (inv_chains_keys w HI).
    + apply JsMap_delete_keys_NoDup, (inv_chains_keys w HI).
  - destruct Hch as [-> | ->].
    + apply JsMap_set_Forall_ne; [apply (inv_chains_keys w HI) | | done].
      split; constructor.
    + by apply JsMap_delete_Forall_ne.
  - intros p Hp. pose proof (inv_cb w HI p Hp) as Hpp. split; [|done].
    eapply pend_disjoint; [|exact Hpp|exact Hpe].
    intros k ? ?. by eapply kind_waiter_shutdown.
Qed.

Lemma Inv_JsonRpcResponsesNonEmpty (chainId : nat) (w : World) :
  Inv w → Inv (eventCallback (JsonRpcResponsesNonEmpty chainId) w).1.
Proof.
  intros HI. simpl.
  destruct (JsMap.get chainId (chains (state w))) as [callbacks|] eqn:Hg; [|done]. simpl.
  eapply (Inv_woken_chain chainId callbacks w); try done.
  - by rewrite wakeAll_eq.
  - by rewrite wakeAll_eq.
  - by rewrite wakeAll_eq.
  - left. by rewrite wakeAll_eq.
Qed.

Lemma withConnection_platform (connectionId : nat) (f : Connection → World → World)
    (w : World) :
  (∀ c w, Inv w → Inv (f c w)) → Inv w → Inv (withConnection connectionId f w).1.
Proof.
  intros Hf HI. unfold withConnection.
  destruct (JsMap.get connectionId (connections (state w))); simpl; auto.
Qed.

Lemma Inv_set_connections (m : list (nat * Connection)) (w : World) :
  Inv w → Inv (set_connections m w).
Proof. intros [? ? ? ? ? ? ? ? ?]. by constructor. Qed.

Lemma Inv_eventCallback (event : Event) (w : World) :
  Inv w → Inv (eventCallback event w).1.
Proof.
  intros HI. destruct event.
  - by apply Inv_WasmPanic.
  - by apply Inv_ExecutorShutdown.
  - by apply Inv_platform.
  - by apply Inv_AddChainResult.
  - by apply Inv_JsonRpcResponsesNonEmpty.
  - simpl. apply Inv_set_connections. revert HI. by apply Inv_ext.
  - apply withConnection_platform; [|done]. intros c w' ?.
    by apply Inv_set_connections, Inv_platform.
  - apply withConnection_platform; [|done]. intros c w' ?. by apply Inv_platform.
  - apply withConnection_platform; [|done]. intros c w' ?. by apply Inv_platform.
  - apply withConnection_platform; [|done]. intros c w' ?. by apply Inv_platform.
  - apply withConnection_platform; [|done]. intros c w' ?. by apply Inv_platform.
Qed.

Lemma Inv_connectionCallback (connectionId : nat) (cb : ConnectionCallback) (w : World) :
  Inv w → Inv (connectionCallback connectionId cb w).1.
Proof.
  intros HI. unfold connectionCallback.
  destruct (instance (state w)); try done.
  destruct cb; simpl; try by apply Inv_issue.
  by apply Inv_issue, Inv_set_connections.
Qed.

Lemma Inv_sendJsonRpc (chainId : nat) (d : bool) (request : string) (retVal : Z) (w : World) :
  Inv w → Inv (sendJsonRpc chainId d request retVal w).1.
Proof.
  intros HI. unfold sendJsonRpc.
  destruct (instance (state w)); try done.
  destruct (negb _); [done|]. destruct d; [done|].
  destruct retVal as [|[]|]; by apply Inv_issue.
Qed.

Lemma Inv_remove (newChain chainId : nat) (w : World) :
  Inv w → Inv (remove newChain chainId w).1.
Proof.
  intros HI. unfold remove.
  destruct (instance (state w)) eqn:Hst; try done.
  destruct (negb _); [done|]. proj.
  destruct (JsMap.get chainId (chains (state w))) as [callbacks|] eqn:Hg; simpl.
  - apply Inv_issue. eapply (Inv_woken_chain chainId callbacks w); try done.
    + by rewrite wakeAll_eq.
    + by rewrite wakeAll_eq.
    + by rewrite wakeAll_eq.
    + right. by rewrite wakeAll_eq.
    + by rewrite !wakeAll_eq.
  - destruct HI as [? ? ? ? ? ? ? ? ?]. by constructor.
Qed.

Lemma Inv_instanceStarted (w : World) : Inv w → Inv (instanceStarted w).
Proof.
  intros HI. unfold instanceStarted.
  destruct (whenReady (runtime w)) as [l| |e] eqn:E; [|done..].
  destruct HI as [? ? ? ? ? ? ? ? ?].
  destruct (instance (state w)) eqn:Hst; constructor; proj; rewrite ?Hst; done.
Qed.

Lemma Inv_instanceStartFailed (e : Error) (w : World) : Inv w → Inv (instanceStartFailed e w).
Proof.
  intros HI. unfold instanceStartFailed.
  destruct (whenReady (runtime w)) as [l| |e'] eqn:E; [|done..].
  destruct HI as [? Hnr Hr ? ? ? ? ? ?]. constructor; proj; try done.
  intros Hst. destruct (Hnr Hst) as (? & ? & ?). split_and!; try done.
  apply Forall_app. split; [done|]. apply Forall_fmap.
  apply Hr in E. eapply Forall_impl; [exact E|]. done.
Qed.

Lemma Inv_addChain (id : nat) (o : AddChainOptions) (w : World) :
  Inv w → Inv (addChain id o w).
Proof.
  intros HI. unfold addChain.
  destruct (instance (state w)); try by apply Inv_addChainAfterReady.
  by apply Inv_awaitWhenReady.
Qed.

Lemma Inv_terminate (id : nat) (w : World) : Inv w → Inv (terminate id w).
Proof.
  intros HI. unfold terminate.
  destruct (instance (state w)); try by apply Inv_terminateAfterReady.
  by apply Inv_awaitWhenReady.
Qed.

Lemma Inv_runCont (k : Cont) (v : Payload) (w : World) :
  (instance (state w) = NotReady → kind_ready k) → Inv w → Inv (runCont k v w).
Proof.
  intros Hk HI.
  assert (¬ kind_ready k → instance (state w) ≠ NotReady) as Hnr by tauto.
  destruct k; simpl.
  - destruct v; by (apply Inv_settle || apply Inv_addChainAfterReady).
  - apply Inv_addChainAfterOutcome; [apply Hnr; intros [] | done].
  - destruct v; try by apply Inv_settle.
    all: apply Inv_nextJsonRpcResponse; [apply Hnr; intros [] | done].
  - destruct v; by (apply Inv_settle || apply Inv_terminateAfterReady).
  - destruct v; try by apply Inv_settle.
    all: apply Inv_terminateAfterShutdown; [apply Hnr; intros [] | done].
  - apply Inv_queue_job; [apply Hnr; intros [] | done].
  - by apply Inv_settle.
Qed.

Lemma Inv_runMicrotask (w : World) : Inv w → Inv (runMicrotask w).
Proof.
  intros HI. unfold runMicrotask.
  destruct (microtasks (runtime w)) as [|[k v] q] eqn:Hq; [done|].
  apply Inv_runCont.
  - proj. intros Hst. destruct (inv_not_ready w HI Hst) as (_ & _ & Hm).
    rewrite Hq in Hm. by apply Forall_cons in Hm as [? _].
  - destruct HI as [? Hnr ? ? ? ? ? ? ?]. constructor; proj; try done.
    intros Hst. destruct (Hnr Hst) as (? & ? & Hm). split_and!; try done.
    rewrite Hq in Hm. by apply Forall_cons in Hm as [_ ?].
Qed.

Lemma Inv_step (a : Action) (w : World) : Inv w → Inv (step a w).
Proof.
  intros HI. destruct a; simpl.
  - by apply Inv_instanceStarted.
  - by apply Inv_instanceStartFailed.
  - by apply Inv_eventCallback.
  - by apply Inv_connectionCallback.
  - by apply Inv_queueJsonRpcResponse.
  - by apply Inv_addChain.
  - by apply Inv_terminate.
  - destruct (chainObjects (runtime w) !! newChain) as [[c d]|]; [|done].
    by apply Inv_sendJsonRpc.
  - destruct (chainObjects (runtime w) !! newChain) as [[c d]|] eqn:Hc; [|done].
    apply Inv_nextJsonRpcResponse; [|done].
    intros Hst. destruct (inv_not_ready w HI Hst) as (_ & Ho & _). by rewrite Ho in Hc.
  - destruct (chainObjects (runtime w) !! newChain) as [[c d]|]; [|done].
    by apply Inv_remove.
  - by apply Inv_runMicrotask.
Qed.

Lemma run_app (l1 l2 : list Action) (w : World) : run (l1 ++ l2) w = run l2 (run l1 w).
Proof. apply foldl_app. Qed.

Lemma Inv_run (l : list Action) (w : World) : Inv w → Inv (run l w).
Proof.
  revert w. induction l as [|a l IH]; intros w HI; [done|].
  simpl. by apply IH, Inv_step.
Qed.

Lemma reachable_Inv (w : World) : reachable w → Inv w.
Proof. intros [l ->]. apply Inv_run, Inv_start. Qed.

Lemma reachable_start : reachable start.
Proof. by exists []. Qed.

Lemma reachable_step (a : Action) (w : World) : reachable w → reachable (step a w).
Proof. intros [l ->]. exists (l ++ [a]). by rewrite run_app. Qed.

Lemma reachable_run (l : list Action) (w : World) : reachable w → reachable (run l w).
Proof. intros [l0 ->]. exists (l0 ++ l). by rewrite run_app. Qed.

(** ** Validation of the options of [addChain] *)

Lemma awaitWhenReady_unissued (k : Cont) (w : World) : unissued w (awaitWhenReady k w).
Proof. unfold awaitWhenReady. by destruct (whenReady (runtime w)). Qed.

(** A call whose options are refused leaves the instance and the queue
    alone, and on a ready instance it is rejected on the spot. *)
Lemma addChainAfterReady_refused (id : nat) (o : AddChainOptions) (e : Error) (w : World) :
  (instance (state w) = Ready →
   addChainAfterReady id o w = settle (CallAddChain id) (Rejected e) w) →
  unissued w (addChainAfterReady id o w).
Proof.
  intros H. unfold addChainAfterReady in *.
  destruct (instance (state w)); try done. by rewrite H.
Qed.

Lemma refused_rejects_with (id : nat) (o : AddChainOptions) (e : Error) :
  (∀ w, instance (state w) = Ready →
        addChainAfterReady id o w = settle (CallAddChain id) (Rejected e) w) →
  rejects_with id o e ∧ never_issues id o.
Proof.
  intros H. split.
  - intros w Hst. split; [|by apply H]. unfold addChain. rewrite Hst. by apply H.
  - intros w. split.
    + unfold addChain. destruct (instance (state w)) eqn:Hst;
        try (by apply (addChainAfterReady_refused id o e), H).
      apply awaitWhenReady_unissued.
    + intros v. destruct v; simpl; try done;
        by apply (addChainAfterReady_refused id o e), H.
Qed.

(** What [addChain] does once every test passed. *)
Lemma addChainAfterReady_issued (id : nat) (o : AddChainOptions) (mp ms : JsNumber)
    (w : World) :
  instance (state w) = Ready →
  typeof_string (chainSpec o) = true →
  sanitize_jsonRpcMaxPendingRequests (jsonRpcMaxPendingRequests o) = Normal mp →
  sanitize_jsonRpcMaxSubscriptions (jsonRpcMaxSubscriptions o) = Normal ms →
  databaseContent_invalid (databaseContent o) = false →
  addChainAfterReady id o w
  = issue (CmdAddChain (chainSpec o) (js_or (databaseContent o) (JsString ""))
             (potentialRelayChainsIds o w) (disableJsonRpc o) mp ms)
      (set_addChainResults (addChainResults (state w) ++ [nextPromise (runtime w)])
         (set_nextPromise (S (nextPromise (runtime w)))
            (set_promises
               (<[nextPromise (runtime w) := KAddChainOutcome id o]> (promises (runtime w)))
               w))).
Proof.
  intros Hst Hspec Hmp Hms Hdb. unfold addChainAfterReady.
  by rewrite Hst, Hspec, Hmp, Hms, Hdb.
Qed.

(** C4: for every [addChain] call whose [options.chainSpec] is not a string,
    no create-chain command is sent to the instance and no entry is added to
    the queue of pending requests, in whatever state the client is; on a ready
    instance the call is rejected in the block it runs in with the error
    "Chain specification must be a string", and nothing else changes. *)
Theorem addChain_chainSpec_not_string (id : nat) (o : AddChainOptions) :
  typeof_string (chainSpec o) = false →
  rejects_with id o (GenericError "Chain specification must be a string") ∧
  never_issues id o.
Proof.
  intros Hspec. apply refused_rejects_with. intros w Hst.
  unfold addChainAfterReady. by rewrite Hst, Hspec.
Qed.

Lemma addChain_chainSpec_not_string_witness :
  addChain 0 (mkOptions (JsNum (js_int 123)) JsUndefined None false None None) ready_client
  = settle (CallAddChain 0)
      (Rejected (GenericError "Chain specification must be a string")) ready_client
  ∧ engineLog (env (addChain 0 (mkOptions (JsNum (js_int 123)) JsUndefined None false
                                   None None) ready_client)) = [].
Proof.
  destruct (addChain_chainSpec_not_string 0
              (mkOptions (JsNum (js_int 123)) JsUndefined None false None None) eq_refl)
    as [Hr Hn].
  split.
  - apply (Hr ready_client). reflexivity.
  - apply (Hn ready_client).
Defined.

(** C5: [jsonRpcMaxPendingRequests] reaches the instance as an integer between
    1 and 2^32-1: a missing or infinite value becomes 2^32-1, a finite value is
    floored and capped at 2^32-1, and a value whose floor is at most 0, NaN or
    minus infinity (such as -1) makes the call fail with the invalid-value
    error before any command is sent.  [jsonRpcMaxSubscriptions] is treated
    the same way except that a floor of 0 is accepted, so that it lies between
    0 and 2^32-1. *)
Theorem addChain_numeric_options :
  (* the value passed on *)
  (∀ o v, sanitize_jsonRpcMaxPendingRequests o = Normal v →
          ∃ z, v = js_int z ∧ (1 ≤ z ≤ u32_max)%Z) ∧
  (∀ o v, sanitize_jsonRpcMaxSubscriptions o = Normal v →
          ∃ z, v = js_int z ∧ (0 ≤ z ≤ u32_max)%Z) ∧
  (* missing and infinite *)
  sanitize_jsonRpcMaxPendingRequests None = Normal (js_int u32_max) ∧
  sanitize_jsonRpcMaxPendingRequests (Some JsPosInf) = Normal (js_int u32_max) ∧
  sanitize_jsonRpcMaxSubscriptions None = Normal (js_int u32_max) ∧
  sanitize_jsonRpcMaxSubscriptions (Some JsPosInf) = Normal (js_int u32_max) ∧
  (* finite *)
  (∀ q, sanitize_jsonRpcMaxPendingRequests (Some (JsFinite q))
        = if (Qfloor q <=? 0)%Z then Throw invalid_jsonRpcMaxPendingRequests
          else Normal (js_int (Z.min (Qfloor q) u32_max))) ∧
  (∀ q, sanitize_jsonRpcMaxSubscriptions (Some (JsFinite q))
        = if (Qfloor q <? 0)%Z then Throw invalid_jsonRpcMaxSubscriptions
          else Normal (js_int (Z.min (Qfloor q) u32_max))) ∧
  sanitize_jsonRpcMaxPendingRequests (Some (js_int (-1)))
  = Throw invalid_jsonRpcMaxPendingRequests ∧
  sanitize_jsonRpcMaxPendingRequests (Some (js_int 0))
  = Throw invalid_jsonRpcMaxPendingRequests ∧
  sanitize_jsonRpcMaxSubscriptions (Some (js_int 0)) = Normal (js_int 0) ∧
  (* NaN and minus infinity *)
  sanitize_jsonRpcMaxPendingRequests (Some JsNaN) = Throw invalid_jsonRpcMaxPendingRequests ∧
  sanitize_jsonRpcMaxPendingRequests (Some JsNegInf)
  = Throw invalid_jsonRpcMaxPendingRequests ∧
  sanitize_jsonRpcMaxSubscriptions (Some JsNaN) = Throw invalid_jsonRpcMaxSubscriptions ∧
  sanitize_jsonRpcMaxSubscriptions (Some JsNegInf) = Throw invalid_jsonRpcMaxSubscriptions ∧
  (* a refused value: nothing is sent *)
  (∀ id o e, typeof_string (chainSpec o) = true →
             sanitize_jsonRpcMaxPendingRequests (jsonRpcMaxPendingRequests o) = Throw e →
             rejects_with id o e ∧ never_issues id o) ∧
  (∀ id o v e, typeof_string (chainSpec o) = true →
               sanitize_jsonRpcMaxPendingRequests (jsonRpcMaxPendingRequests o) = Normal v →
               sanitize_jsonRpcMaxSubscriptions (jsonRpcMaxSubscriptions o) = Throw e →
               rejects_with id o e ∧ never_issues id o).
Proof.
  split_and!; try done.
  - apply sanitize_jsonRpcMaxPendingRequests_range.
  - apply sanitize_jsonRpcMaxSubscriptions_range.
  - apply sanitize_jsonRpcMaxPendingRequests_finite.
  - apply sanitize_jsonRpcMaxSubscriptions_finite.
  - intros id o e Hspec He. apply refused_rejects_with. intros w Hst.
    unfold addChainAfterReady. by rewrite Hst, Hspec, He.
  - intros id o v e Hspec Hv He. apply refused_rejects_with. intros w Hst.
    unfold addChainAfterReady. by rewrite Hst, Hspec, Hv, He.
Qed.

Lemma addChain_numeric_options_witness :
  addChain 0 (mkOptions (JsString "{}") JsUndefined None false (Some (js_int (-1))) None)
    ready_client
  = settle (CallAddChain 0) (Rejected invalid_jsonRpcMaxPendingRequests) ready_client
  ∧ ∃ z, js_int 7 = js_int z ∧ (1 ≤ z ≤ u32_max)%Z.
Proof.
  destruct addChain_numeric_options
    as (Hrange & _ & _ & _ & _ & _ & _ & _ & _ & _ & _ & _ & _ & _ & _ & Hrej & _).
  split.
  - apply (Hrej 0 (mkOptions (JsString "{}") JsUndefined None false (Some (js_int (-1))) None)
             invalid_jsonRpcMaxPendingRequests); reflexivity.
  - apply (Hrange (Some (JsFinite (15 # 2)))). vm_compute. reflexivity.
Defined.

Lemma addChain_Ready (id : nat) (o : AddChainOptions) (w : World) :
  instance (state w) = Ready → addChain id o w = addChainAfterReady id o w.
Proof. intros Hst. unfold addChain. by rewrite Hst. Qed.

(** [options.databaseContent !== undefined
     && typeof options.databaseContent !== 'string'] holds of the values that
    are defined and are not strings. *)
Lemma databaseContent_invalid_iff (v : JsValue) :
  databaseContent_invalid v = true ↔ v ≠ JsUndefined ∧ typeof_string v = false.
Proof. destruct v; simpl; split; (done || by intros [? ?]). Qed.

(** C10: [addChain] also checks [options.databaseContent].  When it is defined
    and is not a string, the call fails with the add-chain error
    "`databaseContent` is not a string" and no command is sent; when it is
    undefined, the create-chain command receives the empty string in its
    place; a string is passed on as it is. *)
Theorem addChain_databaseContent (id : nat) (o : AddChainOptions) (mp ms : JsNumber) :
  typeof_string (chainSpec o) = true →
  sanitize_jsonRpcMaxPendingRequests (jsonRpcMaxPendingRequests o) = Normal mp →
  sanitize_jsonRpcMaxSubscriptions (jsonRpcMaxSubscriptions o) = Normal ms →
  (databaseContent o ≠ JsUndefined → typeof_string (databaseContent o) = false →
   rejects_with id o (AddChainError "`databaseContent` is not a string") ∧
   never_issues id o) ∧
  (∀ w, instance (state w) = Ready → databaseContent o = JsUndefined →
        engineLog (env (addChain id o w))
        = engineLog (env w)
          ++ [CmdAddChain (chainSpec o) (JsString "") (potentialRelayChainsIds o w)
                (disableJsonRpc o) mp ms]) ∧
  (∀ w s, instance (state w) = Ready → databaseContent o = JsString s →
          engineLog (env (addChain id o w))
          = engineLog (env w)
            ++ [CmdAddChain (chainSpec o) (JsString s) (potentialRelayChainsIds o w)
                  (disableJsonRpc o) mp ms]).
Proof.
  intros Hspec Hmp Hms. split_and!.
  - intros Hdef Hty. apply refused_rejects_with. intros w Hst.
    unfold addChainAfterReady. rewrite Hst, Hspec, Hmp, Hms.
    by rewrite (proj2 (databaseContent_invalid_iff _) (conj Hdef Hty)).
  - intros w Hst Hdb. rewrite addChain_Ready by done.
    rewrite (addChainAfterReady_issued id o mp ms) by (by rewrite ?Hdb).
    by rewrite Hdb.
  - intros w s Hst Hdb. rewrite addChain_Ready by done.
    rewrite (addChainAfterReady_issued id o mp ms) by (by rewrite ?Hdb).
    rewrite Hdb. proj. unfold js_or. simpl. by destruct (bool_decide (s = "")) eqn:E;
      [apply bool_decide_eq_true in E as ->|].
Qed.

Lemma addChain_databaseContent_witness :
  addChain 0 (mkOptions (JsString "{}") (JsNum (js_int 5)) None false None None) ready_client
  = settle (CallAddChain 0) (Rejected (AddChainError "`databaseContent` is not a string"))
      ready_client
  ∧ engineLog (env (addChain 0 (mkOptions (JsString "{}") JsUndefined None false None None)
                      ready_client))
    = [CmdAddChain (JsString "{}") (JsString "") [] false (js_int u32_max) (js_int u32_max)].
Proof.
  split.
  - apply (addChain_databaseContent 0
             (mkOptions (JsString "{}") (JsNum (js_int 5)) None false None None)
             (js_int u32_max) (js_int u32_max)); reflexivity || done.
  - apply (addChain_databaseContent 0
             (mkOptions (JsString "{}") JsUndefined None false None None)
             (js_int u32_max) (js_int u32_max)); reflexivity.
Defined.

(** ** Relay chains *)

Lemma potentialRelayChainsIds_loop (ids : gmap Handle nat) (l : list Handle)
    (acc : list nat) :
  foldl (λ ids' chain, match ids !! chain with
                       | None => ids'
                       | Some id => ids' ++ [id]
                       end) acc l
  = acc ++ omap (λ chain, ids !! chain) l.
Proof.
  revert acc. induction l as [|h l IH]; intros acc; simpl.
  - by rewrite app_nil_r.
  - rewrite IH. destruct (ids !! h); simpl; [|done]. by rewrite <- app_assoc.
Qed.

Lemma potentialRelayChainsIds_omap (o : AddChainOptions) (w : World) :
  potentialRelayChainsIds o w
  = omap (λ chain, chainIds (state w) !! chain) (default [] (potentialRelayChains o)).
Proof.
  unfold potentialRelayChainsIds. destruct (potentialRelayChains o); [|done].
  apply potentialRelayChainsIds_loop.
Qed.

(** The list of relay chains plays no part in whether the call is settled. *)
Lemma addChainAfterReady_relay_settled (id : nat) (o : AddChainOptions)
    (l : option (list Handle)) (w : World) :
  settled (runtime (addChainAfterReady id (with_potentialRelayChains l o) w))
  = settled (runtime (addChainAfterReady id o w)).
Proof.
  unfold addChainAfterReady. simpl.
  destruct (instance (state w)); try done.
  destruct (negb _); [done|].
  destruct (sanitize_jsonRpcMaxPendingRequests _); [|done].
  destruct (sanitize_jsonRpcMaxSubscriptions _); [|done].
  by destruct (databaseContent_invalid _).
Qed.

(** C6: the ids given to the instance are the ids the entries of
    [options.potentialRelayChains] map to in [state.chainIds], in the order of
    the entries; an entry that maps to no id (a chain that was removed, for
    instance) contributes nothing and the others are passed on; the
    create-chain command carries this list; and whether the call is refused
    never depends on the list. *)
Theorem addChain_potentialRelayChains (id : nat) (o : AddChainOptions) (w : World) :
  potentialRelayChainsIds o w
  = omap (λ chain, chainIds (state w) !! chain) (default [] (potentialRelayChains o)) ∧
  (∀ chainId, chainId ∈ potentialRelayChainsIds o w ↔
              ∃ chain, chain ∈ default [] (potentialRelayChains o) ∧
                       chainIds (state w) !! chain = Some chainId) ∧
  (∀ mp ms, instance (state w) = Ready →
            typeof_string (chainSpec o) = true →
            sanitize_jsonRpcMaxPendingRequests (jsonRpcMaxPendingRequests o) = Normal mp →
            sanitize_jsonRpcMaxSubscriptions (jsonRpcMaxSubscriptions o) = Normal ms →
            databaseContent_invalid (databaseContent o) = false →
            engineLog (env (addChain id o w))
            = engineLog (env w)
              ++ [CmdAddChain (chainSpec o) (js_or (databaseContent o) (JsString ""))
                    (omap (λ chain, chainIds (state w) !! chain)
                       (default [] (potentialRelayChains o)))
                    (disableJsonRpc o) mp ms] ∧
            settled (runtime (addChain id o w)) = settled (runtime w)) ∧
  (∀ l, settled (runtime (addChain id (with_potentialRelayChains l o) w))
        = settled (runtime (addChain id o w))) ∧
  (∀ l v, settled (runtime (runCont (KAddChainReady id (with_potentialRelayChains l o)) v w))
          = settled (runtime (runCont (KAddChainReady id o) v w))).
Proof.
  split_and!.
  - apply potentialRelayChainsIds_omap.
  - intros chainId. rewrite potentialRelayChainsIds_omap. apply list_elem_of_omap.
  - intros mp ms Hst Hspec Hmp Hms Hdb. rewrite addChain_Ready by done.
    rewrite (addChainAfterReady_issued id o mp ms) by done.
    by rewrite potentialRelayChainsIds_omap.
  - intros l. unfold addChain. destruct (instance (state w)) eqn:Hst;
      try apply addChainAfterReady_relay_settled.
    unfold awaitWhenReady. by destruct (whenReady (runtime w)).
  - intros l v.
    destruct v; simpl; try done; apply addChainAfterReady_relay_settled.
Qed.

Lemma addChain_potentialRelayChains_witness :
  engineLog (env (addChain 0 (mkOptions (JsString "{}") JsUndefined (Some [4; 5]) false
                                None None) ready_client))
  = engineLog (env ready_client)
    ++ [CmdAddChain (JsString "{}") (js_or JsUndefined (JsString ""))
          (omap (λ chain, chainIds (state ready_client) !! chain) (default [] (Some [4; 5])))
          false (js_int u32_max) (js_int u32_max)]
  ∧ settled (runtime (addChain 0 (mkOptions (JsString "{}") JsUndefined (Some [4; 5]) false
                                    None None) ready_client))
    = settled (runtime ready_client).
Proof.
  destruct (addChain_potentialRelayChains 0
              (mkOptions (JsString "{}") JsUndefined (Some [4; 5]) false None None)
              ready_client) as (_ & _ & H & _).
  apply (H (js_int u32_max) (js_int u32_max)); reflexivity.
Defined.

(** The handle of a removed chain is dropped and the handle of a live chain is
    kept: the object 0 is the chain 7 until it is removed, and no chain was
    ever the object 5. *)
Example potentialRelayChains_removed :
  potentialRelayChainsIds
    (mkOptions (JsString "{}") JsUndefined (Some [5; 0]) false None None) one_chain_client
  = [7]
  ∧ potentialRelayChainsIds
      (mkOptions (JsString "{}") JsUndefined (Some [5; 0]) false None None)
      (remove 0 7 one_chain_client).1
    = [].
Proof. vm_compute. done. Qed.

(** ** The status of the instance *)

(** Rewriting the loops of the program into their effect. *)
Ltac norm :=
  rewrite ?callShutdownOrPanic_eq, ?wakeChains_eq, ?failAddChainResults_eq,
    ?resetConnections_eq, ?wakeAll_eq, ?resolvePromise_eq; proj.

Ltac break_match :=
  match goal with
  | |- context [match ?x with _ => _ end] =>
      lazymatch x with
      | context [match _ with _ => _ end] => fail
      | _ => destruct x eqn:?
      end
  end.

Lemma awaitWhenReady_instance (k : Cont) (w : World) :
  instance (state (awaitWhenReady k w)) = instance (state w).
Proof. unfold awaitWhenReady. by destruct (whenReady (runtime w)). Qed.

Lemma addChainAfterReady_instance (id : nat) (o : AddChainOptions) (w : World) :
  instance (state (addChainAfterReady id o w)) = instance (state w).
Proof. unfold addChainAfterReady. proj. repeat (break_match; proj); done. Qed.

Lemma addChainAfterOutcome_instance (id : nat) (o : AddChainOptions) (v : Payload)
    (w : World) :
  instance (state (addChainAfterOutcome id o v w)) = instance (state w).
Proof. unfold addChainAfterOutcome. proj. repeat (break_match; proj); done. Qed.

Lemma nextJsonRpcResponse_instance (id chainId : nat) (d : bool) (w : World) :
  instance (state (nextJsonRpcResponse id chainId d w)) = instance (state w).
Proof.
  unfold nextJsonRpcResponse, waitForResponse, peekJsonRpcResponse. proj.
  repeat (break_match; simplify_eq; proj); done.
Qed.

Lemma terminateAfterReady_instance (id : nat) (w : World) :
  instance (state (terminateAfterReady id w)) = instance (state w).
Proof. unfold terminateAfterReady. proj. repeat (break_match; proj); done. Qed.

Lemma terminateAfterShutdown_instance (id : nat) (w : World) :
  instance (state (terminateAfterShutdown id w))
  = match instance (state w) with
    | Ready => Destroyed AlreadyDestroyedError
    | s => s
    end.
Proof.
  unfold terminateAfterShutdown. destruct (instance (state w)) eqn:E; norm; by rewrite ?E.
Qed.

Lemma eventCallback_instance (event : Event) (w : World) :
  instance (state (eventCallback event w).1)
  = match event with
    | WasmPanic message _ => Destroyed (CrashError message)
    | _ => instance (state w)
    end.
Proof.
  destruct event; unfold eventCallback, withConnection; norm;
    repeat (break_match; norm); done.
Qed.

Lemma connectionCallback_instance (connectionId : nat) (cb : ConnectionCallback) (w : World) :
  instance (state (connectionCallback connectionId cb w).1) = instance (state w).
Proof. unfold connectionCallback. repeat (break_match; proj); done. Qed.

Lemma sendJsonRpc_instance (chainId : nat) (d : bool) (request : string) (retVal : Z)
    (w : World) :
  instance (state (sendJsonRpc chainId d request retVal w).1) = instance (state w).
Proof. unfold sendJsonRpc. repeat (break_match; proj); done. Qed.

Lemma remove_instance (newChain chainId : nat) (w : World) :
  instance (state (remove newChain chainId w).1) = instance (state w).
Proof. unfold remove. proj. repeat (break_match; norm); done. Qed.

Lemma runCont_instance (k : Cont) (v : Payload) (w : World) :
  instance (state (runCont k v w))
  = match k, v, instance (state w) with
    | KTerminateShutdown _, (PVoid | POutcome _), Ready => Destroyed AlreadyDestroyedError
    | _, _, s => s
    end.
Proof.
  destruct k, v; cbn [runCont]; proj;
    rewrite ?addChainAfterReady_instance, ?addChainAfterOutcome_instance,
      ?nextJsonRpcResponse_instance, ?terminateAfterReady_instance,
      ?terminateAfterShutdown_instance;
    by destruct (instance (state w)).
Qed.

(** The status changes in three ways only: the instance becomes ready, the
    instance crashes, or [terminate] completes on a ready instance. *)
Lemma step_instance (a : Action) (w : World) :
  instance (state (step a w)) = instance (state w)
  ∨ (a = ActInstanceStarted ∧ instance (state (step a w)) = Ready ∧
     ∀ e, instance (state w) ≠ Destroyed e)
  ∨ (∃ message currentTask,
       a = ActEvent (WasmPanic message currentTask) ∧
       instance (state (step a w)) = Destroyed (CrashError message))
  ∨ (a = ActMicrotask ∧ instance (state w) = Ready ∧
     instance (state (step a w)) = Destroyed AlreadyDestroyedError).
Proof.
  destruct a; simpl.
  - unfold instanceStarted. destruct (whenReady (runtime w)); [|by left..].
    destruct (instance (state w)) eqn:E; proj; rewrite ?E; try by left.
    all: right; left; by rewrite ?E.
  - left. unfold instanceStartFailed. by destruct (whenReady (runtime w)).
  - rewrite eventCallback_instance. destruct event; try by left.
    right. right. left. eauto.
  - left. apply connectionCallback_instance.
  - by left.
  - left. unfold addChain.
    destruct (instance (state w)) eqn:E; rewrite ?addChainAfterReady_instance; try done.
    by rewrite awaitWhenReady_instance.
  - left. unfold terminate.
    destruct (instance (state w)) eqn:E; rewrite ?terminateAfterReady_instance; try done.
    by rewrite awaitWhenReady_instance.
  - left. destruct (chainObjects (runtime w) !! newChain) as [[c d]|]; [|done].
    apply sendJsonRpc_instance.
  - left. destruct (chainObjects (runtime w) !! newChain) as [[c d]|]; [|done].
    apply nextJsonRpcResponse_instance.
  - left. destruct (chainObjects (runtime w) !! newChain) as [[c d]|]; [|done].
    apply remove_instance.
  - unfold runMicrotask. destruct (microtasks (runtime w)) as [|[k v] q]; [by left|].
    rewrite runCont_instance. proj.
    destruct k, v, (instance (state w)) eqn:E; try by left.
    all: right; right; right; by rewrite ?E.
Qed.

Lemma crash_free_cons (a : Action) (l : list Action) :
  crash_free (a :: l) → (∀ message currentTask, a ≠ ActEvent (WasmPanic message currentTask))
                        ∧ crash_free l.
Proof.
  intros H. split.
  - intros m t ->. apply (H m t). left.
  - intros m t Hin. apply (H m t). by right.
Qed.

(** Once destroyed, the instance stays destroyed, and only a crash changes
    the error. *)
Lemma step_destroyed (a : Action) (w : World) (e : Error) :
  instance (state w) = Destroyed e →
  instance (state (step a w)) = Destroyed e
  ∨ ∃ message currentTask,
      a = ActEvent (WasmPanic message currentTask) ∧
      instance (state (step a w)) = Destroyed (CrashError message).
Proof.
  intros Hst. destruct (step_instance a w) as [H|[(_ & _ & H)|[H|(_ & H & _)]]].
  - left. by rewrite H.
  - by destruct (H e).
  - by right.
  - congruence.
Qed.

Lemma run_destroyed (l : list Action) (w : World) (e : Error) :
  crash_free l → instance (state w) = Destroyed e → instance (state (run l w)) = Destroyed e.
Proof.
  revert w. induction l as [|a l IH]; intros w Hl Hst; [done|].
  apply crash_free_cons in Hl as [Ha Hl]. simpl. apply IH; [done|].
  destruct (step_destroyed a w e Hst) as [H|(m & t & -> & _)]; [done|].
  by destruct (Ha m t).
Qed.

(** The resolvers stored in the state are older than the next promise. *)
Lemma Inv_refs_lt (w : World) (q : PromiseId) :
  Inv w →
  q ∈ addChainResults (state w) ++ concat (JsMap.values (chains (state w))) →
  q < nextPromise (runtime w).
Proof.
  intros HI [Hq|Hq]%elem_of_app.
  - pose proof (inv_ledger w HI) as Hl. eapply Forall_forall in Hl; [|done].
    by eapply Inv_pend_lt.
  - pose proof (chains_ok_all _ _ (inv_chains w HI)) as Hc.
    eapply Forall_forall in Hc as [c Hc]; [|done]. by eapply Inv_pend_lt.
Qed.

(** [terminate] on a ready instance: the command is sent and the call waits
    for the callback [onExecutorShutdownOrWasmPanic]. *)
Lemma terminate_Ready (id : nat) (w : World) :
  instance (state w) = Ready →
  terminate id w
  = set_onExecutorShutdownOrWasmPanic (Some (nextPromise (runtime w)))
      (set_nextPromise (S (nextPromise (runtime w)))
         (set_promises (<[nextPromise (runtime w) := KTerminateShutdown id]>
                          (promises (runtime w)))
            (issue CmdShutdownExecutor w))).
Proof. intros Hst. unfold terminate, terminateAfterReady. by rewrite Hst. Qed.

Lemma woken_singleton_pending (v : Payload) (m : gmap PromiseId Cont) (p : PromiseId)
    (k : Cont) :
  m !! p = Some k → woken v m [p] = [(k, v)].
Proof. intros H. simpl. by rewrite H. Qed.

(** A crash while [terminate] waits resumes [terminate]. *)
Lemma terminate_crash_microtasks (id : nat) (message : string)
    (currentTask : option string) (w : World) :
  Inv w → instance (state w) = Ready →
  ∃ q, microtasks (runtime (run [ActTerminate id; ActEvent (WasmPanic message currentTask)] w))
       = q ++ [(KTerminateShutdown id, PVoid)].
Proof.
  intros HI Hst. cbn [run foldl step]. rewrite terminate_Ready by done.
  rewrite eventCallback_WasmPanic. norm.
  change (option_list (Some ?p)) with [p].
  rewrite (woken_singleton_pending _ _ _ (KTerminateShutdown id)); [eauto|].
  rewrite <- deleteAll_app, lookup_deleteAll_notin; [by rewrite lookup_insert_eq|].
  intros Hin. apply (Inv_refs_lt w _ HI) in Hin. lia.
Qed.

(** The instance reports the end of its executor while [terminate] waits:
    [terminate] is resumed, and the status is left alone. *)
Lemma terminate_shutdown (id : nat) (w : World) :
  Inv w → instance (state w) = Ready →
  microtasks (runtime (run [ActTerminate id; ActEvent ExecutorShutdown] w))
  = microtasks (runtime w) ++ [(KTerminateShutdown id, PVoid)]
  ∧ instance (state (run [ActTerminate id; ActEvent ExecutorShutdown] w)) = Ready.
Proof.
  intros HI Hst. cbn [run foldl step]. rewrite terminate_Ready by done.
  cbn [eventCallback fst]. norm. split; [|done].
  change (option_list (Some ?p)) with [p].
  by rewrite (woken_singleton_pending _ _ _ (KTerminateShutdown id))
    by apply lookup_insert_eq.
Qed.

Lemma eventCallback_WasmPanic_microtasks (message : string) (currentTask : option string)
    (w : World) :
  ∃ q, microtasks (runtime (eventCallback (WasmPanic message currentTask) w).1)
       = microtasks (runtime w) ++ q.
Proof.
  rewrite eventCallback_WasmPanic. norm. rewrite <- !app_assoc. eauto.
Qed.

Lemma run_singleton (a : Action) (w : World) : run [a] w = step a w.
Proof. done. Qed.

(** The terminal error is replaced by a crash that is reported after
    [terminate] ran to its end, when no termination is completing any more,
    and by a crash that is reported after another crash. *)
Lemma terminate_crash_race_counterexample :
  instance (state terminated_client) = Destroyed AlreadyDestroyedError
  ∧ settled (runtime terminated_client) = [(CallTerminate 0, Resolved VVoid)]
  ∧ microtasks (runtime terminated_client) = []
  ∧ onExecutorShutdownOrWasmPanic (state terminated_client) = None
  ∧ instance (state (step (ActEvent (WasmPanic "late" None)) terminated_client))
    = Destroyed (CrashError "late")
  ∧ instance (state (run [ActEvent (WasmPanic "first" None);
                          ActEvent (WasmPanic "second" None)] ready_client))
    = Destroyed (CrashError "second").
Proof. vm_compute. done. Qed.

(** C3 (amended): a crash reported while [terminate] waits for the end of the
    executor, or after the end was reported but before [terminate] resumed,
    leaves the crash's error as the terminal error: [terminate] does resume,
    and nothing that happens afterwards, short of another crash, changes the
    status.  Without a crash [terminate] ends with the error "already
    destroyed".  In general a destroyed instance stays destroyed; its error is
    replaced by a crash only, and every crash replaces it, whenever it is
    reported: the wasm-panic case writes the status without looking at it. *)
Theorem terminate_crash_race :
  (∀ a w e,
     instance (state w) = Destroyed e →
     instance (state (step a w)) = Destroyed e
     ∨ ∃ message currentTask,
         a = ActEvent (WasmPanic message currentTask) ∧
         instance (state (step a w)) = Destroyed (CrashError message)) ∧
  (∀ w id message currentTask between,
     reachable w → instance (state w) = Ready →
     between = [] ∨ between = [ActEvent ExecutorShutdown] →
     (KTerminateShutdown id, PVoid)
     ∈ microtasks (runtime (run ([ActTerminate id] ++ between
                                  ++ [ActEvent (WasmPanic message currentTask)]) w)) ∧
     ∀ l, crash_free l →
          instance (state (run l (run ([ActTerminate id] ++ between
                                        ++ [ActEvent (WasmPanic message currentTask)]) w)))
          = Destroyed (CrashError message)) ∧
  (∀ w id,
     reachable w → instance (state w) = Ready → microtasks (runtime w) = [] →
     instance (state (run [ActTerminate id; ActEvent ExecutorShutdown; ActMicrotask] w))
     = Destroyed AlreadyDestroyedError) ∧
  (∀ w message currentTask,
     instance (state (step (ActEvent (WasmPanic message currentTask)) w))
     = Destroyed (CrashError message)).
Proof.
  split_and!; [| | |by intros; cbn [step]; rewrite eventCallback_WasmPanic; norm].
  - apply step_destroyed.
  - intros w id message currentTask between Hw Hst Hb.
    apply reachable_Inv in Hw as HI. split.
    + destruct Hb as [-> | ->].
      * destruct (terminate_crash_microtasks id message currentTask w HI Hst) as [q Hq].
        simpl app. rewrite Hq. apply elem_of_app. right. left.
      * change ([ActTerminate id] ++ [ActEvent ExecutorShutdown]
                ++ [ActEvent (WasmPanic message currentTask)])
          with ([ActTerminate id; ActEvent ExecutorShutdown]
                ++ [ActEvent (WasmPanic message currentTask)]).
        rewrite run_app, run_singleton. cbn [step].
        edestruct eventCallback_WasmPanic_microtasks as [q ->].
        rewrite (proj1 (terminate_shutdown id w HI Hst)).
        apply elem_of_app. left. apply elem_of_app. right. left.
    + intros l Hl. apply run_destroyed; [done|].
      rewrite app_assoc, run_app, run_singleton. cbn [step].
      by rewrite eventCallback_instance.
  - intros w id Hw Hst Hm. apply reachable_Inv in Hw as HI.
    change [ActTerminate id; ActEvent ExecutorShutdown; ActMicrotask]
      with ([ActTerminate id; ActEvent ExecutorShutdown] ++ [ActMicrotask]).
    rewrite run_app. destruct (terminate_shutdown id w HI Hst) as [Hq Hs].
    rewrite run_singleton. cbn [step]. unfold runMicrotask. rewrite Hq, Hm. cbn [app].
    rewrite runCont_instance. proj. by rewrite Hs.
Qed.

Lemma terminate_crash_race_witness :
  instance (state (run [ActMicrotask]
                     (run ([ActTerminate 0] ++ []
                           ++ [ActEvent (WasmPanic "boom" None)]) ready_client)))
  = Destroyed (CrashError "boom").
Proof.
  destruct terminate_crash_race as (_ & H & _).
  apply (H ready_client 0 "boom" None []).
  - apply (reachable_run [ActInstanceStarted]), reachable_start.
  - reflexivity.
  - by left.
  - intros m t Hin. apply list_elem_of_singleton in Hin. discriminate Hin.
Defined.

(** ** The methods of a chain *)

Lemma reachable_terminal_error (w : World) (e : Error) :
  reachable w → instance (state w) = Destroyed e → terminal_error e.
Proof.
  intros [l ->]. revert e. induction l as [|a l IH] using rev_ind; intros e; [done|].
  rewrite run_app, run_singleton.
  destruct (step_instance a (run l start)) as [H|[(_ & H & _)|[(m & t & _ & H)|(_ & _ & H)]]];
    rewrite H.
  - apply IH.
  - done.
  - intros [= <-]. right. eauto.
  - intros [= <-]. by left.
Qed.

(** A [Chain] object exists only once the instance has been ready. *)
Lemma reachable_chainObject_status (w : World) (newChain : Handle) (x : nat * bool) :
  reachable w → chainObjects (runtime w) !! newChain = Some x →
  instance (state w) = Ready ∨ ∃ e, instance (state w) = Destroyed e ∧ terminal_error e.
Proof.
  intros Hw Hx. pose proof (reachable_Inv w Hw) as HI.
  destruct (instance (state w)) eqn:Hst.
  - by destruct (inv_created w HI).
  - destruct (inv_not_ready w HI Hst) as (_ & Ho & _). by rewrite Ho in Hx.
  - by left.
  - right. eexists. split; [done|]. by eapply reachable_terminal_error.
Qed.

Lemma remove_Ready (newChain chainId : nat) (callbacks : list PromiseId) (w : World) :
  instance (state w) = Ready →
  JsMap.get chainId (chains (state w)) = Some callbacks →
  remove newChain chainId w
  = (issue (CmdRemoveChain chainId)
       (set_chains (JsMap.delete chainId (chains (state w)))
          (wakeAll callbacks (set_chainIds (delete newChain (chainIds (state w))) w))),
     Normal ()).
Proof.
  intros Hst Hg. unfold remove, JsMap.has. rewrite Hst, Hg. proj. rewrite Hg.
  by rewrite !wakeAll_eq.
Qed.

Lemma remove_Normal (newChain chainId : nat) (w w' : World) :
  remove newChain chainId w = (w', Normal ()) →
  instance (state w) = Ready ∧
  ∃ callbacks, JsMap.get chainId (chains (state w)) = Some callbacks.
Proof.
  unfold remove, JsMap.has. destruct (instance (state w)); try done. proj.
  destruct (JsMap.get chainId (chains (state w))) as [callbacks|]; [|done]. eauto.
Qed.

Lemma remove_absent (newChain chainId : nat) (w : World) :
  instance (state w) = Ready → JsMap.has chainId (chains (state w)) = false →
  remove newChain chainId w = (w, Throw AlreadyDestroyedError).
Proof. intros Hst Hh. unfold remove. by rewrite Hst, Hh. Qed.

Lemma sendJsonRpc_absent (chainId : nat) (d : bool) (request : string) (retVal : Z)
    (w : World) :
  instance (state w) = Ready → JsMap.has chainId (chains (state w)) = false →
  sendJsonRpc chainId d request retVal w = (w, Throw AlreadyDestroyedError).
Proof. intros Hst Hh. unfold sendJsonRpc. by rewrite Hst, Hh. Qed.

Lemma JsMap_has_delete {V : Type} (k : nat) (m : list (nat * V)) :
  JsMap.has k (JsMap.delete k m) = false.
Proof. unfold JsMap.has. by rewrite JsMap_get_delete_eq. Qed.

(** What [sendJsonRpc] does, by the chain id its [Chain] object was created
    for.  It fails with the instance's terminal error (the crash error or
    "already destroyed") when the instance is destroyed, and with "already
    destroyed" when the instance is ready and that id is not registered, as is
    the case when [remove] has just returned; the test that throws the error
    without message cannot succeed, since the instance of an existing [Chain]
    object is ready or destroyed.  When the request is handed to the instance,
    the return value 0 ends the call normally, 1 throws the queue-full error,
    and any other value throws the internal error that names the code. *)
Lemma sendJsonRpc_conditions (w : World) (newChain chainId : nat) (d : bool)
    (request : string) (retVal : Z) :
  reachable w →
  chainObjects (runtime w) !! newChain = Some (chainId, d) →
  (instance (state w) = Ready ∨ ∃ e, instance (state w) = Destroyed e ∧ terminal_error e) ∧
  (∀ e, instance (state w) = Destroyed e →
        sendJsonRpc chainId d request retVal w = (w, Throw e)) ∧
  (instance (state w) = Ready → JsMap.has chainId (chains (state w)) = false →
   sendJsonRpc chainId d request retVal w = (w, Throw AlreadyDestroyedError)) ∧
  (∀ w', remove newChain chainId w = (w', Normal ()) →
         sendJsonRpc chainId d request retVal w' = (w', Throw AlreadyDestroyedError)) ∧
  (instance (state w) = Ready → JsMap.has chainId (chains (state w)) = true → d = false →
   sendJsonRpc chainId d request retVal w
   = (issue (CmdRequest request chainId) w,
      if decide (retVal = 0%Z) then Normal ()
      else if decide (retVal = 1%Z) then Throw QueueFullError
      else Throw (GenericError ("Internal error: unknown json_rpc_send error code: "
                                +:+ pretty retVal)))).
Proof.
  intros Hw Hobj. split_and!.
  - by eapply reachable_chainObject_status.
  - intros e Hst. unfold sendJsonRpc. by rewrite Hst.
  - apply sendJsonRpc_absent.
  - intros w' Hr. destruct (remove_Normal _ _ _ _ Hr) as (Hst & callbacks & Hg).
    rewrite (remove_Ready _ _ callbacks) in Hr by done. injection Hr as <-.
    apply sendJsonRpc_absent; rewrite wakeAll_eq; proj; [done|]. apply JsMap_has_delete.
  - intros Hst Hh ->. unfold sendJsonRpc. rewrite Hst, Hh. simpl.
    destruct retVal as [|[]|]; done.
Qed.

Lemma reachable_one_chain_client : reachable one_chain_client.
Proof.
  by exists [ActInstanceStarted;
             ActAddChain 0 (mkOptions (JsString "{}") JsUndefined None false None None);
             ActEvent (AddChainResult (Success 7));
             ActMicrotask].
Qed.

Lemma sendJsonRpc_conditions_witness :
  sendJsonRpc 7 false "ping" 1 one_chain_client
  = (issue (CmdRequest "ping" 7) one_chain_client, Throw QueueFullError)
  ∧ sendJsonRpc 7 false "ping" 1 (remove 0 7 one_chain_client).1
    = ((remove 0 7 one_chain_client).1, Throw AlreadyDestroyedError).
Proof.
  assert (chainObjects (runtime one_chain_client) !! 0 = Some (7, false)) as Hobj
    by (vm_compute; reflexivity).
  assert (instance (state one_chain_client) = Ready) as Hst by (vm_compute; reflexivity).
  assert (JsMap.has 7 (chains (state one_chain_client)) = true) as Hh
    by (vm_compute; reflexivity).
  assert (remove 0 7 one_chain_client = ((remove 0 7 one_chain_client).1, Normal ())) as Hr
    by (vm_compute; reflexivity).
  destruct (sendJsonRpc_conditions one_chain_client 0 7 false "ping" 1
              reachable_one_chain_client Hobj) as (_ & _ & _ & Hremoved & Hissued).
  split.
  - exact (Hissued Hst Hh eq_refl).
  - exact (Hremoved (remove 0 7 one_chain_client).1 Hr).
Defined.

Lemma pend_Forall2 (m : gmap PromiseId Cont) (P : Cont → Prop) (l : list PromiseId) :
  Forall (pend m P) l → ∃ ks, Forall2 (λ p k, m !! p = Some k ∧ P k) l ks.
Proof.
  induction 1 as [|p l (k & Hk & HP) _ [ks IH]].
  - exists []. constructor.
  - exists (k :: ks). by constructor.
Qed.

(** In a registry that lacks the chain, a woken waiter ends with the error
    "already destroyed". *)
Lemma waiter_absent (k : Cont) (chainId : nat) (v : Payload) (w : World) :
  kind_waiter chainId k →
  JsMap.has chainId (chains (state w)) = false →
  (∀ e, v ≠ PRejection e) →
  runCont k v w = settle (call_of k) (Rejected AlreadyDestroyedError) w.
Proof.
  intros Hk Hh Hv. destruct k; try done. simpl in Hk. subst.
  unfold runCont, nextJsonRpcResponse. rewrite Hh. simpl.
  destruct v; try done. by destruct (Hv e).
Qed.

(** Running the woken waiters of a chain that is gone. *)
Lemma run_waiters_absent (ks : list Cont) (chainId : nat) (w : World) :
  Forall (kind_waiter chainId) ks →
  JsMap.has chainId (chains (state w)) = false →
  microtasks (runtime w) = (λ k, (k, PVoid)) <$> ks →
  run (replicate (length ks) ActMicrotask) w
  = set_microtasks []
      (set_settled
         (settled (runtime w)
          ++ ((λ k, (call_of k, Rejected AlreadyDestroyedError)) <$> ks)) w).
Proof.
  revert w. induction ks as [|k ks IH]; intros w Hks Hh Hm; simpl.
  - rewrite app_nil_r. destruct w as [? [] ?]. simpl in *. by subst.
  - apply Forall_cons in Hks as [Hk Hks]. unfold runMicrotask at 1. rewrite Hm. csimpl.
    rewrite (waiter_absent k chainId) by done.
    rewrite IH by done. proj. by rewrite <- app_assoc.
Qed.

(** The event that announces responses for a chain that is not registered
    wakes nobody. *)
Lemma JsonRpcResponsesNonEmpty_absent (chainId : nat) (w : World) :
  JsMap.has chainId (chains (state w)) = false →
  eventCallback (JsonRpcResponsesNonEmpty chainId) w = (w, Throw TypeError).
Proof.
  unfold JsMap.has. simpl. by destruct (JsMap.get chainId (chains (state w))).
Qed.

(** What [remove] does, by the chain id its [Chain] object was created for.
    Called on a ready instance while that id is registered, it wakes every
    waiter of the chain, in the order they waited; a woken waiter that finds
    the id gone fails with "already destroyed", and all of them do when no
    other microtask runs before them; the [Chain] object leaves
    [state.chainIds], the id leaves [state.chains], and the remove-chain
    command is sent.  As long as the id is not registered, another [remove]
    on the same object fails with "already destroyed" and changes nothing, and
    the event that announces responses for the id wakes nobody. *)
Lemma remove_chain (w : World) (newChain chainId : nat) (d : bool)
    (callbacks : list PromiseId) :
  reachable w →
  chainObjects (runtime w) !! newChain = Some (chainId, d) →
  instance (state w) = Ready →
  JsMap.get chainId (chains (state w)) = Some callbacks →
  ∃ ks,
    Forall2 (λ p k, promises (runtime w) !! p = Some k ∧ kind_waiter chainId k) callbacks ks ∧
    (remove newChain chainId w).2 = Normal () ∧
    microtasks (runtime (remove newChain chainId w).1)
    = microtasks (runtime w) ++ ((λ k, (k, PVoid)) <$> ks) ∧
    Forall (λ p, promises (runtime (remove newChain chainId w).1) !! p = None) callbacks ∧
    (∀ k w', k ∈ ks → JsMap.has chainId (chains (state w')) = false →
             runCont k PVoid w' = settle (call_of k) (Rejected AlreadyDestroyedError) w') ∧
    (microtasks (runtime w) = [] →
     settled (runtime (run (replicate (length ks) ActMicrotask) (remove newChain chainId w).1))
     = settled (runtime w) ++ ((λ k, (call_of k, Rejected AlreadyDestroyedError)) <$> ks)) ∧
    chainIds (state (remove newChain chainId w).1) = delete newChain (chainIds (state w)) ∧
    chains (state (remove newChain chainId w).1) = JsMap.delete chainId (chains (state w)) ∧
    JsMap.has chainId (chains (state (remove newChain chainId w).1)) = false ∧
    engineLog (env (remove newChain chainId w).1)
    = engineLog (env w) ++ [CmdRemoveChain chainId] ∧
    (∀ w', instance (state w') = Ready → JsMap.has chainId (chains (state w')) = false →
           remove newChain chainId w' = (w', Throw AlreadyDestroyedError)) ∧
    remove newChain chainId (remove newChain chainId w).1
    = ((remove newChain chainId w).1, Throw AlreadyDestroyedError) ∧
    (∀ w', JsMap.has chainId (chains (state w')) = false →
           eventCallback (JsonRpcResponsesNonEmpty chainId) w' = (w', Throw TypeError)).
Proof.
  intros Hw Hobj Hst Hg. pose proof (reachable_Inv w Hw) as HI.
  pose proof (JsMap_get_Forall _ _ _ _ (inv_chains w HI) Hg) as [Hnd Hpe]. simpl in *.
  destruct (pend_Forall2 _ _ _ Hpe) as [ks Hks]. exists ks.
  assert (Forall (kind_waiter chainId) ks) as Hkinds.
  { clear -Hks. induction Hks as [|? ? ? ? [_ ?]]; by constructor. }
  assert (woken PVoid (promises (runtime w)) callbacks = (λ k, (k, PVoid)) <$> ks) as Hwoken.
  { apply woken_pending; [done|]. eapply Forall2_impl; [exact Hks|]. by intros ? ? [? _]. }
  rewrite (remove_Ready _ _ callbacks) by done. rewrite wakeAll_eq. proj.
  split_and!; try done.
  - by rewrite Hwoken.
  - apply Forall_forall. intros p Hp. by rewrite lookup_deleteAll, decide_True.
  - intros k w' Hk Hh. eapply Forall_forall in Hkinds; [|done].
    by apply (waiter_absent k chainId).
  - intros Hm. rewrite (run_waiters_absent ks chainId); proj; try done.
    + apply JsMap_has_delete.
    + by rewrite Hm, Hwoken.
  - apply JsMap_has_delete.
  - apply remove_absent.
  - apply remove_absent; proj; [done | apply JsMap_has_delete].
  - apply JsonRpcResponsesNonEmpty_absent.
Qed.

Lemma reachable_waiting_client : reachable waiting_client.
Proof.
  unfold waiting_client. apply reachable_run, reachable_one_chain_client.
Qed.

Lemma remove_chain_witness :
  remove 0 7 (remove 0 7 waiting_client).1
  = ((remove 0 7 waiting_client).1, Throw AlreadyDestroyedError)
  ∧ engineLog (env (remove 0 7 waiting_client).1)
    = engineLog (env waiting_client) ++ [CmdRemoveChain 7]
  ∧ ∃ ks, microtasks (runtime (remove 0 7 waiting_client).1)
          = microtasks (runtime waiting_client) ++ ((λ k, (k, PVoid)) <$> ks)
          ∧ Forall2 (λ p k, promises (runtime waiting_client) !! p = Some k
                            ∧ kind_waiter 7 k) [1] ks.
Proof.
  assert (chainObjects (runtime waiting_client) !! 0 = Some (7, false)) as Hobj
    by (vm_compute; reflexivity).
  assert (instance (state waiting_client) = Ready) as Hst by (vm_compute; reflexivity).
  assert (JsMap.get 7 (chains (state waiting_client)) = Some [1]) as Hg
    by (vm_compute; reflexivity).
  destruct (remove_chain waiting_client 0 7 false [1] reachable_waiting_client Hobj Hst Hg)
    as (ks & Hks & _ & Hwoken & _ & _ & _ & _ & _ & _ & Hlog & _ & Hsecond & _).
  split; [exact Hsecond|]. split; [exact Hlog|]. exists ks. by split.
Defined.

(** ** Responses *)

Lemma quiet_refl (w : World) : quiet w w.
Proof. done. Qed.

Lemma quiet_trans (w1 w2 w3 : World) : quiet w1 w2 → quiet w2 w3 → quiet w1 w3.
Proof. intros [H1 H2] [H3 H4]. split; [congruence|]. intros c. by rewrite H4. Qed.

(** Worlds with the same results and the same queues. *)
Lemma quiet_same (w w' : World) :
  settled (runtime w') = settled (runtime w) → responses (env w') = responses (env w) →
  quiet w w'.
Proof. intros Hs Hr. split; [done|]. intros c. unfold delivered. by rewrite Hs. Qed.

Lemma delivered_settle (c : nat) (call : Call) (r : Result) (w : World) :
  delivered c (settle call r w)
  = delivered c w
    ++ match call, r with
       | CallNextJsonRpcResponse _ c', Resolved (VString m) =>
           if decide (c' = c) then [m] else []
       | _, _ => []
       end.
Proof.
  unfold delivered. proj. rewrite omap_app. f_equal. simpl.
  destruct call, r as [[]|]; try done. by destruct (decide _).
Qed.

Lemma quiet_settle_rejected (call : Call) (e : Error) (w : World) :
  quiet w (settle call (Rejected e) w).
Proof.
  split; [done|]. intros c. rewrite delivered_settle.
  destruct call; apply app_nil_r.
Qed.

Lemma quiet_settle_other (call : Call) (v : Value) (w : World) :
  (∀ m, v ≠ VString m) → quiet w (settle call (Resolved v) w).
Proof.
  intros Hv. split; [done|]. intros c. rewrite delivered_settle.
  destruct call, v; try apply app_nil_r. by destruct (Hv message).
Qed.

Lemma quiet_awaitWhenReady (k : Cont) (w : World) : quiet w (awaitWhenReady k w).
Proof. unfold awaitWhenReady. destruct (whenReady (runtime w)); by apply quiet_same. Qed.

Lemma quiet_addChainAfterReady (id : nat) (o : AddChainOptions) (w : World) :
  quiet w (addChainAfterReady id o w).
Proof.
  unfold addChainAfterReady. proj.
  repeat (break_match; try apply quiet_settle_rejected). by apply quiet_same.
Qed.

Lemma quiet_addChainAfterOutcome (id : nat) (o : AddChainOptions) (v : Payload) (w : World) :
  quiet w (addChainAfterOutcome id o v w).
Proof.
  unfold addChainAfterOutcome. proj.
  repeat (break_match; try apply quiet_settle_rejected).
  eapply quiet_trans; [|by apply quiet_settle_other]. by apply quiet_same.
Qed.

Lemma quiet_terminateAfterReady (id : nat) (w : World) : quiet w (terminateAfterReady id w).
Proof.
  unfold terminateAfterReady. proj.
  repeat (break_match; try apply quiet_settle_rejected). by apply quiet_same.
Qed.

Lemma quiet_terminateAfterShutdown (id : nat) (w : World) :
  quiet w (terminateAfterShutdown id w).
Proof.
  unfold terminateAfterShutdown.
  eapply quiet_trans; [|by apply quiet_settle_other].
  destruct (instance (state w)); norm; by apply quiet_same.
Qed.

Lemma quiet_eventCallback (event : Event) (w : World) : quiet w (eventCallback event w).1.
Proof.
  destruct event; unfold eventCallback, withConnection; norm;
    repeat (break_match; norm); by apply quiet_same.
Qed.

Lemma quiet_connectionCallback (connectionId : nat) (cb : ConnectionCallback) (w : World) :
  quiet w (connectionCallback connectionId cb w).1.
Proof. unfold connectionCallback. repeat (break_match; proj); by apply quiet_same. Qed.

Lemma quiet_sendJsonRpc (chainId : nat) (d : bool) (request : string) (retVal : Z)
    (w : World) :
  quiet w (sendJsonRpc chainId d request retVal w).1.
Proof. unfold sendJsonRpc. repeat (break_match; proj); by apply quiet_same. Qed.

Lemma quiet_remove (newChain chainId : nat) (w : World) :
  quiet w (remove newChain chainId w).1.
Proof. unfold remove. proj. repeat (break_match; norm); by apply quiet_same. Qed.

Lemma quiet_instanceStarted (w : World) : quiet w (instanceStarted w).
Proof. unfold instanceStarted. repeat (break_match; proj); by apply quiet_same. Qed.

Lemma quiet_instanceStartFailed (e : Error) (w : World) : quiet w (instanceStartFailed e w).
Proof. unfold instanceStartFailed. repeat (break_match; proj); by apply quiet_same. Qed.

Lemma quiet_waitForResponse (id chainId : nat) (d : bool) (w : World) :
  quiet w (waitForResponse id chainId d w).
Proof.
  unfold waitForResponse. break_match; [by apply quiet_same | apply quiet_settle_rejected].
Qed.

Lemma quiet_conserved (w w' : World) (c : nat) :
  quiet w w' → delivered c w' ++ queue c w' = delivered c w ++ queue c w.
Proof. intros [Hr Hd]. unfold queue. by rewrite Hr, Hd. Qed.

Lemma quiet_clean (w w' : World) : quiet w w' → clean w → clean w'.
Proof. intros [Hr _] Hc c. unfold queue. rewrite Hr. apply Hc. Qed.

(** The turn of the loop that finds a response: the response leaves the queue
    of the instance and is returned. *)
Lemma nextJsonRpcResponse_present (id chainId : nat) (m : string) (q : list string)
    (w : World) :
  JsMap.has chainId (chains (state w)) = true →
  instance (state w) = Ready →
  responses (env w) !! chainId = Some (m :: q) → m ≠ "" →
  nextJsonRpcResponse id chainId false w
  = settle (CallNextJsonRpcResponse id chainId) (Resolved (VString m))
      (set_responses (<[chainId := q]> (responses (env w))) w).
Proof.
  intros Hh Hst Hq Hm. unfold nextJsonRpcResponse, peekJsonRpcResponse.
  rewrite Hh, Hst, Hq. simpl. by rewrite bool_decide_eq_false_2.
Qed.

(** The turn of the loop that finds no response: the call becomes the last
    waiter of the chain. *)
Lemma nextJsonRpcResponse_absent (id chainId : nat) (callbacks : list PromiseId)
    (w : World) :
  JsMap.get chainId (chains (state w)) = Some callbacks →
  instance (state w) = Ready →
  queue chainId w = [] →
  nextJsonRpcResponse id chainId false w
  = set_chains (JsMap.set chainId (callbacks ++ [nextPromise (runtime w)]) (chains (state w)))
      (set_nextPromise (S (nextPromise (runtime w)))
         (set_promises
            (<[nextPromise (runtime w) := KNextJsonRpcResponse id chainId false]>
               (promises (runtime w))) w)).
Proof.
  intros Hg Hst Hq. unfold nextJsonRpcResponse, peekJsonRpcResponse, waitForResponse, JsMap.has.
  rewrite Hg, Hst. simpl. unfold queue in Hq.
  destruct (responses (env w) !! chainId) as [[|m q]|]; simpl in *; try done;
    by rewrite Hg.
Qed.

Lemma nextJsonRpcResponse_conserved (id chainId : nat) (d : bool) (w : World) (c : nat) :
  clean w →
  delivered c (nextJsonRpcResponse id chainId d w)
  ++ queue c (nextJsonRpcResponse id chainId d w)
  = delivered c w ++ queue c w
  ∧ clean (nextJsonRpcResponse id chainId d w).
Proof.
  intros Hc.
  assert (∀ w', quiet w w' →
                delivered c w' ++ queue c w' = delivered c w ++ queue c w ∧ clean w') as Hq.
  { intros w' Hw'. split; [by apply quiet_conserved | by eapply quiet_clean]. }
  unfold nextJsonRpcResponse.
  destruct (negb _) eqn:Hh; [apply Hq, quiet_settle_rejected|].
  destruct d; [by apply Hq, quiet_same|].
  destruct (instance (state w)) eqn:Hst; try apply Hq, quiet_settle_rejected.
  unfold peekJsonRpcResponse.
  destruct (responses (env w) !! chainId) as [[|m q]|] eqn:E;
    try apply Hq, quiet_waitForResponse.
  assert (m ≠ "") as Hm.
  { intros ->. apply (Hc chainId). unfold queue. rewrite E. left. }
  simpl. rewrite bool_decide_eq_false_2 by done. simpl. split.
  - rewrite delivered_settle. unfold queue, delivered. proj.
    destruct (decide (chainId = c)) as [->|Hne].
    + rewrite lookup_insert_eq, E. simpl. by rewrite <- app_assoc.
    + rewrite lookup_insert_ne by done. by rewrite app_nil_r.
  - intros c'. unfold queue. proj.
    destruct (decide (chainId = c')) as [->|Hne].
    + rewrite lookup_insert_eq. simpl. intros Hin. apply (Hc c'). unfold queue.
      rewrite E. by right.
    + rewrite lookup_insert_ne by done. apply Hc.
Qed.

Lemma queueJsonRpcResponse_conserved (chainId : nat) (m : string) (w : World) (c : nat) :
  m ≠ "" → clean w →
  delivered c (queueJsonRpcResponse chainId m w) ++ queue c (queueJsonRpcResponse chainId m w)
  = (delivered c w ++ queue c w) ++ (if decide (chainId = c) then [m] else [])
  ∧ clean (queueJsonRpcResponse chainId m w).
Proof.
  intros Hm Hc. unfold queueJsonRpcResponse, queue, delivered. proj. split.
  - destruct (decide (chainId = c)) as [->|Hne].
    + rewrite lookup_insert_eq. simpl. by rewrite app_assoc.
    + rewrite lookup_insert_ne by done. by rewrite app_nil_r.
  - intros c'. unfold queue. proj. destruct (decide (chainId = c')) as [->|Hne].
    + rewrite lookup_insert_eq. simpl. rewrite not_elem_of_app. split; [apply Hc|].
      intros Heq%list_elem_of_singleton. by apply Hm.
    + rewrite lookup_insert_ne by done. apply Hc.
Qed.

Lemma quiet_runCont_other (k : Cont) (v : Payload) (w : World) :
  (∀ id c d, k ≠ KNextJsonRpcResponse id c d) → quiet w (runCont k v w).
Proof.
  intros Hk. destruct k; cbn [runCont].
  - destruct v; (apply quiet_settle_rejected || apply quiet_addChainAfterReady).
  - apply quiet_addChainAfterOutcome.
  - by destruct (Hk id chainId disableJsonRpc0).
  - destruct v; (apply quiet_settle_rejected || apply quiet_terminateAfterReady).
  - destruct v; (apply quiet_settle_rejected || apply quiet_terminateAfterShutdown).
  - by apply quiet_same.
  - apply quiet_settle_rejected.
Qed.

Lemma runCont_conserved (k : Cont) (v : Payload) (w : World) (c : nat) :
  clean w →
  delivered c (runCont k v w) ++ queue c (runCont k v w) = delivered c w ++ queue c w
  ∧ clean (runCont k v w).
Proof.
  intros Hc.
  assert (∀ w', quiet w w' →
                delivered c w' ++ queue c w' = delivered c w ++ queue c w ∧ clean w') as Hq.
  { intros w' Hw'. split; [by apply quiet_conserved | by eapply quiet_clean]. }
  destruct k; try (apply Hq, quiet_runCont_other; congruence).
  cbn [runCont]. destruct v;
    (by apply nextJsonRpcResponse_conserved) || apply Hq, quiet_settle_rejected.
Qed.

Lemma step_conserved (a : Action) (w : World) (c : nat) :
  nonempty_responses [a] → clean w →
  delivered c (step a w) ++ queue c (step a w) = (delivered c w ++ queue c w) ++ queued c [a]
  ∧ clean (step a w).
Proof.
  intros Ha Hc. apply Forall_cons in Ha as [Ha _].
  assert (∀ w', quiet w w' →
                delivered c w' ++ queue c w' = (delivered c w ++ queue c w) ++ [] ∧ clean w')
    as Hq.
  { intros w' Hw'. rewrite app_nil_r.
    split; [by apply quiet_conserved | by eapply quiet_clean]. }
  destruct a; cbn [step queued omap].
  - apply Hq, quiet_instanceStarted.
  - apply Hq, quiet_instanceStartFailed.
  - apply Hq, quiet_eventCallback.
  - apply Hq, quiet_connectionCallback.
  - simpl. destruct (queueJsonRpcResponse_conserved chainId message w c Ha Hc) as [-> ?].
    split; [|done]. by destruct (decide (chainId = c)).
  - apply Hq. unfold addChain. break_match;
      (apply quiet_addChainAfterReady || apply quiet_awaitWhenReady).
  - apply Hq. unfold terminate. break_match;
      (apply quiet_terminateAfterReady || apply quiet_awaitWhenReady).
  - apply Hq. destruct (chainObjects (runtime w) !! newChain) as [[? ?]|];
      [apply quiet_sendJsonRpc | apply quiet_refl].
  - rewrite app_nil_r. destruct (chainObjects (runtime w) !! newChain) as [[? ?]|].
    + by apply nextJsonRpcResponse_conserved.
    + done.
  - apply Hq. destruct (chainObjects (runtime w) !! newChain) as [[? ?]|];
      [apply quiet_remove | apply quiet_refl].
  - rewrite app_nil_r. unfold runMicrotask.
    destruct (microtasks (runtime w)) as [|[k v] q] eqn:E; [done|].
    apply (runCont_conserved k v (set_microtasks q w) c). done.
Qed.

(** Every response the instance queued for a chain is either still in the
    queue or was returned by exactly one call, in the order of the queue. *)
Lemma run_conserved (l : list Action) (w : World) (c : nat) :
  nonempty_responses l → clean w →
  delivered c (run l w) ++ queue c (run l w) = (delivered c w ++ queue c w) ++ queued c l
  ∧ clean (run l w).
Proof.
  revert w. induction l as [|a l IH]; intros w Hl Hc.
  - simpl. by rewrite app_nil_r.
  - apply Forall_cons in Hl as [Ha Hl].
    destruct (step_conserved a w c) as [Hs Hc']; [by repeat constructor | done |].
    destruct (IH (step a w) Hl Hc') as [Hr Hc'']. split; [|done].
    change (run (a :: l) w) with (run l (step a w)).
    rewrite Hr, Hs, <- app_assoc. f_equal.
    change (a :: l) with ([a] ++ l). unfold queued. by rewrite omap_app.
Qed.

Lemma clean_start : clean start.
Proof. intros c. unfold queue. simpl. rewrite lookup_empty. apply not_elem_of_nil. Qed.


(** The event that announces responses wakes every waiter of the chain and
    empties the list of waiters. *)
Lemma JsonRpcResponsesNonEmpty_wakes (chainId : nat) (callbacks : list PromiseId)
    (w : World) :
  Inv w → JsMap.get chainId (chains (state w)) = Some callbacks →
  ∃ ks,
    Forall2 (λ p k, promises (runtime w) !! p = Some k ∧ kind_waiter chainId k) callbacks ks ∧
    microtasks (runtime (eventCallback (JsonRpcResponsesNonEmpty chainId) w).1)
    = microtasks (runtime w) ++ ((λ k, (k, PVoid)) <$> ks) ∧
    JsMap.get chainId (chains (state (eventCallback (JsonRpcResponsesNonEmpty chainId) w).1))
    = Some [].
Proof.
  intros HI Hg.
  pose proof (JsMap_get_Forall _ _ _ _ (inv_chains w HI) Hg) as [Hnd Hpe]. simpl in *.
  destruct (pend_Forall2 _ _ _ Hpe) as [ks Hks]. exists ks. split; [done|].
  cbn [eventCallback]. rewrite Hg. norm. split; [|apply JsMap_get_set_eq].
  f_equal. apply woken_pending; [done|].
  eapply Forall2_impl; [exact Hks|]. by intros ? ? [? _].
Qed.

(** The turns of the loop of [nextJsonRpcResponse], by the chain id its
    [Chain] object was created for.  A turn fails with "already destroyed"
    when that id is not registered; otherwise, when JSON-RPC is disabled for
    the chain, it returns a rejected promise, so that the call fails with the
    JSON-RPC-disabled error two microtasks later; otherwise it fails with the
    terminal error when the instance is destroyed; otherwise it pops the queue
    of the instance and returns the response when there is one, and when
    there is none becomes the last waiter of the chain, from where a wake-up
    starts another turn.  The event that announces responses wakes every
    waiter of the chain.  As a result the responses returned for a chain id,
    followed by the responses still queued, are at any time exactly the
    responses the instance queued for that id, in their order: none is lost
    and none is returned twice, however many arrive between two wake-ups.
    (Responses are JSON texts and so are not empty.) *)
Lemma nextJsonRpcResponse_loop (w : World) (id chainId : nat) (d : bool) :
  (JsMap.has chainId (chains (state w)) = false →
   nextJsonRpcResponse id chainId d w
   = settle (CallNextJsonRpcResponse id chainId) (Rejected AlreadyDestroyedError) w) ∧
  (JsMap.has chainId (chains (state w)) = true → d = true →
   nextJsonRpcResponse id chainId d w
   = returnRejected (CallNextJsonRpcResponse id chainId) JsonRpcDisabledError w ∧
   settled (runtime (nextJsonRpcResponse id chainId d w)) = settled (runtime w) ∧
   ∀ w' v v',
     runCont (KAdoptRejection (CallNextJsonRpcResponse id chainId) JsonRpcDisabledError) v w'
     = set_microtasks
         (microtasks (runtime w')
          ++ [(KRejectCall (CallNextJsonRpcResponse id chainId) JsonRpcDisabledError,
               PRejection JsonRpcDisabledError)]) w' ∧
     runCont (KRejectCall (CallNextJsonRpcResponse id chainId) JsonRpcDisabledError) v' w'
     = settle (CallNextJsonRpcResponse id chainId) (Rejected JsonRpcDisabledError) w') ∧
  (∀ e, JsMap.has chainId (chains (state w)) = true → d = false →
        instance (state w) = Destroyed e →
        nextJsonRpcResponse id chainId d w
        = settle (CallNextJsonRpcResponse id chainId) (Rejected e) w) ∧
  (∀ m q, JsMap.has chainId (chains (state w)) = true → d = false →
          instance (state w) = Ready →
          responses (env w) !! chainId = Some (m :: q) → m ≠ "" →
          nextJsonRpcResponse id chainId d w
          = settle (CallNextJsonRpcResponse id chainId) (Resolved (VString m))
              (set_responses (<[chainId := q]> (responses (env w))) w)) ∧
  (∀ callbacks, JsMap.get chainId (chains (state w)) = Some callbacks → d = false →
                instance (state w) = Ready → queue chainId w = [] →
                nextJsonRpcResponse id chainId d w
                = set_chains
                    (JsMap.set chainId (callbacks ++ [nextPromise (runtime w)])
                       (chains (state w)))
                    (set_nextPromise (S (nextPromise (runtime w)))
                       (set_promises
                          (<[nextPromise (runtime w)
                             := KNextJsonRpcResponse id chainId d]> (promises (runtime w)))
                          w))) ∧
  (∀ w', runCont (KNextJsonRpcResponse id chainId d) PVoid w'
         = nextJsonRpcResponse id chainId d w') ∧
  (∀ callbacks, reachable w → JsMap.get chainId (chains (state w)) = Some callbacks →
     ∃ ks,
       Forall2 (λ p k, promises (runtime w) !! p = Some k ∧ kind_waiter chainId k)
         callbacks ks ∧
       microtasks (runtime (eventCallback (JsonRpcResponsesNonEmpty chainId) w).1)
       = microtasks (runtime w) ++ ((λ k, (k, PVoid)) <$> ks) ∧
       JsMap.get chainId
         (chains (state (eventCallback (JsonRpcResponsesNonEmpty chainId) w).1))
       = Some []) ∧
  (∀ l, nonempty_responses l →
        delivered chainId (run l start) ++ queue chainId (run l start) = queued chainId l).
Proof.
  split_and!.
  - intros Hh. unfold nextJsonRpcResponse. by rewrite Hh.
  - intros Hh ->. unfold nextJsonRpcResponse. rewrite Hh. by split_and!.
  - intros e Hh -> Hst. unfold nextJsonRpcResponse. by rewrite Hh, Hst.
  - intros m q Hh -> Hst Hq Hm. by apply nextJsonRpcResponse_present.
  - intros callbacks Hg -> Hst Hq. by apply nextJsonRpcResponse_absent.
  - done.
  - intros callbacks Hw Hg. apply JsonRpcResponsesNonEmpty_wakes; [|done].
    by apply reachable_Inv.
  - intros l Hl. by destruct (run_conserved l start chainId Hl clean_start) as [-> _].
Qed.

Lemma nextJsonRpcResponse_loop_witness :
  delivered 7 (run two_responses start) ++ queue 7 (run two_responses start)
  = queued 7 two_responses
  ∧ nextJsonRpcResponse 1 7 false (remove 0 7 one_chain_client).1
    = settle (CallNextJsonRpcResponse 1 7) (Rejected AlreadyDestroyedError)
        (remove 0 7 one_chain_client).1.
Proof.
  assert (nonempty_responses two_responses) as Hne
    by (unfold two_responses; repeat constructor; done).
  assert (JsMap.has 7 (chains (state (remove 0 7 one_chain_client).1)) = false) as Hh
    by (vm_compute; reflexivity).
  split.
  - destruct (nextJsonRpcResponse_loop start 0 7 false) as (_ & _ & _ & _ & _ & _ & _ & H).
    exact (H two_responses Hne).
  - destruct (nextJsonRpcResponse_loop (remove 0 7 one_chain_client).1 1 7 false)
      as (H & _).
    exact (H Hh).
Defined.

(** In that scenario the two responses are returned in their order, and the
    third call is left waiting. *)
Example two_responses_delivered :
  delivered 7 (run two_responses start) = ["a"; "b"]
  ∧ queue 7 (run two_responses start) = []
  ∧ settled (runtime (run two_responses start))
    = [(CallAddChain 0, Resolved (VChain 0));
       (CallNextJsonRpcResponse 1 7, Resolved (VString "a"));
       (CallNextJsonRpcResponse 2 7, Resolved (VString "b"))]
  ∧ JsMap.get 7 (chains (state (run two_responses start))) = Some [2].
Proof. vm_compute. repeat split. Qed.

(** ** A removed chain whose id the instance gives to another chain *)

Lemma reachable_recycled_client : reachable recycled_client.
Proof. apply reachable_run, reachable_one_chain_client. Qed.

(** C7 (defect): [nextJsonRpcResponse] does not fail on a [Chain] object whose
    chain was removed, once the instance has given the id of that chain to
    another chain.  The loop tests whether the chain id it captured is
    registered, not whether its own object still is in [state.chainIds].
    Right after [remove] the call fails with "already destroyed"; after the
    id was given to the chain of the object 1, a call on the removed object 0
    returns a response that the instance queued for the new chain, and a call
    that finds no response waits and is woken by the event that announces
    responses for the new chain. *)
Theorem nextJsonRpcResponse_recycled_id :
  reachable recycled_client
  ∧ chainObjects (runtime recycled_client) !! 0 = Some (7, false)
  ∧ chainIds (state recycled_client) !! 0 = None
  ∧ chainIds (state recycled_client) !! 1 = Some 7
  ∧ nextJsonRpcResponse 5 7 false (remove 0 7 one_chain_client).1
    = settle (CallNextJsonRpcResponse 5 7) (Rejected AlreadyDestroyedError)
        (remove 0 7 one_chain_client).1
  ∧ settled (runtime (run [ActQueueResponse 7 "r"; ActNextJsonRpcResponse 5 0]
                        recycled_client))
    = settled (runtime recycled_client)
      ++ [(CallNextJsonRpcResponse 5 7, Resolved (VString "r"))]
  ∧ queue 7 (run [ActQueueResponse 7 "r"; ActNextJsonRpcResponse 5 0] recycled_client) = []
  ∧ settled (runtime (run [ActNextJsonRpcResponse 5 0; ActEvent (JsonRpcResponsesNonEmpty 7)]
                        recycled_client))
    = settled (runtime recycled_client)
  ∧ microtasks (runtime (run [ActNextJsonRpcResponse 5 0;
                              ActEvent (JsonRpcResponsesNonEmpty 7)] recycled_client))
    = [(KNextJsonRpcResponse 5 7 false, PVoid)].
Proof.
  split; [apply reachable_recycled_client|]. vm_compute. by repeat split.
Qed.

(** C8 (defect): [sendJsonRpc] does not fail on a [Chain] object whose chain
    was removed, once the instance has given the id of that chain to another
    chain.  The method tests whether the chain id it captured is registered,
    not whether its own object still is in [state.chainIds].  Right after
    [remove] the call throws "already destroyed"; after the id was given to
    the chain of the object 1, the same call on the removed object 0 hands the
    request to the instance for the new chain and returns normally. *)
Theorem sendJsonRpc_recycled_id :
  reachable recycled_client
  ∧ chainObjects (runtime recycled_client) !! 0 = Some (7, false)
  ∧ chainIds (state recycled_client) !! 0 = None
  ∧ chainIds (state recycled_client) !! 1 = Some 7
  ∧ instance (state recycled_client) = Ready
  ∧ sendJsonRpc 7 false "ping" 0 (remove 0 7 one_chain_client).1
    = ((remove 0 7 one_chain_client).1, Throw AlreadyDestroyedError)
  ∧ sendJsonRpc 7 false "ping" 0 recycled_client
    = (issue (CmdRequest "ping" 7) recycled_client, Normal ())
  ∧ engineLog (env (step (ActSendJsonRpc 0 "ping" 0) recycled_client))
    = engineLog (env recycled_client) ++ [CmdRequest "ping" 7].
Proof.
  split; [apply reachable_recycled_client|]. vm_compute. by repeat split.
Qed.

(** C9 (defect): a second [remove] on the same [Chain] object does not fail
    once the instance has given the id of the removed chain to another chain.
    The method tests whether the chain id it captured is registered, not
    whether its own object still is in [state.chainIds].  Right after the
    first [remove] a second one throws "already destroyed"; after the id was
    given to the chain of the object 1, a second [remove] on the object 0
    passes the test although [state.chainIds] does not hold the object, which
    is what the method asserts next; it returns normally, takes the new chain
    out of [state.chains] and sends the remove-chain command for it, while
    [state.chainIds] still maps the object 1.  The calls made on the removed
    object are woken for the id as well. *)
Theorem remove_recycled_id :
  reachable recycled_client
  ∧ chainObjects (runtime recycled_client) !! 0 = Some (7, false)
  ∧ (remove 0 7 one_chain_client).2 = Normal ()
  ∧ remove 0 7 (remove 0 7 one_chain_client).1
    = ((remove 0 7 one_chain_client).1, Throw AlreadyDestroyedError)
  ∧ instance (state recycled_client) = Ready
  ∧ chainIds (state recycled_client) !! 0 = None
  ∧ chainIds (state recycled_client) !! 1 = Some 7
  ∧ chains (state recycled_client) = [(7, [])]
  ∧ (remove 0 7 recycled_client).2 = Normal ()
  ∧ chains (state (remove 0 7 recycled_client).1) = []
  ∧ engineLog (env (remove 0 7 recycled_client).1)
    = engineLog (env recycled_client) ++ [CmdRemoveChain 7]
  ∧ chainIds (state (remove 0 7 recycled_client).1) !! 1 = Some 7
  ∧ microtasks (runtime (run [ActNextJsonRpcResponse 5 0;
                              ActEvent (JsonRpcResponsesNonEmpty 7)] recycled_client))
    = [(KNextJsonRpcResponse 5 7 false, PVoid)].
Proof.
  split; [apply reachable_recycled_client|]. vm_compute. by repeat split.
Qed.

(** ** The queue of pending [addChain] calls *)

Lemma fifo_batch (pending calls : list (nat * AddChainOptions))
    (outcomes : list AddChainOutcome) :
  fifo pending ((uncurry Issue <$> calls) ++ (Outcome <$> outcomes))
  = zip (pending ++ calls) outcomes.
Proof.
  revert pending. induction calls as [|[id o] calls IH]; intros pending; csimpl.
  - rewrite app_nil_r. revert pending.
    induction outcomes as [|out outcomes IH]; intros [|c pending]; csimpl; try done.
    by rewrite IH.
  - rewrite IH. by rewrite <- app_assoc.
Qed.

Lemma potentialRelayChainsIds_chainIds (o : AddChainOptions) (w w' : World) :
  chainIds (state w') = chainIds (state w) →
  potentialRelayChainsIds o w' = potentialRelayChainsIds o w.
Proof. intros H. unfold potentialRelayChainsIds. by rewrite H. Qed.

(** The exchange, from a ready client whose queue holds the resolvers of the
    calls [pending]. *)
Lemma ledger_fifo (l : list LedgerStep) (w w0 : World)
    (pending : list (nat * AddChainOptions)) :
  Inv w → instance (state w) = Ready →
  chainIds (state w) = chainIds (state w0) →
  Forall2 (λ p c, promises (runtime w) !! p = Some (KAddChainOutcome c.1 c.2))
    (addChainResults (state w)) pending →
  Forall accepted_step l →
  microtasks (runtime (run (ledger_action <$> l) w))
  = microtasks (runtime w) ++ (delivery <$> fifo pending l)
  ∧ engineLog (env (run (ledger_action <$> l) w)) = engineLog (env w) ++ createChains l w0.
Proof.
  revert w pending. induction l as [|s l IH]; intros w pending HI Hst Hids Hp Hl.
  - simpl. by rewrite !app_nil_r.
  - apply Forall_cons in Hl as [Hs Hl]. csimpl.
    change (run (?a :: ?l') w) with (run l' (step a w)).
    destruct s as [id o|outcome]; cbn [ledger_action step].
    + destruct Hs as (Hspec & [mp Hmp] & [ms Hms] & Hdb).
      pose proof (Inv_addChain id o w HI) as HI'.
      rewrite addChain_Ready in * by done.
      rewrite (addChainAfterReady_issued id o mp ms) in * by done.
      pose proof (Inv_fresh_None w HI) as Hfresh.
      edestruct (IH _ (pending ++ [(id, o)]) HI') as [-> ->]; proj; try done.
      * apply Forall2_app; [|repeat constructor; simpl; by rewrite lookup_insert_eq].
        eapply Forall2_impl; [exact Hp|]. intros p c Hpc.
        rewrite lookup_insert_ne; [done|]. intros <-. congruence.
      * split; [done|]. rewrite <- app_assoc. f_equal. unfold createChains. csimpl.
        unfold createChain at 2. rewrite Hmp, Hms.
        by rewrite (potentialRelayChainsIds_chainIds o w0 w).
    + pose proof (Inv_eventCallback (AddChainResult outcome) w HI) as HI'.
      cbn [eventCallback] in *.
      destruct (addChainResults (state w)) as [|r rest] eqn:Hledger.
      * inversion Hp; subst. cbn [fst] in *. apply IH; try done. by rewrite Hledger.
      * inversion Hp as [|? c ? pending' Hr Hrest]; subst. cbn [fst] in *.
        pose proof (inv_ledger_nodup w HI) as Hnd. rewrite Hledger in Hnd.
        apply NoDup_cons in Hnd as [Hnotin _].
        rewrite resolvePromise_eq in *. proj.
        edestruct (IH _ pending' HI') as [-> ->]; proj; try done.
        -- clear -Hrest Hnotin. induction Hrest as [|q c' rest pending' Hq _ IH'];
             constructor.
           ++ rewrite lookup_delete_ne; [done|]. intros ->. apply Hnotin. left.
           ++ apply IH'. intros Hin. apply Hnotin. by right.
        -- split; [|done]. rewrite (woken_singleton_pending _ _ _ _ Hr).
           csimpl. by rewrite <- app_assoc.
Qed.

Lemma reachable_ready_client : reachable ready_client.
Proof. by exists [ActInstanceStarted]. Qed.

(** C1: in a ready client whose queue of pending requests is empty, let calls
    of [addChain] that pass their tests and add-chain-result events follow
    one another in any order.  The create-chain commands reach the instance
    in the order of the calls, and the k-th event is handed to the call that
    sent the k-th command (the oldest call without outcome), whatever chain
    id or error the event carries; in particular, when all the calls come
    before the events, call i receives event i.  The call that receives a
    failure is rejected with the event's error, and the call that receives a
    success returns a new [Chain] object bound to the event's chain id. *)
Theorem addChain_results_fifo (w : World) (l : list LedgerStep) :
  reachable w → instance (state w) = Ready → addChainResults (state w) = [] →
  Forall accepted_step l →
  microtasks (runtime (run (ledger_action <$> l) w))
  = microtasks (runtime w) ++ (delivery <$> fifo [] l) ∧
  engineLog (env (run (ledger_action <$> l) w)) = engineLog (env w) ++ createChains l w ∧
  (∀ calls outcomes,
     l = (uncurry Issue <$> calls) ++ (Outcome <$> outcomes) →
     microtasks (runtime (run (ledger_action <$> l) w))
     = microtasks (runtime w) ++ (delivery <$> zip calls outcomes)) ∧
  (∀ id o error w',
     runCont (KAddChainOutcome id o) (POutcome (Failure error)) w'
     = settle (CallAddChain id) (Rejected (AddChainError error)) w') ∧
  (∀ id o chainId w',
     settled (runtime (runCont (KAddChainOutcome id o) (POutcome (Success chainId)) w'))
     = settled (runtime w')
       ++ [(CallAddChain id, Resolved (VChain (nextChainObject (runtime w'))))] ∧
     chainObjects (runtime (runCont (KAddChainOutcome id o) (POutcome (Success chainId)) w'))
       !! nextChainObject (runtime w') = Some (chainId, disableJsonRpc o) ∧
     chainIds (state (runCont (KAddChainOutcome id o) (POutcome (Success chainId)) w'))
       !! nextChainObject (runtime w') = Some chainId ∧
     JsMap.get chainId
       (chains (state (runCont (KAddChainOutcome id o) (POutcome (Success chainId)) w')))
     = Some []).
Proof.
  intros Hw Hst Hledger Hl. apply reachable_Inv in Hw as HI.
  destruct (ledger_fifo l w w [] HI Hst eq_refl) as [Hm He]; [by rewrite Hledger | done |].
  split_and!; try done.
  - intros calls outcomes ->. rewrite Hm. f_equal. f_equal. apply (fifo_batch []).
  - intros id o chainId w'. cbn [runCont addChainAfterOutcome]. proj.
    split_and!; try done.
    + apply lookup_insert_eq.
    + apply lookup_insert_eq.
    + apply JsMap_get_set_eq.
Qed.

Lemma addChain_results_fifo_witness :
  microtasks (runtime (run (ledger_action <$> two_calls) ready_client))
  = microtasks (runtime ready_client) ++ (delivery <$> fifo [] two_calls).
Proof.
  assert (instance (state ready_client) = Ready) as Hst by (vm_compute; reflexivity).
  assert (addChainResults (state ready_client) = []) as Hl by (vm_compute; reflexivity).
  assert (Forall accepted_step two_calls) as Hacc.
  { unfold two_calls. repeat constructor; try (eexists; vm_compute; reflexivity). }
  destruct (addChain_results_fifo ready_client two_calls reachable_ready_client Hst Hl Hacc)
    as [H _].
  exact H.
Defined.

(** In that exchange the first call gets the chain 9 and the second call the
    failure. *)
Example two_calls_matched :
  fifo [] two_calls
  = [(0, mkOptions (JsString "a") JsUndefined None false None None, Success 9);
     (1, mkOptions (JsString "b") JsUndefined None true None None, Failure "bad")]
  ∧ settled (runtime (run ((ledger_action <$> two_calls) ++ [ActMicrotask; ActMicrotask])
                        ready_client))
    = [(CallAddChain 0, Resolved (VChain 0));
       (CallAddChain 1, Rejected (AddChainError "bad"))].
Proof. vm_compute. repeat split. Qed.

(** ** Crash *)

Lemma elem_of_woken (v : Payload) (m : gmap PromiseId Cont) (l : list PromiseId)
    (p : PromiseId) (k : Cont) :
  p ∈ l → m !! p = Some k → (k, v) ∈ woken v m l.
Proof.
  revert m. induction l as [|q l IH]; intros m Hin Hp; [by apply elem_of_nil in Hin|].
  simpl. apply elem_of_app. destruct (decide (p = q)) as [->|Hne].
  - left. rewrite Hp. left.
  - right. apply elem_of_cons in Hin as [?|Hin]; [done|].
    apply IH; [done|]. by rewrite lookup_delete_ne.
Qed.

(** What a crash does in any client: the status and the error, the
    connections, the pending calls of [addChain] and the waiters. *)
Lemma wasm_panic_effect (message : string) (currentTask : option string) (w : World) :
  reachable w →
  instance (state (eventCallback (WasmPanic message currentTask) w).1)
  = Destroyed (CrashError message) ∧
  connections (state (eventCallback (WasmPanic message currentTask) w).1) = [] ∧
  platformLog (env (eventCallback (WasmPanic message currentTask) w).1)
  = platformLog (env w)
    ++ ((λ connec, PlatReset connec None) <$> JsMap.values (connections (state w))) ∧
  addChainResults (state (eventCallback (WasmPanic message currentTask) w).1) = [] ∧
  chains (state (eventCallback (WasmPanic message currentTask) w).1) = [] ∧
  (∀ p, p ∈ addChainResults (state w) →
        ∃ id o,
          (KAddChainOutcome id o, POutcome (Failure "Smoldot has crashed"))
          ∈ microtasks (runtime (eventCallback (WasmPanic message currentTask) w).1) ∧
          ∀ w', runCont (KAddChainOutcome id o) (POutcome (Failure "Smoldot has crashed")) w'
                = settle (CallAddChain id) (Rejected (AddChainError "Smoldot has crashed")) w') ∧
  (∀ chainId callbacks p,
     JsMap.get chainId (chains (state w)) = Some callbacks → p ∈ callbacks →
     ∃ id d,
       (KNextJsonRpcResponse id chainId d, PVoid)
       ∈ microtasks (runtime (eventCallback (WasmPanic message currentTask) w).1) ∧
       ∀ w', chains (state w') = [] →
             runCont (KNextJsonRpcResponse id chainId d) PVoid w'
             = settle (CallNextJsonRpcResponse id chainId) (Rejected AlreadyDestroyedError) w').
Proof.
  intros Hw. apply reachable_Inv in Hw as HI.
  rewrite eventCallback_WasmPanic. norm. split_and!; try done.
  - intros p Hp. pose proof (inv_ledger w HI) as Hl.
    eapply Forall_forall in Hl as (k & Hk & Hkind); [|done].
    destruct k; try done. exists id, options. split; [|done].
    apply elem_of_app. left. apply elem_of_app. left. apply elem_of_app. right.
    by apply (elem_of_woken _ _ _ p).
  - intros chainId callbacks p Hg Hp.
    pose proof (JsMap_get_Forall _ _ _ _ (inv_chains w HI) Hg) as [_ Hc]. simpl in Hc.
    eapply Forall_forall in Hc as Hpend; [|done].
    destruct Hpend as (k & Hk & Hkind). destruct k; try done. simpl in Hkind. subst.
    exists id, disableJsonRpc0. split.
    + apply elem_of_app. left. apply elem_of_app. right.
      apply (elem_of_woken _ _ _ p).
      * apply JsMap_get_elem_of in Hg. clear -Hg Hp.
        induction (chains (state w)) as [|[c l] chs IH]; [by apply elem_of_nil in Hg|].
        csimpl. apply elem_of_app. apply elem_of_cons in Hg as [[= <- <-]|Hg]; auto.
      * rewrite lookup_deleteAll_notin; [done|].
        eapply (pend_disjoint _ (kind_waiter chainId) kind_outcome);
          [|by exists (KNextJsonRpcResponse id chainId disableJsonRpc0)
           |apply (inv_ledger w HI)].
        intros k ? ?. by eapply kind_outcome_waiter.
    + intros w' Hch. unfold runCont, nextJsonRpcResponse, JsMap.has.
      by rewrite Hch.
Qed.

(** C2 (defect): after a crash the call of [nextJsonRpcResponse] that was
    waiting does settle, but with the error "already destroyed" and not with
    the crash error the instance now carries: the crash empties
    [state.chains] before the woken loop runs, and the loop tests the
    registry before it tests the status.  The pending [addChain] call is
    rejected, and the connection is reset once and forgotten. *)
Theorem wasm_panic_waiter_error :
  instance (state crashed_client) = Destroyed (CrashError "boom") ∧
  settled (runtime crashed_client)
  = settled (runtime busy_client)
    ++ [(CallAddChain 2, Rejected (AddChainError "Smoldot has crashed"));
        (CallNextJsonRpcResponse 1 7, Rejected AlreadyDestroyedError)] ∧
  ((CallNextJsonRpcResponse 1 7, Rejected (CrashError "boom"))
   ∉ settled (runtime crashed_client)) ∧
  microtasks (runtime crashed_client) = [] ∧
  connections (state busy_client) = [(5, 0)] ∧
  connections (state crashed_client) = [] ∧
  platformLog (env crashed_client) = platformLog (env busy_client) ++ [PlatReset 0 None].
Proof.
  split_and!; try (vm_compute; reflexivity).
  vm_compute. intros Hin. repeat (apply elem_of_cons in Hin as [Hin|Hin]; [discriminate Hin|]).
  by apply elem_of_nil in Hin.
Qed.

(** ** The options of [start] *)

Lemma Qle_bool_false (x y : Q) : Qle_bool x y = false ↔ (y < x)%Q.
Proof.
  rewrite <- not_true_iff_false, Qle_bool_iff. split.
  - apply Qnot_le_lt.
  - apply Qlt_not_le.
Qed.

(** X1: the CPU rate limit handed to the instance is always a finite number
    between 0 and 1.  A missing value, NaN, plus infinity and every value
    above 1 give 1, every negative value and minus infinity give 0, and a
    value above 0 and at most 1 is kept.  An explicit 0 is falsy and therefore
    also gives 1, not 0. *)
Theorem cpuRateLimit_sanitized (o : option JsNumber) :
  (∃ q, sanitize_cpuRateLimit o = JsFinite q ∧ (0 <= q)%Q ∧ (q <= 1)%Q) ∧
  (o = None ∨ o = Some JsNaN ∨ o = Some JsPosInf → sanitize_cpuRateLimit o = js_int 1) ∧
  (o = Some JsNegInf → sanitize_cpuRateLimit o = js_int 0) ∧
  (∀ q, o = Some (JsFinite q) →
        ((q == 0)%Q → sanitize_cpuRateLimit o = js_int 1) ∧
        ((1 < q)%Q → sanitize_cpuRateLimit o = js_int 1) ∧
        ((q < 0)%Q → sanitize_cpuRateLimit o = js_int 0) ∧
        ((0 < q)%Q → (q <= 1)%Q → sanitize_cpuRateLimit o = JsFinite q)).
Proof.
  assert (∀ q, (q == 0)%Q → sanitize_cpuRateLimit (Some (JsFinite q)) = js_int 1) as Hzero.
  { intros q Hq. unfold sanitize_cpuRateLimit, number_or. simpl.
    by rewrite (proj2 (Qeq_bool_iff q 0) Hq). }
  assert (∀ q, (1 < q)%Q → sanitize_cpuRateLimit (Some (JsFinite q)) = js_int 1) as Hbig.
  { intros q Hq. unfold sanitize_cpuRateLimit, number_or. simpl.
    destruct (Qeq_bool q 0) eqn:E; simpl; [done|].
    by rewrite (proj2 (Qle_bool_false q (inject_Z 1)) Hq). }
  assert (∀ q, (q < 0)%Q → sanitize_cpuRateLimit (Some (JsFinite q)) = js_int 0) as Hneg.
  { intros q Hq. unfold sanitize_cpuRateLimit, number_or. simpl.
    destruct (Qeq_bool q 0) eqn:E; simpl.
    - apply Qeq_bool_iff in E. rewrite E in Hq. by apply Qlt_irrefl in Hq.
    - assert (Qle_bool q (inject_Z 1) = true) as ->.
      { apply Qle_bool_iff. apply Qlt_le_weak. eapply Qlt_trans; [exact Hq|done]. }
      simpl. unfold js_lt, js_int.
      by rewrite (proj2 (Qle_bool_false (inject_Z 0) q) Hq). }
  assert (∀ q, (0 < q)%Q → (q <= 1)%Q →
               sanitize_cpuRateLimit (Some (JsFinite q)) = JsFinite q) as Hkeep.
  { intros q H0 H1. unfold sanitize_cpuRateLimit, number_or. simpl.
    destruct (Qeq_bool q 0) eqn:E; simpl.
    - apply Qeq_bool_iff in E. rewrite E in H0. by apply Qlt_irrefl in H0.
    - rewrite (proj2 (Qle_bool_iff q (inject_Z 1)) H1). simpl. unfold js_lt, js_int.
      by rewrite (proj2 (Qle_bool_iff (inject_Z 0) q) (Qlt_le_weak _ _ H0)). }
  split_and!.
  - destruct o as [[| | |q]|]; try (exists 1%Q; by split_and!); try (exists 0%Q; by split_and!).
    destruct (Q_dec q 0) as [[Hlt|Hgt]|Heq].
    + exists 0%Q. by rewrite Hneg.
    + destruct (Qlt_le_dec 1 q) as [Hbig'|Hle].
      * exists 1%Q. by rewrite Hbig.
      * exists q. rewrite Hkeep by done. split_and!; [done| |done]. by apply Qlt_le_weak.
    + exists 1%Q. by rewrite Hzero.
  - by intros [->|[->| ->]].
  - by intros ->.
  - intros q ->. split_and!; auto.
Qed.

Lemma cpuRateLimit_sanitized_witness :
  sanitize_cpuRateLimit (Some (JsFinite (1 # 2))) = JsFinite (1 # 2)
  ∧ sanitize_cpuRateLimit (Some (JsFinite 0)) = js_int 1.
Proof.
  destruct (cpuRateLimit_sanitized (Some (JsFinite (1 # 2)))) as (_ & _ & _ & H).
  destruct (cpuRateLimit_sanitized (Some (JsFinite 0))) as (_ & _ & _ & H0).
  destruct (H (1 # 2)%Q eq_refl) as (_ & _ & _ & Hkeep).
  destruct (H0 0%Q eq_refl) as (Hzero & _).
  split.
  - apply Hkeep; unfold Qlt, Qle; simpl; lia.
  - apply Hzero. reflexivity.
Defined.

(** ** Events and callbacks that find nothing to act on *)

(** X2: the event callback throws exactly when the event names something the
    state does not hold (an add-chain-result while no request is pending, a
    responses event for a chain that is not registered, a connection event for
    an id that is not in the table).  It then throws a [TypeError] and leaves
    everything as it was; every other event is handled without error. *)
Theorem eventCallback_dangling (event : Event) (w : World) :
  (dangling event w → eventCallback event w = (w, Throw TypeError)) ∧
  (¬ dangling event w → (eventCallback event w).2 = Normal ()) ∧
  (∀ e, (eventCallback event w).2 = Throw e → e = TypeError ∧ dangling event w).
Proof.
  destruct event; cbn [eventCallback dangling connect]; unfold withConnection;
    repeat break_match; cbn [fst snd]; split_and!;
    first [ done
          | by intros e [= <-]
          | by intros e [=]
          | by intros Hd; destruct Hd ].
Qed.

Lemma eventCallback_dangling_witness :
  eventCallback (AddChainResult (Success 3)) ready_client = (ready_client, Throw TypeError)
  ∧ (eventCallback (AddChainResult (Success 7)) (run [ActAddChain 0
         (mkOptions (JsString "{}") JsUndefined None false None None)] ready_client)).2
    = Normal ().
Proof.
  split.
  - apply (eventCallback_dangling (AddChainResult (Success 3)) ready_client). reflexivity.
  - apply (eventCallback_dangling (AddChainResult (Success 7))). vm_compute. discriminate.
Defined.

(** X3: a callback of the platform throws exactly when the instance is not
    ready, and then changes nothing.  On a ready instance it sends exactly
    one command to the instance and calls no method of a connection object;
    only the connection-reset callback changes the table of connections: it
    removes the entry of its own connection and keeps every other entry. *)
Theorem connectionCallback_ready_only (connectionId : nat) (cb : ConnectionCallback)
    (w : World) :
  (instance (state w) ≠ Ready →
   connectionCallback connectionId cb w = (w, Throw (GenericError ""))) ∧
  (instance (state w) = Ready →
   (connectionCallback connectionId cb w).2 = Normal () ∧
   (∃ c, engineLog (env (connectionCallback connectionId cb w).1)
         = engineLog (env w) ++ [c]) ∧
   platformLog (env (connectionCallback connectionId cb w).1) = platformLog (env w) ∧
   runtime (connectionCallback connectionId cb w).1 = runtime w ∧
   (∀ message, cb = OnConnectionReset message →
      JsMap.get connectionId (connections (state (connectionCallback connectionId cb w).1))
      = None ∧
      ∀ other, other ≠ connectionId →
        JsMap.get other (connections (state (connectionCallback connectionId cb w).1))
        = JsMap.get other (connections (state w))) ∧
   ((∀ message, cb ≠ OnConnectionReset message) →
    connections (state (connectionCallback connectionId cb w).1) = connections (state w))).
Proof.
  unfold connectionCallback. split.
  - intros Hst. by destruct (instance (state w)).
  - intros ->. destruct cb; proj; split_and!; try done; eauto.
    all: try by intros m [=].
    + intros m _. split; [apply JsMap_get_delete_eq|].
      intros other Hne. by apply JsMap_get_delete_ne.
    + intros H. by destruct (H message).
Qed.

Lemma connectionCallback_ready_only_witness :
  connectionCallback 5 (OnConnectionReset "closed") crashed_client
  = (crashed_client, Throw (GenericError ""))
  ∧ JsMap.get 5 (connections (state (connectionCallback 5 (OnConnectionReset "closed")
                                       busy_client).1)) = None.
Proof.
  assert (instance (state crashed_client) ≠ Ready) as Hc by (vm_compute; discriminate).
  assert (instance (state busy_client) = Ready) as Hb by (vm_compute; reflexivity).
  split.
  - destruct (connectionCallback_ready_only 5 (OnConnectionReset "closed") crashed_client)
      as [H _].
    exact (H Hc).
  - destruct (connectionCallback_ready_only 5 (OnConnectionReset "closed") busy_client)
      as [_ H].
    destruct (H Hb) as (_ & _ & _ & _ & Hreset & _).
    destruct (Hreset "closed" eq_refl) as [Hgone _]. exact Hgone.
Defined.

(** ** The instance is only used while it is ready *)

Lemma runCont_engine_not_ready (k : Cont) (v : Payload) (w : World) :
  instance (state w) ≠ Ready →
  engineLog (env (runCont k v w)) = engineLog (env w)
  ∧ responses (env (runCont k v w)) = responses (env w).
Proof.
  intros Hst. destruct k, v; cbn [runCont];
    unfold addChainAfterReady, addChainAfterOutcome, nextJsonRpcResponse,
      terminateAfterReady, terminateAfterShutdown; norm;
    destruct (instance (state w)) eqn:E; try done;
    repeat (break_match; norm); try done.
Qed.

Lemma step_engine_not_ready (a : Action) (w : World) :
  instance (state w) ≠ Ready →
  engineLog (env (step a w)) = engineLog (env w) ∧
  ((∀ c m, a ≠ ActQueueResponse c m) → responses (env (step a w)) = responses (env w)).
Proof.
  intros Hst. destruct a; cbn [step].
  - unfold instanceStarted. by repeat (break_match; proj).
  - unfold instanceStartFailed. by repeat (break_match; proj).
  - destruct event; unfold eventCallback, withConnection; norm;
      by repeat (break_match; norm).
  - unfold connectionCallback. by destruct (instance (state w)).
  - split; [done|]. intros H. by destruct (H chainId message).
  - unfold addChain, addChainAfterReady, awaitWhenReady.
    destruct (instance (state w)) eqn:E; try done; by repeat (break_match; proj).
  - unfold terminate, terminateAfterReady, awaitWhenReady.
    destruct (instance (state w)) eqn:E; try done; by repeat (break_match; proj).
  - destruct (chainObjects (runtime w) !! newChain) as [[c d]|]; [|done].
    unfold sendJsonRpc. by destruct (instance (state w)).
  - destruct (chainObjects (runtime w) !! newChain) as [[c d]|]; [|done].
    destruct (runCont_engine_not_ready (KNextJsonRpcResponse id c d) PVoid w) as [? ?];
      done.
  - destruct (chainObjects (runtime w) !! newChain) as [[c d]|]; [|done].
    unfold remove. by destruct (instance (state w)).
  - unfold runMicrotask. destruct (microtasks (runtime w)) as [|[k v] q]; [done|].
    destruct (runCont_engine_not_ready k v (set_microtasks q w)) as [? ?]; done.
Qed.

Lemma step_stays_not_ready (a : Action) (w : World) :
  instance (state w) ≠ Ready →
  a ≠ ActInstanceStarted ∨ (∃ e, instance (state w) = Destroyed e) →
  instance (state (step a w)) ≠ Ready
  ∧ ((∃ e, instance (state w) = Destroyed e) → ∃ e, instance (state (step a w)) = Destroyed e).
Proof.
  intros Hst Ha.
  destruct (step_instance a w) as [H|[(-> & _ & H)|[(m & t & _ & H)|(_ & H & _)]]].
  - rewrite H. done.
  - destruct Ha as [|[e He]]; [done|]. by destruct (H e).
  - rewrite H. eauto.
  - done.
Qed.

Lemma queue_step_not_ready (a : Action) (w : World) (c : nat) :
  instance (state w) ≠ Ready → queue c (step a w) = queue c w ++ queued c [a].
Proof.
  intros Hst.
  assert ((∃ c' m, a = ActQueueResponse c' m) ∨ (∀ c' m, a ≠ ActQueueResponse c' m))
    as [(c' & m & ->)|Ha] by (destruct a; eauto).
  - cbn [step]. unfold queue, queued, queueJsonRpcResponse. proj. cbn [omap list_omap].
    destruct (decide (c' = c)) as [->|Hc].
    + rewrite lookup_insert_eq. by destruct (decide (c = c)).
    + rewrite lookup_insert_ne by done. destruct (decide (c' = c)); [done|].
      by rewrite app_nil_r.
  - destruct (step_engine_not_ready a w Hst) as [_ Hr]. unfold queue. rewrite Hr by done.
    destruct a; unfold queued; cbn [omap list_omap]; rewrite ?app_nil_r; try done.
    by destruct (Ha chainId message).
Qed.

(** X4: the instance is only used while it is ready.  From a world whose
    instance is not ready, as long as the instance does not become ready (its
    start is not reported, or it is destroyed, which is for ever), nothing the
    user, the platform, the instance or the runtime does makes the client send
    a command to the instance or take a response out of its queues: the
    commands sent stay the same and each queue only grows by what the instance
    queued meanwhile. *)
Theorem instance_unused_unless_ready (l : list Action) (w : World) :
  instance (state w) ≠ Ready →
  ActInstanceStarted ∉ l ∨ (∃ e, instance (state w) = Destroyed e) →
  instance (state (run l w)) ≠ Ready
  ∧ engineLog (env (run l w)) = engineLog (env w)
  ∧ ∀ c, queue c (run l w) = queue c w ++ queued c l.
Proof.
  revert w. induction l as [|a l IH]; intros w Hst Hl.
  - split_and!; [done..|]. intros c. unfold queued. cbn [omap list_omap run foldl]. by rewrite app_nil_r.
  - change (run (a :: l) w) with (run l (step a w)).
    destruct (step_stays_not_ready a w Hst) as [Hst' Hd].
    { destruct Hl as [Hl|Hl]; [left|by right]. intros ->. apply Hl. left. }
    destruct (IH (step a w) Hst') as (H1 & H2 & H3).
    { destruct Hl as [Hl|Hl]; [left|right; by apply Hd]. intros Hin. apply Hl. by right. }
    split_and!; [done| |].
    + rewrite H2. by apply step_engine_not_ready.
    + intros c. rewrite H3, queue_step_not_ready by done. rewrite <- app_assoc. f_equal.
      change (a :: l) with ([a] ++ l). unfold queued. by rewrite omap_app.
Qed.

Lemma instance_unused_unless_ready_witness :
  let l := [ActInstanceStarted;
            ActAddChain 3 (mkOptions (JsString "{}") JsUndefined None false None None);
            ActQueueResponse 7 "late"; ActTerminate 4; ActNextJsonRpcResponse 5 0;
            ActRemove 0; ActMicrotask; ActMicrotask] in
  instance (state crashed_client) = Destroyed (CrashError "boom")
  ∧ engineLog (env (run l crashed_client)) = engineLog (env crashed_client)
  ∧ queue 7 (run l crashed_client) = queue 7 crashed_client ++ ["late"].
Proof.
  intros l.
  assert (instance (state crashed_client) = Destroyed (CrashError "boom")) as Hst
    by (vm_compute; reflexivity).
  destruct (instance_unused_unless_ready l crashed_client) as (_ & H2 & H3).
  - by rewrite Hst.
  - right. by rewrite Hst; eauto.
  - split_and!; [exact Hst | exact H2 | exact (H3 7)].
Defined.

(** ** Calls on a destroyed client *)

(** A call that returned a rejected promise is rejected by the second of the
    two microtasks that follow, when no other microtask is queued. *)
Lemma returnRejected_settles (call : Call) (e : Error) (w : World) :
  microtasks (runtime w) = [] →
  settled (runtime (returnRejected call e w)) = settled (runtime w)
  ∧ settled (runtime (run [ActMicrotask] (returnRejected call e w))) = settled (runtime w)
  ∧ run [ActMicrotask; ActMicrotask] (returnRejected call e w) = settle call (Rejected e) w.
Proof.
  intros Hm. cbn [run foldl step]. unfold returnRejected, runMicrotask. proj.
  rewrite Hm. cbn [app runCont]. proj. cbn [app runCont]. split_and!; [done..|].
  destruct w as [? [] ?]. cbn in Hm. by subst.
Qed.

(** X5: destruction is final.  Once the instance is destroyed with the error
    [e], then whatever happens afterwards short of a crash being reported,
    [addChain] and [terminate] are rejected with [e] and change nothing else,
    and [sendJsonRpc] and [remove] throw [e] and change nothing.  A call of
    [nextJsonRpcResponse] is rejected at once with "already destroyed" when
    its chain id is not registered; otherwise, when JSON-RPC is disabled for
    its chain, it returns a rejected promise: it is not settled when it
    returns, and is rejected with the JSON-RPC-disabled error by the second
    microtask that follows; otherwise it is rejected at once with [e]. *)
Theorem destroyed_calls_fail (l : list Action) (w : World) (e : Error) :
  instance (state w) = Destroyed e → crash_free l →
  (∀ id o, addChain id o (run l w) = settle (CallAddChain id) (Rejected e) (run l w)) ∧
  (∀ id, terminate id (run l w) = settle (CallTerminate id) (Rejected e) (run l w)) ∧
  (∀ c d request retVal, sendJsonRpc c d request retVal (run l w) = (run l w, Throw e)) ∧
  (∀ h c, remove h c (run l w) = (run l w, Throw e)) ∧
  (∀ id c d,
     nextJsonRpcResponse id c d (run l w)
     = if negb (JsMap.has c (chains (state (run l w))))
       then settle (CallNextJsonRpcResponse id c) (Rejected AlreadyDestroyedError) (run l w)
       else if d
            then returnRejected (CallNextJsonRpcResponse id c) JsonRpcDisabledError (run l w)
            else settle (CallNextJsonRpcResponse id c) (Rejected e) (run l w)) ∧
  (∀ id c,
     JsMap.has c (chains (state (run l w))) = true → microtasks (runtime (run l w)) = [] →
     settled (runtime (nextJsonRpcResponse id c true (run l w))) = settled (runtime (run l w))
     ∧ settled (runtime (run [ActMicrotask] (nextJsonRpcResponse id c true (run l w))))
       = settled (runtime (run l w))
     ∧ run [ActMicrotask; ActMicrotask] (nextJsonRpcResponse id c true (run l w))
       = settle (CallNextJsonRpcResponse id c) (Rejected JsonRpcDisabledError) (run l w)).
Proof.
  intros Hst Hl. pose proof (run_destroyed l w e Hl Hst) as H.
  split_and!; intros.
  - unfold addChain, addChainAfterReady. by rewrite H.
  - unfold terminate, terminateAfterReady. by rewrite H.
  - unfold sendJsonRpc. by rewrite H.
  - unfold remove. by rewrite H.
  - unfold nextJsonRpcResponse. rewrite H. by repeat break_match.
  - unfold nextJsonRpcResponse.
    match goal with Hh : JsMap.has _ _ = true |- _ => rewrite Hh end.
    cbn [negb]. by apply returnRejected_settles.
Qed.

Lemma destroyed_calls_fail_witness :
  let l := [ActInstanceStarted; ActEvent ExecutorShutdown; ActTerminate 8; ActMicrotask] in
  addChain 9 (mkOptions (JsString "{}") JsUndefined None false None None)
    (run l crashed_client)
  = settle (CallAddChain 9) (Rejected (CrashError "boom")) (run l crashed_client)
  ∧ remove 0 7 (run l crashed_client) = (run l crashed_client, Throw (CrashError "boom")).
Proof.
  intros l.
  assert (instance (state crashed_client) = Destroyed (CrashError "boom")) as Hst
    by (vm_compute; reflexivity).
  assert (crash_free l) as Hl.
  { intros m t Hin. repeat (apply elem_of_cons in Hin as [Hin|Hin]; [done|]).
    by apply elem_of_nil in Hin. }
  destruct (destroyed_calls_fail l crashed_client _ Hst Hl) as (H1 & _ & _ & H4 & _).
  split; [exact (H1 _ _) | exact (H4 _ _)].
Defined.

(** ** Before the instance is ready *)

Lemma runCont_whenReady (k : Cont) (v : Payload) (w : World) :
  whenReady (runtime (runCont k v w)) = whenReady (runtime w).
Proof.
  destruct k, v; cbn [runCont];
    unfold addChainAfterReady, addChainAfterOutcome, nextJsonRpcResponse, waitForResponse,
      peekJsonRpcResponse, terminateAfterReady, terminateAfterShutdown; norm;
    repeat (break_match; norm); try done.
Qed.

(** Once settled, [whenReady] stays as it is. *)
Lemma step_whenReady (a : Action) (w : World) :
  whenReady (runtime (step a w)) = whenReady (runtime w)
  ∨ ∃ ks, whenReady (runtime w) = WhenReadyPending ks.
Proof.
  assert (whenReady (runtime w) = whenReady (runtime w)) as Hw by done. revert Hw.
  generalize (whenReady (runtime w)) at 2. intros [ks| |e] Hw; [by eauto|left..].
  all: destruct a; cbn [step].
  all: try (unfold instanceStarted, instanceStartFailed; by rewrite Hw).
  all: try (destruct event; unfold eventCallback, withConnection; norm;
            by repeat (break_match; norm)).
  all: try (unfold connectionCallback; by repeat (break_match; norm)).
  all: try done.
  all: try (unfold addChain, terminate;
            destruct (instance (state w));
            first [ exact (runCont_whenReady (KAddChainReady id options) PVoid w)
                  | exact (runCont_whenReady (KTerminateReady id) PVoid w)
                  | by unfold awaitWhenReady; rewrite Hw ]).
  all: try (destruct (chainObjects (runtime w) !! newChain) as [[c d]|]; [|done]).
  all: try (unfold sendJsonRpc; by repeat (break_match; norm)).
  all: try exact (runCont_whenReady (KNextJsonRpcResponse id c d) PVoid w).
  all: try (unfold remove; by repeat (break_match; norm)).
  all: try (unfold runMicrotask; destruct (microtasks (runtime w)) as [|[k v] q]; [done|];
    by rewrite runCont_whenReady).
Qed.

Lemma starting_step (a : Action) (w : World) (ks : list Cont) :
  starting w → whenReady (runtime (step a w)) = WhenReadyPending ks → starting (step a w).
Proof.
  intros (Hst & Hm & Hp & Hc & Hl & Ho) Hw. unfold starting.
  destruct a; cbn [step] in *.
  - unfold instanceStarted in *. by destruct (whenReady (runtime w)).
  - unfold instanceStartFailed in *. by destruct (whenReady (runtime w)).
  - destruct event; unfold eventCallback, withConnection in *; norm;
      repeat (break_match; norm);
      rewrite ?Hp, ?deleteAll_empty, ?woken_empty, ?deleteAll_empty, ?woken_empty, ?app_nil_r;
      done.
  - unfold connectionCallback in *. by destruct (instance (state w)) eqn:E; proj; rewrite ?E.
  - done.
  - unfold addChain, addChainAfterReady, awaitWhenReady in *.
    destruct (instance (state w)) eqn:E; try done;
      proj; repeat (break_match; proj); rewrite ?E; first [done | congruence].
  - unfold terminate, terminateAfterReady, awaitWhenReady in *.
    destruct (instance (state w)) eqn:E; try done;
      proj; repeat (break_match; proj); rewrite ?E; first [done | congruence].
  - destruct (chainObjects (runtime w) !! newChain) as [[c d]|]; [|done].
    unfold sendJsonRpc. by destruct (instance (state w)) eqn:E; proj; rewrite ?E.
  - by rewrite Ho, lookup_empty.
  - destruct (chainObjects (runtime w) !! newChain) as [[c d]|]; [|done].
    unfold remove. by destruct (instance (state w)) eqn:E; proj; rewrite ?E.
  - unfold runMicrotask. by rewrite Hm.
Qed.

(** As long as the start of the instance is not settled, the client is
    [starting]. *)
Lemma reachable_starting (w : World) (ks : list Cont) :
  reachable w → whenReady (runtime w) = WhenReadyPending ks → starting w.
Proof.
  intros [l ->]. revert ks. induction l as [|a l IH] using rev_ind; intros ks Hw.
  - by repeat split.
  - rewrite run_app, run_singleton in *.
    destruct (step_whenReady a (run l start)) as [H|[ks' H]].
    + apply (starting_step _ _ ks); [|done]. apply (IH ks). by rewrite <- H.
    + apply (starting_step _ _ ks); [|done]. by apply (IH ks').
Qed.

(** The blocks that waited for the instance resume one after the other; when
    the start failed, or the instance is destroyed, each of them rejects its
    call. *)
Lemma runCont_ready_rejected (k : Cont) (v : Payload) (e : Error) (w : World) :
  kind_ready k →
  v = PRejection e ∨ (v = PVoid ∧ instance (state w) = Destroyed e) →
  runCont k v w = settle (call_of k) (Rejected e) w.
Proof.
  intros Hk [->|[-> Hst]]; destruct k; try done; cbn [runCont call_of];
    unfold addChainAfterReady, terminateAfterReady; by rewrite Hst.
Qed.

Lemma run_reactions (ks : list Cont) (v : Payload) (e : Error) (w : World) :
  Forall kind_ready ks →
  microtasks (runtime w) = (λ k, (k, v)) <$> ks →
  v = PRejection e ∨ (v = PVoid ∧ instance (state w) = Destroyed e) →
  run (replicate (length ks) ActMicrotask) w
  = set_microtasks []
      (set_settled (settled (runtime w) ++ ((λ k, (call_of k, Rejected e)) <$> ks)) w).
Proof.
  revert w. induction ks as [|k ks IH]; intros w Hks Hm Hv.
  - destruct w as [s [] en]. simpl in *. subst. by rewrite app_nil_r.
  - apply Forall_cons in Hks as [Hk Hks].
    cbn [length replicate]. change (run (?a :: ?l) w) with (run l (step a w)).
    cbn [step]. unfold runMicrotask. rewrite Hm. csimpl.
    rewrite (runCont_ready_rejected k v e) by (proj; done).
    rewrite IH; [|done|done|by proj].
    destruct w as [s [] en]. proj. by rewrite <- app_assoc.
Qed.

Lemma eventCallback_whenReady (event : Event) (w : World) :
  whenReady (runtime (eventCallback event w).1) = whenReady (runtime w).
Proof.
  destruct event; unfold eventCallback, withConnection; norm;
    by repeat (break_match; norm).
Qed.

(** X6: the instance cannot be created.  The calls of [addChain] and
    [terminate] that waited for the instance are each rejected with the error
    of the start, in the order they were made, and nothing else changes; a
    call made afterwards is rejected with the same error as soon as it
    resumes. *)
Theorem start_failure (e : Error) (ks : list Cont) (w : World) :
  reachable w → whenReady (runtime w) = WhenReadyPending ks →
  run (ActInstanceStartFailed e :: replicate (length ks) ActMicrotask) w
  = set_whenReady (WhenReadyRejected e)
      (set_settled (settled (runtime w) ++ ((λ k, (call_of k, Rejected e)) <$> ks)) w)
  ∧ (instance (state w) = NotReady →
     ∀ w', w' = run (ActInstanceStartFailed e :: replicate (length ks) ActMicrotask) w →
       (∀ id o, run [ActAddChain id o; ActMicrotask] w'
                = settle (CallAddChain id) (Rejected e) w') ∧
       (∀ id, run [ActTerminate id; ActMicrotask] w'
              = settle (CallTerminate id) (Rejected e) w')).
Proof.
  intros Hw Hp. destruct (reachable_starting w ks Hw Hp) as (_ & Hm & _).
  pose proof (inv_reactions w (reachable_Inv w Hw) ks Hp) as Hks.
  assert (run (ActInstanceStartFailed e :: replicate (length ks) ActMicrotask) w
          = set_whenReady (WhenReadyRejected e)
              (set_settled (settled (runtime w) ++ ((λ k, (call_of k, Rejected e)) <$> ks))
                 w)) as Hrun.
  { change (run (?a :: ?l) w) with (run l (step a w)). cbn [step].
    unfold instanceStartFailed. rewrite Hp, Hm. csimpl.
    rewrite (run_reactions ks (PRejection e) e); [|done|by proj|by left].
    destruct w as [s [] en]. simpl in *. by subst. }
  split; [done|]. intros Hst w' ->. rewrite Hrun.
  split; intros; cbn [run foldl step]; unfold addChain, terminate, awaitWhenReady; proj;
    rewrite Hst; proj; unfold runMicrotask; proj; rewrite Hm; csimpl;
    destruct w as [s [] en]; simpl in *; by subst.
Qed.

Lemma start_failure_witness :
  let o := mkOptions (JsString "{}") JsUndefined None false None None in
  let w := run [ActAddChain 0 o; ActTerminate 1] start in
  settled (runtime (run [ActInstanceStartFailed (GenericError "no wasm");
                         ActMicrotask; ActMicrotask] w))
  = [(CallAddChain 0, Rejected (GenericError "no wasm"));
     (CallTerminate 1, Rejected (GenericError "no wasm"))].
Proof.
  intros o w.
  assert (reachable w) as Hw by apply reachable_run, reachable_start.
  assert (whenReady (runtime w) = WhenReadyPending [KAddChainReady 0 o; KTerminateReady 1])
    as Hp by (vm_compute; reflexivity).
  destruct (start_failure (GenericError "no wasm") _ w Hw Hp) as [H _].
  exact (f_equal (λ w, settled (runtime w)) H).
Defined.

(** X7: the instance crashes before it is ready.  The crash destroys the
    client at once; the calls of [addChain] and [terminate] that wait for the
    instance stay suspended until the start of the instance is reported, and
    are then each rejected with the error of the crash, in the order they
    were made.  The instance is never marked ready and no command is ever
    sent to it. *)
Theorem crash_before_ready (message : string) (currentTask : option string)
    (ks : list Cont) (w : World) :
  reachable w → whenReady (runtime w) = WhenReadyPending ks →
  settled (runtime (step (ActEvent (WasmPanic message currentTask)) w)) = settled (runtime w)
  ∧ ∀ w', w' = run (ActEvent (WasmPanic message currentTask) :: ActInstanceStarted
                      :: replicate (length ks) ActMicrotask) w →
      instance (state w') = Destroyed (CrashError message)
      ∧ settled (runtime w')
        = settled (runtime w) ++ ((λ k, (call_of k, Rejected (CrashError message))) <$> ks)
      ∧ engineLog (env w') = []
      ∧ microtasks (runtime w') = []
      ∧ whenReady (runtime w') = WhenReadyFulfilled.
Proof.
  intros Hw Hp.
  pose proof (inv_reactions w (reachable_Inv w Hw) ks Hp) as Hks.
  set (w1 := step (ActEvent (WasmPanic message currentTask)) w).
  assert (whenReady (runtime w1) = WhenReadyPending ks) as Hp1.
  { unfold w1. cbn [step]. by rewrite eventCallback_whenReady. }
  assert (instance (state w1) = Destroyed (CrashError message)) as Hst1.
  { unfold w1. cbn [step]. rewrite eventCallback_WasmPanic. by norm. }
  assert (settled (runtime w1) = settled (runtime w)) as Hs1.
  { unfold w1. cbn [step]. rewrite eventCallback_WasmPanic. by norm. }
  destruct (reachable_starting w1 ks (reachable_step _ _ Hw) Hp1) as (_ & Hm1 & _ & _ & Hl1 & _).
  split; [done|]. intros w' ->.
  change (run (?a :: ?b :: ?l) w) with (run l (step b (step a w))). fold w1.
  cbn [step]. unfold instanceStarted. rewrite Hp1, Hst1, Hm1. csimpl.
  rewrite (run_reactions ks PVoid (CrashError message)); [|done|by proj|by right].
  proj. by rewrite Hs1.
Qed.

Lemma crash_before_ready_witness :
  let o := mkOptions (JsString "{}") JsUndefined None false None None in
  let w := run [ActAddChain 0 o; ActTerminate 1] start in
  settled (runtime (run [ActEvent (WasmPanic "boom" None); ActInstanceStarted;
                         ActMicrotask; ActMicrotask] w))
  = [(CallAddChain 0, Rejected (CrashError "boom"));
     (CallTerminate 1, Rejected (CrashError "boom"))].
Proof.
  intros o w.
  assert (reachable w) as Hw by apply reachable_run, reachable_start.
  assert (whenReady (runtime w) = WhenReadyPending [KAddChainReady 0 o; KTerminateReady 1])
    as Hp by (vm_compute; reflexivity).
  destruct (crash_before_ready "boom" None _ w Hw Hp) as [_ H].
  destruct (H _ eq_refl) as (_ & Hs & _). exact Hs.
Defined.

Lemma reactionCommand_ext (k : Cont) (w w' : World) :
  chainIds (state w') = chainIds (state w) → reactionCommand k w' = reactionCommand k w.
Proof.
  intros H. destruct k; try done. unfold reactionCommand, createChain, potentialRelayChainsIds.
  by rewrite H.
Qed.

Lemma reactionCommands_ext (ks : list Cont) (w w' : World) :
  chainIds (state w') = chainIds (state w) →
  omap (λ k, reactionCommand k w') ks = omap (λ k, reactionCommand k w) ks.
Proof.
  intros H. induction ks as [|k ks IH]; [done|]. csimpl.
  by rewrite IH, (reactionCommand_ext k w w').
Qed.

Lemma runCont_ready_command (k : Cont) (w : World) :
  kind_ready k → instance (state w) = Ready →
  instance (state (runCont k PVoid w)) = Ready
  ∧ chainIds (state (runCont k PVoid w)) = chainIds (state w)
  ∧ microtasks (runtime (runCont k PVoid w)) = microtasks (runtime w)
  ∧ engineLog (env (runCont k PVoid w))
    = engineLog (env w) ++ option_list (reactionCommand k w).
Proof.
  intros Hk Hst. destruct k; try done; cbn [runCont reactionCommand].
  - unfold addChainAfterReady, createChain. rewrite Hst.
    destruct (negb (typeof_string (chainSpec options))); proj; csimpl;
      [by rewrite app_nil_r|].
    destruct (sanitize_jsonRpcMaxPendingRequests _); proj;
      [|by destruct (databaseContent_invalid _); rewrite app_nil_r].
    destruct (sanitize_jsonRpcMaxSubscriptions _); proj;
      [|by destruct (databaseContent_invalid _); rewrite app_nil_r].
    destruct (databaseContent_invalid _); proj; [by rewrite app_nil_r|done].
  - unfold terminateAfterReady. rewrite Hst. by proj.
Qed.

Lemma run_reactions_ready (ks : list Cont) (w : World) :
  Forall kind_ready ks → instance (state w) = Ready →
  microtasks (runtime w) = (λ k, (k, PVoid)) <$> ks →
  instance (state (run (replicate (length ks) ActMicrotask) w)) = Ready
  ∧ microtasks (runtime (run (replicate (length ks) ActMicrotask) w)) = []
  ∧ engineLog (env (run (replicate (length ks) ActMicrotask) w))
    = engineLog (env w) ++ omap (λ k, reactionCommand k w) ks.
Proof.
  revert w. induction ks as [|k ks IH]; intros w Hks Hst Hm.
  - csimpl. by rewrite app_nil_r.
  - apply Forall_cons in Hks as [Hk Hks].
    cbn [length replicate]. change (run (?a :: ?l) w) with (run l (step a w)).
    cbn [step]. unfold runMicrotask. rewrite Hm. csimpl.
    destruct (runCont_ready_command k (set_microtasks ((λ k, (k, PVoid)) <$> ks) w) Hk)
      as (H1 & H2 & H3 & H4); [done|].
    destruct (IH _ Hks H1 H3) as (I1 & I2 & I3).
    split_and!; [done..|]. rewrite I3, H4. proj.
    rewrite (reactionCommand_ext k w) by done.
    rewrite (reactionCommands_ext ks w) by done. rewrite <- app_assoc. f_equal.
    by destruct (reactionCommand k w).
Qed.

(** X8: calls made while the instance starts.  When the start of the instance
    is reported, the instance is marked ready and the calls of [addChain] and
    [terminate] that waited resume in the order they were made: the commands
    the instance receives are, in that order, the create-chain command of
    every call of [addChain] whose options pass the tests and the shutdown
    command of every call of [terminate]; these are the first commands the
    instance receives. *)
Theorem calls_before_ready_in_order (ks : list Cont) (w : World) :
  reachable w → whenReady (runtime w) = WhenReadyPending ks →
  instance (state w) = NotReady →
  ∀ w', w' = run (ActInstanceStarted :: replicate (length ks) ActMicrotask) w →
    instance (state w') = Ready
    ∧ microtasks (runtime w') = []
    ∧ engineLog (env w') = omap (λ k, reactionCommand k w) ks.
Proof.
  intros Hw Hp Hst w' ->.
  pose proof (inv_reactions w (reachable_Inv w Hw) ks Hp) as Hks.
  destruct (reachable_starting w ks Hw Hp) as (_ & Hm & _ & _ & Hl & _).
  change (run (?a :: ?l) w) with (run l (step a w)). cbn [step].
  unfold instanceStarted. rewrite Hp, Hst. proj. rewrite Hm. csimpl.
  destruct (run_reactions_ready ks
              (set_whenReady WhenReadyFulfilled
                 (set_microtasks ((λ k, (k, PVoid)) <$> ks) (set_instance Ready w))))
    as (H1 & H2 & H3); [done..|].
  split_and!; [done..|]. rewrite H3. proj. rewrite Hl. csimpl.
  by apply reactionCommands_ext.
Qed.

Lemma calls_before_ready_in_order_witness :
  let o := mkOptions (JsString "{}") JsUndefined None false None None in
  let bad := mkOptions JsUndefined JsUndefined None false None None in
  let w := run [ActAddChain 0 bad; ActTerminate 1; ActAddChain 2 o] start in
  engineLog (env (run [ActInstanceStarted; ActMicrotask; ActMicrotask; ActMicrotask] w))
  = [CmdShutdownExecutor;
     CmdAddChain (JsString "{}") (JsString "") [] false (js_int u32_max) (js_int u32_max)].
Proof.
  intros o bad w.
  assert (reachable w) as Hw by apply reachable_run, reachable_start.
  assert (whenReady (runtime w)
          = WhenReadyPending [KAddChainReady 0 bad; KTerminateReady 1; KAddChainReady 2 o])
    as Hp by (vm_compute; reflexivity).
  assert (instance (state w) = NotReady) as Hst by (vm_compute; reflexivity).
  assert (omap (λ k, reactionCommand k w)
            [KAddChainReady 0 bad; KTerminateReady 1; KAddChainReady 2 o]
          = [CmdShutdownExecutor;
             CmdAddChain (JsString "{}") (JsString "") [] false (js_int u32_max)
               (js_int u32_max)]) as Hc by (vm_compute; reflexivity).
  destruct (calls_before_ready_in_order _ w Hw Hp Hst _ eq_refl) as (_ & _ & H).
  exact (eq_trans H Hc).
Defined.

(** ** The end of [terminate] *)



(** ** Promises without resolver *)

Lemma not_elem_of_concat_values (p : PromiseId) (chs : list (nat * list PromiseId)) :
  Forall (λ e, p ∉ e.2) chs → p ∉ concat (JsMap.values chs).
Proof.
  induction 1 as [|[c l] chs Hl _ IH]; csimpl; [apply not_elem_of_nil|].
  rewrite not_elem_of_app. by split.
Qed.

Ltac stranded_solve :=
  repeat match goal with
         | |- _ ∧ _ => split
         | |- deleteAll _ _ !! _ = _ => rewrite lookup_deleteAll_notin
         | |- <[_ := _]> _ !! _ = _ => rewrite lookup_insert_ne by lia
         | |- delete _ _ !! _ = _ => rewrite lookup_delete_ne
         | |- _ ∉ concat (JsMap.values _) => apply not_elem_of_concat_values
         | |- _ ∉ option_list (Some _) => apply not_elem_of_cons; split; [|apply not_elem_of_nil]
         | |- _ ∉ option_list None => apply not_elem_of_nil
         | |- _ ∉ option_list (onExecutorShutdownOrWasmPanic ?s) =>
             destruct (onExecutorShutdownOrWasmPanic s) eqn:?
         | |- _ ∉ [] => apply not_elem_of_nil
         | |- _ ∉ _ ++ _ => apply not_elem_of_app
         | |- _ ∉ [_] => apply not_elem_of_cons; split; [|apply not_elem_of_nil]
         | |- Forall _ (JsMap.set _ _ _) => apply JsMap_set_Forall
         | |- Forall _ (JsMap.delete _ _) => apply JsMap_delete_Forall
         | |- Forall _ [] => constructor
         | |- Some _ ≠ Some _ => intros [= ?]; lia
         | |- _ ∉ (_, _).2 => cbn [snd]
         | Hc : Forall _ ?m, H : JsMap.get _ ?m = Some ?l |- _ ∉ ?l =>
             exact (JsMap_get_Forall _ _ _ _ Hc H)
         | |- None ≠ Some _ => done
         | |- _ < _ => lia
         | H : _ ∉ _ :: _ |- _ => apply not_elem_of_cons in H as [? ?]
         | H : addChainResults _ = _ |- context [addChainResults _] => rewrite H
         | |- _ ≠ _ => first [lia | congruence]
         | _ => done
         end.

Lemma stranded_runCont (p : PromiseId) (k0 k : Cont) (v : Payload) (w : World) :
  stranded p k0 w → stranded p k0 (runCont k v w).
Proof.
  intros (Hp & Hlt & Hl & Hc & Hcb). unfold stranded.
  destruct k, v; cbn [runCont];
    unfold addChainAfterReady, addChainAfterOutcome, nextJsonRpcResponse, waitForResponse,
      peekJsonRpcResponse, terminateAfterReady, terminateAfterShutdown; norm;
    repeat (break_match; norm); stranded_solve.
Qed.

Lemma stranded_step (p : PromiseId) (k0 : Cont) (a : Action) (w : World) :
  stranded p k0 w → stranded p k0 (step a w).
Proof.
  intros H. destruct a; cbn [step].
  - destruct H as (Hp & Hlt & Hl & Hc & Hcb). unfold stranded, instanceStarted.
    repeat (break_match; proj); stranded_solve.
  - destruct H as (Hp & Hlt & Hl & Hc & Hcb). unfold stranded, instanceStartFailed.
    repeat (break_match; proj); stranded_solve.
  - destruct H as (Hp & Hlt & Hl & Hc & Hcb). unfold stranded.
    destruct event; unfold eventCallback, withConnection; norm;
      repeat (break_match; norm); stranded_solve.
  - destruct H as (Hp & Hlt & Hl & Hc & Hcb). unfold stranded, connectionCallback.
    repeat (break_match; proj); stranded_solve.
  - done.
  - unfold addChain. destruct (instance (state w));
      try apply (stranded_runCont p k0 (KAddChainReady id options) PVoid w H).
    destruct H as (Hp & Hlt & Hl & Hc & Hcb). unfold stranded, awaitWhenReady.
    repeat (break_match; proj); stranded_solve.
  - unfold terminate. destruct (instance (state w));
      try apply (stranded_runCont p k0 (KTerminateReady id) PVoid w H).
    destruct H as (Hp & Hlt & Hl & Hc & Hcb). unfold stranded, awaitWhenReady.
    repeat (break_match; proj); stranded_solve.
  - destruct (chainObjects (runtime w) !! newChain) as [[c d]|]; [|done].
    destruct H as (Hp & Hlt & Hl & Hc & Hcb). unfold stranded, sendJsonRpc.
    repeat (break_match; proj); stranded_solve.
  - destruct (chainObjects (runtime w) !! newChain) as [[c d]|]; [|done].
    apply (stranded_runCont p k0 (KNextJsonRpcResponse id c d) PVoid w H).
  - destruct (chainObjects (runtime w) !! newChain) as [[c d]|]; [|done].
    destruct H as (Hp & Hlt & Hl & Hc & Hcb). unfold stranded, remove. norm.
    repeat (break_match; norm); stranded_solve.
  - unfold runMicrotask. destruct (microtasks (runtime w)) as [|[k v] q]; [done|].
    apply stranded_runCont. by destruct H as (Hp & Hlt & Hl & Hc & Hcb).
Qed.

Lemma stranded_run (p : PromiseId) (k0 : Cont) (l : list Action) (w : World) :
  stranded p k0 w → stranded p k0 (run l w).
Proof.
  revert w. induction l as [|a l IH]; intros w H; [done|].
  apply (IH (step a w)), stranded_step, H.
Qed.

(** X10: [terminate] called twice on a ready client.  The second call
    replaces the resolver the first call stored in
    [state.onExecutorShutdownOrWasmPanic], so nothing can wake the first call
    any more: whatever happens afterwards, the first call stays suspended at
    its [await] and is never settled by it, while the second call is the one
    the end of the executor or a crash wakes. *)
Theorem terminate_twice (a b : nat) (l : list Action) (w : World) :
  reachable w → instance (state w) = Ready →
  ∀ w', w' = run [ActTerminate a; ActTerminate b] w →
    engineLog (env w') = engineLog (env w) ++ [CmdShutdownExecutor; CmdShutdownExecutor]
    ∧ onExecutorShutdownOrWasmPanic (state w') = Some (S (nextPromise (runtime w)))
    ∧ promises (runtime w') !! S (nextPromise (runtime w)) = Some (KTerminateShutdown b)
    ∧ promises (runtime (run l w')) !! nextPromise (runtime w) = Some (KTerminateShutdown a).
Proof.
  intros Hw Hst w' ->. apply reachable_Inv in Hw as HI.
  cbn [run foldl step]. rewrite (terminate_Ready a) by done.
  rewrite terminate_Ready by (by proj). proj.
  split_and!; [by rewrite <- app_assoc|done|by apply lookup_insert_eq|].
  apply stranded_run. unfold stranded. proj. split_and!.
  - rewrite lookup_insert_ne by lia. apply lookup_insert_eq.
  - lia.
  - intros Hin. assert (nextPromise (runtime w) < nextPromise (runtime w)); [|lia].
    apply (Inv_refs_lt w _ HI). apply elem_of_app. by left.
  - apply Forall_forall. intros [c cs] Hc Hin. cbn [snd] in Hin.
    assert (nextPromise (runtime w) < nextPromise (runtime w)); [|lia].
    apply (Inv_refs_lt w _ HI). apply elem_of_app. right.
    clear -Hc Hin. induction (chains (state w)) as [|[c' l'] chs IH];
      [by apply elem_of_nil in Hc|].
    csimpl. apply elem_of_app. apply elem_of_cons in Hc as [[= <- <-]|Hc]; auto.
  - intros [= ?]. lia.
Qed.

Lemma terminate_twice_witness :
  promises (runtime (run [ActEvent ExecutorShutdown; ActMicrotask; ActTerminate 4]
                       (run [ActTerminate 1; ActTerminate 2] ready_client)))
  !! nextPromise (runtime ready_client) = Some (KTerminateShutdown 1).
Proof.
  assert (instance (state ready_client) = Ready) as Hst by (vm_compute; reflexivity).
  destruct (terminate_twice 1 2 [ActEvent ExecutorShutdown; ActMicrotask; ActTerminate 4]
              ready_client reachable_ready_client Hst _ eq_refl) as (_ & _ & _ & H).
  exact H.
Defined.

(** ** A chain added while the client crashes *)

(** X11: the instance reports that a chain was created and crashes before the
    call of [addChain] resumes.  The call resumes after the crash and does not
    look at the status: it is resolved with a new [Chain] object and registers
    the chain in [state.chains], which the crash had emptied.  The client is
    destroyed all the same, so on that object [sendJsonRpc] and [remove] throw
    the crash error, and, when JSON-RPC is not disabled for the chain,
    [nextJsonRpcResponse] is rejected with the crash error too, since the
    chain is registered. *)
Theorem addChain_resolves_after_crash (chainId : nat) (message : string)
    (currentTask : option string) (p : PromiseId) (rest : list PromiseId) (w : World) :
  reachable w → microtasks (runtime w) = [] → addChainResults (state w) = p :: rest →
  ∃ id o,
    promises (runtime w) !! p = Some (KAddChainOutcome id o) ∧
    ∀ w', w' = run [ActEvent (AddChainResult (Success chainId));
                    ActEvent (WasmPanic message currentTask); ActMicrotask] w →
      instance (state w') = Destroyed (CrashError message) ∧
      settled (runtime w')
      = settled (runtime w)
        ++ [(CallAddChain id, Resolved (VChain (nextChainObject (runtime w))))] ∧
      chainObjects (runtime w') !! nextChainObject (runtime w)
      = Some (chainId, disableJsonRpc o) ∧
      chains (state w') = [(chainId, [])] ∧
      (∀ request retVal,
         sendJsonRpc chainId (disableJsonRpc o) request retVal w'
         = (w', Throw (CrashError message))) ∧
      (∀ h, remove h chainId w' = (w', Throw (CrashError message))) ∧
      (disableJsonRpc o = false →
       ∀ id', nextJsonRpcResponse id' chainId (disableJsonRpc o) w'
              = settle (CallNextJsonRpcResponse id' chainId)
                  (Rejected (CrashError message)) w').
Proof.
  intros Hw Hm Hl. apply reachable_Inv in Hw as HI.
  pose proof (inv_ledger w HI) as Hp. rewrite Hl in Hp.
  apply Forall_cons in Hp as [(k & Hk & Hkind) _]. destruct k; try done.
  exists id, options. split; [done|]. intros w' ->.
  set (w2 := run [ActEvent (AddChainResult (Success chainId));
                  ActEvent (WasmPanic message currentTask)] w).
  assert (∃ q, microtasks (runtime w2)
               = (KAddChainOutcome id options, POutcome (Success chainId)) :: q) as [q Hq].
  { unfold w2. cbn [run foldl step]. rewrite eventCallback_WasmPanic.
    cbn [eventCallback fst]. rewrite Hl. norm. rewrite Hm. cbn [woken].
    rewrite Hk. csimpl. eauto. }
  assert (instance (state w2) = Destroyed (CrashError message)
          ∧ chains (state w2) = []
          ∧ settled (runtime w2) = settled (runtime w)
          ∧ chainObjects (runtime w2) = chainObjects (runtime w)
          ∧ nextChainObject (runtime w2) = nextChainObject (runtime w))
    as (Hst & Hch & Hs & Hco & Hn).
  { unfold w2. cbn [run foldl step]. rewrite eventCallback_WasmPanic.
    cbn [eventCallback fst]. rewrite Hl. by norm. }
  change (run [?a; ?b; ?c] w) with (step c (run [a; b] w)). fold w2. clearbody w2.
  cbn [step]. unfold runMicrotask. rewrite Hq. cbn [runCont addChainAfterOutcome]. proj.
  rewrite Hst, Hch, Hs, Hco, Hn.
  split_and!; try done.
  - apply lookup_insert_eq.
  - intros. unfold sendJsonRpc. proj. by rewrite Hst.
  - intros. unfold remove. proj. by rewrite Hst.
  - intros -> id'. unfold nextJsonRpcResponse. proj. rewrite Hst.
    cbn [JsMap.set]. unfold JsMap.has. cbn [JsMap.get]. by rewrite decide_True.
Qed.

Lemma addChain_resolves_after_crash_witness :
  settled (runtime (run [ActEvent (AddChainResult (Success 9));
                         ActEvent (WasmPanic "boom" None); ActMicrotask] busy_client))
  = settled (runtime busy_client) ++ [(CallAddChain 2, Resolved (VChain 1))].
Proof.
  assert (reachable busy_client) as Hw.
  { apply reachable_run, reachable_run, reachable_run, reachable_start. }
  assert (microtasks (runtime busy_client) = []) as Hm by (vm_compute; reflexivity).
  assert (addChainResults (state busy_client) = [2] ∧
          promises (runtime busy_client) !! 2
          = Some (KAddChainOutcome 2
                    (mkOptions (JsString "{}") JsUndefined None false None None)) ∧
          nextChainObject (runtime busy_client) = 1) as (Hl & Hk & Hn)
    by (vm_compute; done).
  destruct (addChain_resolves_after_crash 9 "boom" None 2 [] busy_client Hw Hm Hl)
    as (id & o & Hk' & H).
  rewrite Hk in Hk'. injection Hk' as <- <-.
  destruct (H _ eq_refl) as (_ & Hs & _). rewrite Hn in Hs. exact Hs.
Defined.

(** ** The [Chain] objects *)

Lemma handles_ok_runCont (k : Cont) (v : Payload) (w : World) :
  handles_ok w → handles_ok (runCont k v w).
Proof.
  intros [H1 H2]. unfold handles_ok.
  destruct k, v; cbn [runCont];
    unfold addChainAfterReady, addChainAfterOutcome, nextJsonRpcResponse, waitForResponse,
      peekJsonRpcResponse, terminateAfterReady, terminateAfterShutdown; norm;
    repeat (break_match; norm); try done.
  split.
  - intros h x. destruct (decide (h = nextChainObject (runtime w))) as [->|Hne]; [lia|].
    rewrite lookup_insert_ne by done. intros Hx. apply H1 in Hx. lia.
  - intros h c. destruct (decide (h = nextChainObject (runtime w))) as [->|Hne].
    + rewrite !lookup_insert_eq. intros [= <-]. eauto.
    + rewrite !lookup_insert_ne by done. apply H2.
Qed.

Lemma handles_ok_step (a : Action) (w : World) : handles_ok w → handles_ok (step a w).
Proof.
  intros H. destruct a; cbn [step].
  - unfold instanceStarted. by repeat (break_match; proj).
  - unfold instanceStartFailed. by repeat (break_match; proj).
  - destruct event; unfold eventCallback, withConnection; norm;
      by repeat (break_match; norm).
  - unfold connectionCallback. by repeat (break_match; proj).
  - done.
  - unfold addChain. destruct (instance (state w));
      try apply (handles_ok_runCont (KAddChainReady id options) PVoid w H).
    unfold awaitWhenReady. by repeat (break_match; proj).
  - unfold terminate. destruct (instance (state w));
      try apply (handles_ok_runCont (KTerminateReady id) PVoid w H).
    unfold awaitWhenReady. by repeat (break_match; proj).
  - destruct (chainObjects (runtime w) !! newChain) as [[c d]|]; [|done].
    unfold sendJsonRpc. by repeat (break_match; proj).
  - destruct (chainObjects (runtime w) !! newChain) as [[c d]|]; [|done].
    apply (handles_ok_runCont (KNextJsonRpcResponse id c d) PVoid w H).
  - destruct (chainObjects (runtime w) !! newChain) as [[c d]|]; [|done].
    destruct H as [H1 H2]. unfold handles_ok, remove. norm.
    repeat (break_match; norm); try done.
    all: split; [done|]; intros h c'; rewrite lookup_delete_Some; intros [_ Hh];
      by apply H2.
  - unfold runMicrotask. destruct (microtasks (runtime w)) as [|[k v] q]; [done|].
    by apply handles_ok_runCont.
Qed.

Lemma reachable_handles_ok (w : World) : reachable w → handles_ok w.
Proof.
  intros [l ->]. induction l as [|a l IH] using rev_ind.
  - split; intros ? ?; cbn; by rewrite lookup_empty.
  - rewrite run_app, run_singleton. by apply handles_ok_step.
Qed.

Lemma unmapped_runCont (h : Handle) (k : Cont) (v : Payload) (w : World) :
  unmapped h w → unmapped h (runCont k v w).
Proof.
  intros [H1 H2]. unfold unmapped.
  destruct k, v; cbn [runCont];
    unfold addChainAfterReady, addChainAfterOutcome, nextJsonRpcResponse, waitForResponse,
      peekJsonRpcResponse, terminateAfterReady, terminateAfterShutdown; norm;
    repeat (break_match; norm); try done.
  rewrite lookup_insert_ne by lia. split; [done|lia].
Qed.

Lemma unmapped_step (h : Handle) (a : Action) (w : World) :
  unmapped h w → unmapped h (step a w).
Proof.
  intros H. destruct a; cbn [step].
  - unfold instanceStarted. by repeat (break_match; proj).
  - unfold instanceStartFailed. by repeat (break_match; proj).
  - destruct event; unfold eventCallback, withConnection; norm;
      by repeat (break_match; norm).
  - unfold connectionCallback. by repeat (break_match; proj).
  - done.
  - unfold addChain. destruct (instance (state w));
      try apply (unmapped_runCont h (KAddChainReady id options) PVoid w H).
    unfold awaitWhenReady. by repeat (break_match; proj).
  - unfold terminate. destruct (instance (state w));
      try apply (unmapped_runCont h (KTerminateReady id) PVoid w H).
    unfold awaitWhenReady. by repeat (break_match; proj).
  - destruct (chainObjects (runtime w) !! newChain) as [[c d]|]; [|done].
    unfold sendJsonRpc. by repeat (break_match; proj).
  - destruct (chainObjects (runtime w) !! newChain) as [[c d]|]; [|done].
    apply (unmapped_runCont h (KNextJsonRpcResponse id c d) PVoid w H).
  - destruct (chainObjects (runtime w) !! newChain) as [[c d]|]; [|done].
    destruct H as [H1 H2]. unfold unmapped, remove. norm.
    repeat (break_match; norm); try done.
    all: split; [|done]; apply lookup_delete_None; by right.
  - unfold runMicrotask. destruct (microtasks (runtime w)) as [|[k v] q]; [done|].
    by apply unmapped_runCont.
Qed.

Lemma unmapped_run (h : Handle) (l : list Action) (w : World) :
  unmapped h w → unmapped h (run l w).
Proof.
  revert w. induction l as [|a l IH]; intros w H; [done|].
  apply (IH (step a w)), unmapped_step, H.
Qed.

Lemma omap_filter_None {A B : Type} (f : A → option B) (P : A → Prop)
    `{∀ x, Decision (P x)} (l : list A) :
  (∀ x, ¬ P x → f x = None) → omap f (filter P l) = omap f l.
Proof.
  intros Hf. induction l as [|x l IH]; [done|].
  rewrite filter_cons. destruct (decide (P x)) as [Hx|Hx]; csimpl.
  - by rewrite IH.
  - by rewrite (Hf x Hx).
Qed.

(** X12: a removed chain is forgotten for good.  After [remove] succeeded on a
    [Chain] object, [state.chainIds] never maps that object again, whatever
    happens afterwards: new chains get new objects.  So a later [addChain]
    that lists the object among its potential relay chains sends the same
    relay chain ids as if the object were not listed. *)
Theorem removed_handle_never_mapped (h c : nat) (d : bool) (l : list Action) (w : World) :
  reachable w → chainObjects (runtime w) !! h = Some (c, d) →
  (remove h c w).2 = Normal () →
  chainIds (state (run l (remove h c w).1)) !! h = None
  ∧ ∀ o, potentialRelayChainsIds o (run l (remove h c w).1)
         = potentialRelayChainsIds
             (with_potentialRelayChains (filter (λ x, x ≠ h) <$> potentialRelayChains o) o)
             (run l (remove h c w).1).
Proof.
  intros Hw Hh Hr. destruct (reachable_handles_ok w Hw) as [Hlt _].
  assert (unmapped h (run l (remove h c w).1)) as [Hu _].
  { apply unmapped_run.
    destruct (remove h c w) as [w' r] eqn:Hrm. cbn [snd fst] in *. subst r.
    apply remove_Normal in Hrm as Hn. destruct Hn as (Hst & callbacks & Hg).
    rewrite (remove_Ready h c callbacks w Hst Hg) in Hrm. injection Hrm as <-.
    unfold unmapped. norm. split; [by apply lookup_delete_eq|]. by apply (Hlt h (c, d)). }
  split; [done|]. intros o. rewrite !potentialRelayChainsIds_omap.
  unfold with_potentialRelayChains. cbn [potentialRelayChains].
  destruct (potentialRelayChains o) as [hs|]; [|done]. csimpl.
  symmetry. apply omap_filter_None. intros x Hx. by destruct (decide (x = h)) as [->|].
Qed.

Lemma removed_handle_never_mapped_witness :
  chainIds (state (run [ActEvent (AddChainResult (Success 7)); ActMicrotask]
                     (remove 0 7 busy_client).1)) !! 0 = None.
Proof.
  assert (reachable busy_client) as Hw.
  { apply reachable_run, reachable_run, reachable_run, reachable_start. }
  assert (chainObjects (runtime busy_client) !! 0 = Some (7, false)) as Hh
    by (vm_compute; reflexivity).
  assert ((remove 0 7 busy_client).2 = Normal ()) as Hr by (vm_compute; reflexivity).
  destruct (removed_handle_never_mapped 0 7 false
              [ActEvent (AddChainResult (Success 7)); ActMicrotask] busy_client Hw Hh Hr)
    as [H _].
  exact H.
Defined.

(** X13: the [Chain] objects that [state.chainIds] maps.  In every state of the
    client, an object mapped by [state.chainIds] is a [Chain] object that
    [addChain] returned, and it is mapped to the chain id the methods of that
    object use. *)
Theorem chainIds_are_chain_objects (w : World) (h c : nat) :
  reachable w → chainIds (state w) !! h = Some c →
  h < nextChainObject (runtime w) ∧ ∃ d, chainObjects (runtime w) !! h = Some (c, d).
Proof.
  intros Hw Hc. destruct (reachable_handles_ok w Hw) as [H1 H2].
  destruct (H2 h c Hc) as [d Hd]. split; [by apply (H1 h (c, d))|by exists d].
Qed.

Lemma chainIds_are_chain_objects_witness :
  0 < nextChainObject (runtime busy_client)
  ∧ ∃ d, chainObjects (runtime busy_client) !! 0 = Some (7, d).
Proof.
  assert (reachable busy_client) as Hw.
  { apply reachable_run, reachable_run, reachable_run, reachable_start. }
  assert (chainIds (state busy_client) !! 0 = Some 7) as Hc by (vm_compute; reflexivity).
  exact (chainIds_are_chain_objects busy_client 0 7 Hw Hc).
Defined.

(** ** The connection objects *)

Lemma no_use_after_reset_snoc (log : list PlatformCall) (x : PlatformCall) :
  no_use_after_reset log →
  (∀ connec, connection_of x = Some connec → PlatReset connec None ∉ log) →
  no_use_after_reset (log ++ [x]).
Proof.
  intros Hlog Hx l1 l2 c Heq call Hin.
  destruct l2 as [|y l2 _] using rev_ind; [by apply elem_of_nil in Hin|].
  change (l1 ++ PlatReset c None :: l2 ++ [y]) with (l1 ++ (PlatReset c None :: l2) ++ [y])
    in Heq.
  rewrite app_assoc in Heq. apply app_inj_tail in Heq as [-> ->].
  apply elem_of_app in Hin as [Hin|Hin].
  - by apply (Hlog l1 l2 c).
  - apply list_elem_of_singleton in Hin as ->. intros Hc. apply (Hx c Hc). apply elem_of_app. right. left.
Qed.

Lemma no_use_after_reset_resets (log : list PlatformCall) (cs : list Connection) :
  NoDup cs → (∀ c, c ∈ cs → PlatReset c None ∉ log) →
  no_use_after_reset log →
  no_use_after_reset (log ++ ((λ connec, PlatReset connec None) <$> cs)).
Proof.
  intros Hnd. revert log. induction Hnd as [|c cs Hc Hnd IH]; intros log Hcs Hlog.
  - by rewrite app_nil_r.
  - csimpl. rewrite cons_middle, app_assoc.
    apply IH.
    + intros c' Hc' Hin. apply elem_of_app in Hin as [Hin|Hin].
      * apply (Hcs c'); [by right|done].
      * apply list_elem_of_singleton in Hin. injection Hin as ->. done.
    + apply no_use_after_reset_snoc; [done|]. intros c' [= <-]. apply Hcs. left.
Qed.

Lemma JsMap_values_set {V : Type} (k : nat) (v : V) (m : list (nat * V)) (x : V) :
  x ∈ JsMap.values (JsMap.set k v m) → x = v ∨ x ∈ JsMap.values m.
Proof.
  unfold JsMap.values. induction m as [|[k' v'] m IH]; csimpl.
  - intros ->%list_elem_of_singleton. by left.
  - destruct (decide (k = k')); csimpl.
    + intros [->|Hx]%elem_of_cons; [by left|]. right. by right.
    + intros [->|Hx]%elem_of_cons; [right; by left|].
      destruct (IH Hx) as [->|?]; [by left|]. right. by right.
Qed.

Lemma JsMap_values_set_NoDup {V : Type} (k : nat) (v : V) (m : list (nat * V)) :
  v ∉ JsMap.values m → NoDup (JsMap.values m) → NoDup (JsMap.values (JsMap.set k v m)).
Proof.
  unfold JsMap.values. induction m as [|[k' v'] m IH]; csimpl.
  - intros _ _. apply NoDup_singleton.
  - intros [Hne Hv]%not_elem_of_cons [Hv' Hnd]%NoDup_cons.
    destruct (decide (k = k')); csimpl; apply NoDup_cons.
    + done.
    + split; [|by apply IH]. intros Hin.
      apply (JsMap_values_set k v m v') in Hin as [->|Hin]; done.
Qed.

Lemma JsMap_values_delete {V : Type} (k : nat) (m : list (nat * V)) (x : V) :
  x ∈ JsMap.values (JsMap.delete k m) → x ∈ JsMap.values m.
Proof.
  unfold JsMap.values. intros Hx.
  eapply elem_of_sublist; [exact Hx|]. apply fmap_sublist, JsMap_delete_sublist.
Qed.

Lemma JsMap_values_delete_NoDup {V : Type} (k : nat) (m : list (nat * V)) :
  NoDup (JsMap.values m) → NoDup (JsMap.values (JsMap.delete k m)).
Proof.
  unfold JsMap.values. intros Hnd.
  eapply sublist_NoDup; [exact Hnd|]. apply fmap_sublist, JsMap_delete_sublist.
Qed.

Lemma JsMap_values_get {V : Type} (k : nat) (v : V) (m : list (nat * V)) :
  JsMap.get k m = Some v → v ∈ JsMap.values m.
Proof.
  intros Hg. apply JsMap_get_elem_of in Hg. unfold JsMap.values.
  apply list_elem_of_fmap. by exists (k, v).
Qed.

Lemma JsMap_values_delete_get {V : Type} (k : nat) (v : V) (m : list (nat * V)) :
  NoDup (JsMap.values m) → JsMap.get k m = Some v →
  v ∉ JsMap.values (JsMap.delete k m).
Proof.
  unfold JsMap.values. induction m as [|[k' v'] m IH]; csimpl; [done|].
  intros [Hv' Hnd]%NoDup_cons. destruct (decide (k = k')) as [->|Hne]; csimpl.
  - intros [= ->] Hin. apply Hv'. by apply (JsMap_values_delete k') in Hin.
  - intros Hg. apply not_elem_of_cons. split; [|by apply IH].
    intros ->. apply Hv'. by apply (JsMap_values_get k).
Qed.

Lemma elem_of_snoc {A : Type} (l : list A) (x y : A) : x ∈ l ++ [y] ↔ x ∈ l ∨ x = y.
Proof. by rewrite elem_of_app, list_elem_of_singleton. Qed.

Lemma connections_ok_call (x : PlatformCall) (conns : list (nat * Connection))
    (log : list PlatformCall) (next : Connection) :
  connections_ok conns log next →
  (∀ c, x ≠ PlatReset c None) →
  (∀ c, connection_of x = Some c → c ∈ JsMap.values conns) →
  connections_ok conns (log ++ [x]) next.
Proof.
  intros (Hnd & Hlive & Hlt & Hlog) Hx Hc. split_and!; [done| | |].
  - intros c Hin. destruct (Hlive c Hin) as [? Hdead]. split; [done|].
    intros [?|Heq]%elem_of_snoc; [done|]. by apply (Hx c).
  - intros call c [?| ->]%elem_of_snoc Hcall; [by eapply Hlt|].
    by apply Hlive, Hc.
  - apply no_use_after_reset_snoc; [done|]. intros c Hcall. by apply Hlive, Hc.
Qed.

Lemma connections_ok_delete (k : nat) (conns : list (nat * Connection))
    (log : list PlatformCall) (next : Connection) :
  connections_ok conns log next → connections_ok (JsMap.delete k conns) log next.
Proof.
  intros (Hnd & Hlive & Hlt & Hlog). split_and!; [|intros c Hin|done..].
  - by apply JsMap_values_delete_NoDup.
  - by apply Hlive, (JsMap_values_delete k).
Qed.

Lemma connections_ok_reset (k : nat) (connec : Connection)
    (conns : list (nat * Connection)) (log : list PlatformCall) (next : Connection) :
  connections_ok conns log next → JsMap.get k conns = Some connec →
  connections_ok (JsMap.delete k conns) (log ++ [PlatReset connec None]) next.
Proof.
  intros (Hnd & Hlive & Hlt & Hlog) Hg.
  pose proof (JsMap_values_get _ _ _ Hg) as Hin. split_and!.
  - by apply JsMap_values_delete_NoDup.
  - intros c Hc. destruct (Hlive c (JsMap_values_delete k _ _ Hc)) as [? Hdead].
    split; [done|].
    intros [?|[= ->]]%elem_of_snoc; [done|].
    by apply (JsMap_values_delete_get k connec conns).
  - intros call c [?| ->]%elem_of_snoc Hcall; [by eapply Hlt|].
    injection Hcall as <-. by apply Hlive.
  - apply no_use_after_reset_snoc; [done|]. intros c [= <-]. by apply Hlive.
Qed.

Lemma connections_ok_connect (k : nat) (address : ParsedMultiaddr)
    (conns : list (nat * Connection)) (log : list PlatformCall) (next : Connection) :
  connections_ok conns log next →
  connections_ok (JsMap.set k next conns) (log ++ [PlatConnect k address next]) (S next).
Proof.
  intros (Hnd & Hlive & Hlt & Hlog).
  assert (next ∉ JsMap.values conns) as Hfresh.
  { intros Hin. apply Hlive in Hin as [? _]. lia. }
  split_and!.
  - by apply JsMap_values_set_NoDup.
  - intros c [->|Hc]%JsMap_values_set.
    + split; [lia|]. intros [Hin|[=]]%elem_of_snoc.
      assert (next < next); [|lia]. by apply (Hlt _ _ Hin).
    + destruct (Hlive c Hc) as [? Hdead]. split; [lia|].
      by intros [?|[=]]%elem_of_snoc.
  - intros call c [Hin| ->]%elem_of_snoc Hcall.
    + pose proof (Hlt _ _ Hin Hcall). lia.
    + injection Hcall as <-. lia.
  - apply no_use_after_reset_snoc; [done|]. intros c [= <-] Hin.
    assert (next < next); [|lia]. by apply (Hlt _ _ Hin).
Qed.

Lemma connections_ok_resets (conns : list (nat * Connection)) (log : list PlatformCall)
    (next : Connection) :
  connections_ok conns log next →
  connections_ok [] (log ++ ((λ connec, PlatReset connec None) <$> JsMap.values conns)) next.
Proof.
  intros (Hnd & Hlive & Hlt & Hlog). split_and!.
  - constructor.
  - by intros c ?%elem_of_nil.
  - intros call c [Hin|Hin]%elem_of_app Hcall; [by eapply Hlt|].
    apply list_elem_of_fmap in Hin as (c' & -> & Hc'). injection Hcall as <-.
    by apply Hlive.
  - apply no_use_after_reset_resets; [done| |done]. intros c Hc. by apply Hlive.
Qed.

Lemma conns_ok_runCont (k : Cont) (v : Payload) (w : World) :
  conns_ok w → conns_ok (runCont k v w).
Proof.
  unfold conns_ok. intros H.
  destruct k, v; cbn [runCont];
    unfold addChainAfterReady, addChainAfterOutcome, nextJsonRpcResponse, waitForResponse,
      peekJsonRpcResponse, terminateAfterReady, terminateAfterShutdown; norm;
    repeat (break_match; norm); try done; by apply connections_ok_resets.
Qed.

Lemma conns_ok_step (a : Action) (w : World) : conns_ok w → conns_ok (step a w).
Proof.
  intros H. destruct a; cbn [step].
  - unfold conns_ok, instanceStarted. by repeat (break_match; proj).
  - unfold conns_ok, instanceStartFailed. by repeat (break_match; proj).
  - unfold conns_ok in *.
    destruct event; unfold eventCallback, withConnection; norm;
      repeat (break_match; norm); try done.
    + by apply connections_ok_resets.
    + by apply connections_ok_call.
    + by apply connections_ok_connect.
    + by apply connections_ok_reset.
    + apply connections_ok_call; [done..|]. intros c [= <-]. by eapply JsMap_values_get.
    + apply connections_ok_call; [done..|]. intros c [= <-]. by eapply JsMap_values_get.
    + apply connections_ok_call; [done..|]. intros c [= <-]. by eapply JsMap_values_get.
    + apply connections_ok_call; [done..|]. intros c [= <-]. by eapply JsMap_values_get.
  - unfold conns_ok in *. unfold connectionCallback.
    repeat (break_match; proj); try done. by apply connections_ok_delete.
  - done.
  - unfold addChain. destruct (instance (state w));
      try apply (conns_ok_runCont (KAddChainReady id options) PVoid w H).
    unfold conns_ok, awaitWhenReady in *. by repeat (break_match; proj).
  - unfold terminate. destruct (instance (state w));
      try apply (conns_ok_runCont (KTerminateReady id) PVoid w H).
    unfold conns_ok, awaitWhenReady in *. by repeat (break_match; proj).
  - destruct (chainObjects (runtime w) !! newChain) as [[c d]|]; [|done].
    unfold conns_ok, sendJsonRpc in *. by repeat (break_match; proj).
  - destruct (chainObjects (runtime w) !! newChain) as [[c d]|]; [|done].
    apply (conns_ok_runCont (KNextJsonRpcResponse id c d) PVoid w H).
  - destruct (chainObjects (runtime w) !! newChain) as [[c d]|]; [|done].
    unfold conns_ok, remove in *. norm. by repeat (break_match; norm).
  - unfold runMicrotask. destruct (microtasks (runtime w)) as [|[k v] q]; [done|].
    by apply conns_ok_runCont.
Qed.

Lemma reachable_conns_ok (w : World) : reachable w → conns_ok w.
Proof.
  intros [l ->]. induction l as [|a l IH] using rev_ind.
  - split_and!; cbn.
    + constructor.
    + by intros c ?%elem_of_nil.
    + by intros call c ?%elem_of_nil.
    + intros [|??] ??; discriminate.
  - rewrite run_app, run_singleton. by apply conns_ok_step.
Qed.

(** X14: the connection objects.  Once the client has reset a connection
    object as a whole (on a connection-reset event, on a crash or at the end
    of [terminate]), the object is no longer among the objects kept in
    [state.connections], which are distinct, and the client never calls a
    method of it again: no second reset, no stream reset, no send and no new
    substream. *)
Theorem connection_never_used_after_reset (w : World) (connec : Connection)
    (l1 l2 : list PlatformCall) :
  reachable w → platformLog (env w) = l1 ++ PlatReset connec None :: l2 →
  NoDup (JsMap.values (connections (state w)))
  ∧ (connec ∉ JsMap.values (connections (state w)))
  ∧ ∀ call, call ∈ l2 → connection_of call ≠ Some connec.
Proof.
  intros Hw Hlog. destruct (reachable_conns_ok w Hw) as (Hnd & Hlive & _ & Hnu).
  split_and!; [done| |by apply (Hnu l1 l2)].
  intros Hin. destruct (Hlive connec Hin) as [_ Hdead]. apply Hdead. rewrite Hlog.
  apply elem_of_app. right. left.
Qed.

Lemma connection_never_used_after_reset_witness :
  let w := run [ActEvent (NewConnection 5 "/ip4/127.0.0.1/tcp/30334/ws");
                ActEvent (ConnectionReset 5);
                ActEvent (NewConnection 5 "/ip4/127.0.0.1/tcp/30335/ws");
                ActEvent (StreamSend 5 [] None)] crashed_client in
  (0 ∉ JsMap.values (connections (state w)))
  ∧ Forall (λ call, connection_of call ≠ Some 0) (drop 2 (platformLog (env w))).
Proof.
  intros w.
  assert (reachable w) as Hw.
  { do 5 apply reachable_run. apply reachable_start. }
  assert (∃ l2, platformLog (env w)
                = [PlatConnect 5 "/ip4/127.0.0.1/tcp/30333/ws" 0] ++ PlatReset 0 None :: l2
                ∧ drop 2 (platformLog (env w)) = l2) as (l2 & Hlog & Hd).
  { eexists. vm_compute. split; reflexivity. }
  destruct (connection_never_used_after_reset w 0 _ l2 Hw Hlog) as (_ & H1 & H2).
  split; [exact H1|]. rewrite Hd. apply Forall_forall. exact H2.
Defined.

(** ** Waiting calls of [nextJsonRpcResponse] are served in call order *)

Lemma serve_waiters (c : nat) (ids : list nat) :
  ∀ (w : World) (ms : list string) (ps0 : list PromiseId) (ids0 : list nat),
    instance (state w) = Ready →
    microtasks (runtime w) = (λ id, (KNextJsonRpcResponse id c false, PVoid)) <$> ids →
    queue c w = ms → "" ∉ ms →
    JsMap.get c (chains (state w)) = Some ps0 →
    Forall2 (λ p id, promises (runtime w) !! p = Some (KNextJsonRpcResponse id c false))
      ps0 ids0 →
    (∀ p, is_Some (promises (runtime w) !! p) → p < nextPromise (runtime w)) →
    settled (runtime (run (replicate (length ids) ActMicrotask) w))
    = settled (runtime w)
      ++ zip_with (λ id m, (CallNextJsonRpcResponse id c, Resolved (VString m))) ids ms
    ∧ queue c (run (replicate (length ids) ActMicrotask) w) = drop (length ids) ms
    ∧ microtasks (runtime (run (replicate (length ids) ActMicrotask) w)) = []
    ∧ ∃ ps',
        JsMap.get c (chains (state (run (replicate (length ids) ActMicrotask) w))) = Some ps'
        ∧ Forall2 (λ p id, promises (runtime (run (replicate (length ids) ActMicrotask) w)) !! p
                           = Some (KNextJsonRpcResponse id c false))
            ps' (ids0 ++ drop (length ms) ids).
Proof.
  induction ids as [|id ids IH]; intros w ms ps0 ids0 Hst Hm Hq Hne Hg Hps Hfresh.
  - cbn [length replicate run foldl zip_with drop]. rewrite drop_nil, !app_nil_r.
    split_and!; try done. by exists ps0.
  - cbn [length replicate]. change (run (?a :: ?l) w) with (run l (step a w)).
    cbn [step]. unfold runMicrotask. rewrite Hm. rewrite fmap_cons. cbn [runCont].
    set (w0 := set_microtasks ((λ id, (KNextJsonRpcResponse id c false, PVoid)) <$> ids) w).
    destruct ms as [|m ms].
    + rewrite (nextJsonRpcResponse_absent id c ps0 w0); [|done..].
      unfold w0. clear w0.
      match goal with
      | |- context [run _ ?w1] =>
          destruct (IH w1 [] (ps0 ++ [nextPromise (runtime w)]) (ids0 ++ [id]))
            as (H1 & H2 & H3 & ps' & H4 & H5)
      end.
      * by proj.
      * by proj.
      * by proj.
      * apply not_elem_of_nil.
      * proj. apply JsMap_get_set_eq.
      * proj. apply Forall2_app.
        -- eapply Forall2_impl; [exact Hps|]. intros p i Hp. cbn beta in *.
           rewrite lookup_insert_ne; [done|].
           assert (p < nextPromise (runtime w)); [|lia]. apply Hfresh. by rewrite Hp.
        -- constructor; [|constructor]. apply lookup_insert_eq.
      * proj. intros p. destruct (decide (p = nextPromise (runtime w))) as [->|Hp]; [lia|].
        rewrite lookup_insert_ne by done. intros Hs. apply Hfresh in Hs. lia.
      * split_and!; [| |done|].
        -- rewrite H1. proj. by rewrite !zip_with_nil_r.
        -- rewrite H2. by rewrite !drop_nil.
        -- exists ps'. split; [done|]. cbn [length drop]. rewrite drop_0 in H5.
           by rewrite <- app_assoc in H5.
    + apply not_elem_of_cons in Hne as [Hm0 Hne].
      assert (responses (env w0) !! c = Some (m :: ms)) as Hr.
      { unfold queue in Hq. unfold w0. proj.
        by destruct (responses (env w) !! c) as [[|??]|]; simplify_eq/=. }
      rewrite (nextJsonRpcResponse_present id c m ms w0); [|by unfold JsMap.has, w0; proj; rewrite Hg|done|done|done].
      unfold w0. clear w0 Hr.
      match goal with
      | |- context [run _ ?w1] =>
          destruct (IH w1 ms ps0 ids0) as (H1 & H2 & H3 & ps' & H4 & H5)
      end.
      * by proj.
      * by proj.
      * unfold queue. proj. by rewrite lookup_insert_eq.
      * done.
      * by proj.
      * by proj.
      * by proj.
      * split_and!; [| |done|].
        -- rewrite H1. proj. cbn [zip_with]. by rewrite <- app_assoc.
        -- by rewrite H2.
        -- exists ps'. split; [done|]. by cbn [length drop].
Qed.

(** X15: the waiting calls of [nextJsonRpcResponse] are served in the order
    they were made.  When the instance announces responses for a chain, the
    calls that wait on the chain resume one after the other, oldest first:
    the i-th of them returns the i-th queued response, as long as there are
    responses; the calls for which no response is left wait again, in the same
    order, and the responses no call took stay queued. *)
Theorem waiters_served_in_order (c : nat) (ps : list PromiseId) (ids : list nat)
    (ms : list string) (w : World) :
  reachable w → instance (state w) = Ready → microtasks (runtime w) = [] →
  JsMap.get c (chains (state w)) = Some ps →
  Forall2 (λ p id, promises (runtime w) !! p = Some (KNextJsonRpcResponse id c false))
    ps ids →
  queue c w = ms → "" ∉ ms →
  ∀ w', w' = run (ActEvent (JsonRpcResponsesNonEmpty c)
                    :: replicate (length ids) ActMicrotask) w →
    settled (runtime w')
    = settled (runtime w)
      ++ zip_with (λ id m, (CallNextJsonRpcResponse id c, Resolved (VString m))) ids ms
    ∧ queue c w' = drop (length ids) ms
    ∧ microtasks (runtime w') = []
    ∧ ∃ ps', JsMap.get c (chains (state w')) = Some ps'
             ∧ Forall2 (λ p id, promises (runtime w') !! p
                                = Some (KNextJsonRpcResponse id c false))
                 ps' (drop (length ms) ids).
Proof.
  intros Hw Hst Hm Hg Hps Hq Hne w' ->. apply reachable_Inv in Hw as HI.
  pose proof (JsMap_get_Forall _ _ _ _ (inv_chains w HI) Hg) as [Hnd _]. cbn [snd] in Hnd.
  change (run (?a :: ?l) w) with (run l (step a w)).
  cbn [step eventCallback]. rewrite Hg. cbn [fst]. norm. rewrite Hm, app_nil_l.
  rewrite (woken_pending PVoid _ ps ((λ id, KNextJsonRpcResponse id c false) <$> ids));
    [|done|by apply Forall2_fmap_r].
  rewrite <- list_fmap_compose.
  match goal with
  | |- context [run _ ?w1] =>
      destruct (serve_waiters c ids w1 ms [] []) as (H1 & H2 & H3 & ps' & H4 & H5)
  end.
  - by proj.
  - by proj.
  - by proj.
  - done.
  - proj. apply JsMap_get_set_eq.
  - constructor.
  - proj. intros p Hp. apply (inv_fresh w HI).
    destruct Hp as [k Hk]. apply lookup_deleteAll_Some in Hk. by eexists.
  - split_and!; [by rewrite H1|done|done|]. by exists ps'.
Qed.

Lemma waiters_served_in_order_witness :
  let w := run [ActNextJsonRpcResponse 2 0; ActNextJsonRpcResponse 3 0;
                ActQueueResponse 7 "a"] waiting_client in
  settled (runtime (run [ActEvent (JsonRpcResponsesNonEmpty 7);
                         ActMicrotask; ActMicrotask; ActMicrotask] w))
  = settled (runtime w) ++ [(CallNextJsonRpcResponse 1 7, Resolved (VString "a"))]
  ∧ ∃ ps', JsMap.get 7 (chains (state (run [ActEvent (JsonRpcResponsesNonEmpty 7);
                                            ActMicrotask; ActMicrotask; ActMicrotask] w)))
           = Some ps'
           ∧ Forall2 (λ p id,
                        promises (runtime (run [ActEvent (JsonRpcResponsesNonEmpty 7);
                                                ActMicrotask; ActMicrotask; ActMicrotask] w))
                        !! p = Some (KNextJsonRpcResponse id 7 false))
               ps' [2; 3].
Proof.
  intros w.
  assert (reachable w) as Hw by (unfold w; apply reachable_run, reachable_waiting_client).
  assert (instance (state w) = Ready) as Hst by (vm_compute; reflexivity).
  assert (microtasks (runtime w) = []) as Hm by (vm_compute; reflexivity).
  assert (∃ ps, JsMap.get 7 (chains (state w)) = Some ps ∧
                Forall2 (λ p id, promises (runtime w) !! p
                                 = Some (KNextJsonRpcResponse id 7 false)) ps [1; 2; 3])
    as (ps & Hg & Hps).
  { eexists. split; [vm_compute; reflexivity|]. repeat constructor. }
  assert (queue 7 w = ["a"]) as Hq by (vm_compute; reflexivity).
  assert ("" ∉ ["a"]) as Hne.
  { intros Hin. apply list_elem_of_singleton in Hin. discriminate. }
  destruct (waiters_served_in_order 7 ps [1; 2; 3] ["a"] w Hw Hst Hm Hg Hps Hq Hne _ eq_refl)
    as (H1 & _ & _ & H4).
  split; [exact H1|exact H4].
Defined.

(** ** What the instance is sent *)

Lemma databaseContent_or_string (v : JsValue) :
  databaseContent_invalid v = false → typeof_string (js_or v (JsString "")) = true.
Proof. destruct v as [| | | |s|]; try done. unfold js_or. by destruct (truthy _). Qed.

Lemma runCont_command_ok (k : Cont) (v : Payload) (w : World) :
  Forall command_ok (engineLog (env w)) →
  Forall command_ok (engineLog (env (runCont k v w))).
Proof.
  intros H.
  destruct k, v; cbn [runCont];
    unfold addChainAfterReady, addChainAfterOutcome, nextJsonRpcResponse, waitForResponse,
      peekJsonRpcResponse, terminateAfterReady, terminateAfterShutdown; norm;
    repeat (break_match; norm); try done;
    (apply Forall_app_2; [done|]); repeat constructor;
    first [ by destruct (chainSpec options)
          | by apply databaseContent_or_string
          | by eapply sanitize_jsonRpcMaxPendingRequests_range
          | by eapply sanitize_jsonRpcMaxSubscriptions_range ].
Qed.

Lemma step_command_ok (a : Action) (w : World) :
  Forall command_ok (engineLog (env w)) → Forall command_ok (engineLog (env (step a w))).
Proof.
  intros H. destruct a; cbn [step].
  - unfold instanceStarted. by repeat (break_match; proj).
  - unfold instanceStartFailed. by repeat (break_match; proj).
  - destruct event; unfold eventCallback, withConnection; norm;
      by repeat (break_match; norm).
  - unfold connectionCallback. repeat (break_match; proj); try done;
      apply Forall_app_2; by repeat constructor.
  - done.
  - unfold addChain. destruct (instance (state w));
      try apply (runCont_command_ok (KAddChainReady id options) PVoid w H).
    unfold awaitWhenReady. by repeat (break_match; proj).
  - unfold terminate. destruct (instance (state w));
      try apply (runCont_command_ok (KTerminateReady id) PVoid w H).
    unfold awaitWhenReady. by repeat (break_match; proj).
  - destruct (chainObjects (runtime w) !! newChain) as [[c d]|]; [|done].
    unfold sendJsonRpc. repeat (break_match; proj); try done;
      apply Forall_app_2; by repeat constructor.
  - destruct (chainObjects (runtime w) !! newChain) as [[c d]|]; [|done].
    apply (runCont_command_ok (KNextJsonRpcResponse id c d) PVoid w H).
  - destruct (chainObjects (runtime w) !! newChain) as [[c d]|]; [|done].
    unfold remove. norm. repeat (break_match; norm); try done;
      apply Forall_app_2; by repeat constructor.
  - unfold runMicrotask. destruct (microtasks (runtime w)) as [|[k v] q]; [done|].
    by apply runCont_command_ok.
Qed.

(** X16: nothing ill-formed reaches the instance.  Whatever the user passes to
    [addChain], in whatever order things happen, every create-chain command the
    client ever sent carries a string as chain specification, a string as
    database content, a limit of pending requests that is an integer between 1
    and 2^32-1 and a limit of subscriptions that is an integer between 0 and
    2^32-1. *)
Theorem commands_well_formed (w : World) (chainSpec databaseContent : JsValue)
    (relays : list nat) (d : bool) (maxPendingRequests maxSubscriptions : JsNumber) :
  reachable w →
  CmdAddChain chainSpec databaseContent relays d maxPendingRequests maxSubscriptions
  ∈ engineLog (env w) →
  (∃ s, chainSpec = JsString s) ∧ (∃ s, databaseContent = JsString s) ∧
  (∃ z, maxPendingRequests = js_int z ∧ (1 ≤ z ≤ u32_max)%Z) ∧
  (∃ z, maxSubscriptions = js_int z ∧ (0 ≤ z ≤ u32_max)%Z).
Proof.
  intros [l ->] Hin.
  assert (Forall command_ok (engineLog (env (run l start)))) as Hall.
  { clear Hin. induction l as [|a l IH] using rev_ind; [constructor|].
    rewrite run_app, run_singleton. by apply step_command_ok. }
  rewrite Forall_forall in Hall. destruct (Hall _ Hin) as (H1 & H2 & H3 & H4).
  split_and!; [| |done..].
  - destruct chainSpec; try done. eauto.
  - destruct databaseContent; try done. eauto.
Qed.

Lemma commands_well_formed_witness :
  (∃ z, js_int u32_max = js_int z ∧ (1 ≤ z ≤ u32_max)%Z).
Proof.
  assert (reachable busy_client) as Hw.
  { apply reachable_run, reachable_run, reachable_run, reachable_start. }
  assert (CmdAddChain (JsString "{}") (JsString "") [] false (js_int u32_max) (js_int u32_max)
          ∈ engineLog (env busy_client)) as Hin.
  { assert (engineLog (env busy_client)
            = [CmdAddChain (JsString "{}") (JsString "") [] false (js_int u32_max)
                 (js_int u32_max);
               CmdAddChain (JsString "{}") (JsString "") [] false (js_int u32_max)
                 (js_int u32_max)]) as -> by (vm_compute; reflexivity).
    left. }
  destruct (commands_well_formed busy_client _ _ _ _ _ _ Hw Hin) as (_ & _ & H & _).
  exact H.
Defined.

(** ** Events reported twice *)

Lemma ExecutorShutdown_idle (w : World) :
  onExecutorShutdownOrWasmPanic (state w) = None →
  eventCallback ExecutorShutdown w = (w, Normal ()).
Proof.
  intros Hcb. cbn [eventCallback]. f_equal. unfold callShutdownOrPanic. rewrite Hcb.
  destruct w as [[] [] []]. cbn in Hcb. by subst.
Qed.

Lemma WasmPanic_idle (message : string) (currentTask : option string) (w : World) :
  connections (state w) = [] → addChainResults (state w) = [] → chains (state w) = [] →
  onExecutorShutdownOrWasmPanic (state w) = None →
  eventCallback (WasmPanic message currentTask) w
  = (set_instance (Destroyed (CrashError message)) w, Normal ()).
Proof.
  intros Hc Hl Hch Hcb. cbn [eventCallback]. f_equal.
  unfold callShutdownOrPanic, wakeChains, failAddChainResults, resetConnections. proj.
  rewrite Hc. cbn [JsMap.values fmap list_fmap foldl]. proj.
  rewrite Hl. cbn [foldl]. proj. rewrite Hch. cbn [JsMap.values fmap list_fmap foldl]. proj.
  rewrite Hcb. destruct w as [[] [] []]. cbn in *. by subst.
Qed.

(** X17: events on a state that holds nothing.  An executor-shutdown event
    handled while no resolver of [terminate] is stored changes nothing.  A
    wasm-panic event handled while the state holds no connection, no resolver
    of a pending [addChain], no chain and no resolver of [terminate] only
    replaces the status by the error of that crash: nothing is reset and
    nobody is woken.  Handling a wasm-panic event leaves the state holding
    nothing, and handling an executor-shutdown event leaves no resolver of
    [terminate]: so a second executor-shutdown event, or one that follows a
    crash, changes nothing, and a crash reported right after a crash only
    replaces the error.  (A crash that follows a mere executor-shutdown
    event, or a crash before which a connection was opened, is not covered:
    it finds a state that holds something.) *)
Theorem repeated_events (w : World) (message : string) (currentTask : option string) :
  idle w →
  eventCallback ExecutorShutdown w = (w, Normal ())
  ∧ eventCallback (WasmPanic message currentTask) w
    = (set_instance (Destroyed (CrashError message)) w, Normal ())
  ∧ idle (eventCallback (WasmPanic message currentTask) w).1
  ∧ (∀ w0 message0 currentTask0, idle (eventCallback (WasmPanic message0 currentTask0) w0).1)
  ∧ (∀ w0, onExecutorShutdownOrWasmPanic (state (eventCallback ExecutorShutdown w0).1) = None)
  ∧ (∀ w0, onExecutorShutdownOrWasmPanic (state w0) = None →
           eventCallback ExecutorShutdown w0 = (w0, Normal ())).
Proof.
  intros (Hc & Hl & Hch & Hcb).
  assert (∀ w0 message0 currentTask0,
            idle (eventCallback (WasmPanic message0 currentTask0) w0).1) as Hidle.
  { intros w0 message0 currentTask0. unfold idle. rewrite eventCallback_WasmPanic. by norm. }
  split_and!.
  - by apply ExecutorShutdown_idle.
  - by apply WasmPanic_idle.
  - apply Hidle.
  - apply Hidle.
  - intros w0. cbn [eventCallback fst]. by norm.
  - apply ExecutorShutdown_idle.
Qed.

Lemma repeated_events_witness :
  idle crashed_client
  ∧ eventCallback ExecutorShutdown crashed_client = (crashed_client, Normal ())
  ∧ eventCallback (WasmPanic "again" None) crashed_client
    = (set_instance (Destroyed (CrashError "again")) crashed_client, Normal ()).
Proof.
  assert (idle crashed_client) as Hidle by (vm_compute; done).
  destruct (repeated_events crashed_client "again" None Hidle) as (H1 & H2 & _).
  split; [exact Hidle|]. split; [exact H1|exact H2].
Defined.
